(** * pybart: the constraint matcher and the CoNLL-U field update

    A shallow embedding of [pybart/new_matcher.py] and of
    [replace_conllu_info] from [conllu_wrapper.py].

    Python objects are modelled as follows.
    - A raised exception is a value of [Exc]; a call that may raise returns
      [Res A].
    - A [dict] whose iteration order is observed (which exception comes
      first, which entry overwrites which) is an insertion-ordered
      association list with unique keys ([odict]); a [dict] that is only
      looked up, merged and compared is a [gmap]; a [set] is a [gset].
    - A generator is modelled by what draining it gives: the list of the
      items yielded and the exception, if any, that ended the draining.
    - An object mutated in place ([GlobalMatcher.captured_labels], a CoNLL-U
      node) is threaded through explicitly. *)

From stdpp Require Import gmap strings list fin_maps pretty.
From Stdlib Require Import ZArith Ascii.

Open Scope Z_scope.

(** ** Exceptions and fallible results *)

Inductive Exc : Type :=
| ValueError (msg : string)
| IndexError (msg : string)
| KeyError (key : string)
| TypeError (msg : string).

Inductive Res (A : Type) : Type :=
| Ok (a : A)
| Raise (e : Exc).

Arguments Ok {A} a.
Arguments Raise {A} e.

Definition rbind {A B : Type} (r : Res A) (k : A → Res B) : Res B :=
  match r with
  | Ok a => k a
  | Raise e => Raise e
  end.

Notation "x ←? r ; k" := (rbind r (fun x => k))
  (at level 100, r at next level, k at level 200, right associativity,
   format "x  ←?  r ;  '/' k").

(** What draining a generator gives. *)
Record Drain (A : Type) : Type := mkDrain {
  yielded : list A;
  ended_by : option Exc
}.

Arguments mkDrain {A} yielded ended_by.
Arguments yielded {A} d.
Arguments ended_by {A} d.

(** A generator that yields [x] and then goes on as [d]. *)
Definition yield {A : Type} (x : A) (d : Drain A) : Drain A :=
  mkDrain (x :: yielded d) (ended_by d).

(** ** Insertion-ordered dictionaries *)

Section odict.
Context {K V : Type} `{EqDecision K}.

Definition odict : Type := list (K * V).

Fixpoint od_get (k : K) (d : odict) : option V :=
  match d with
  | [] => None
  | (k', v) :: d' => if decide (k = k') then Some v else od_get k d'
  end.

(** [d[k] = v]: an existing key keeps its place, a new one goes last. *)
Fixpoint od_set (k : K) (v : V) (d : odict) : odict :=
  match d with
  | [] => [(k, v)]
  | (k', v') :: d' =>
      if decide (k = k') then (k, v) :: d' else (k', v') :: od_set k v d'
  end.

Definition od_keys (d : odict) : list K := d.*1.

(** [d[k]] on a [defaultdict]: a missing key is first bound to [dflt]. *)
Definition od_getdefault (dflt : V) (k : K) (d : odict) : V * odict :=
  match od_get k d with
  | Some v => (v, d)
  | None => (dflt, od_set k dflt d)
  end.
End odict.

Arguments odict : clear implicits.

(** * conllu_wrapper.py *)

Module Conllu.

(** The values the ten columns hold: [int(new_id)], [int(head)], the
    column strings, and [None] for an argument that is not supplied. *)
Inductive PyVal : Type :=
| PyNone
| PyInt (n : Z)
| PyStr (s : string).

(** Python truth value: [None], [0] and the empty string are falsy. *)
Definition truthy (v : PyVal) : bool :=
  match v with
  | PyNone => false
  | PyInt n => negb (n =? 0)
  | PyStr s => negb (String.eqb s "")
  end.

(** [ConlluInfo = namedtuple("ConlluInfo", "id, form, lemma, upos, xpos,
    feats, head, deprel, deps, misc")] *)
Record ConlluInfo : Type := mkConlluInfo {
  id : PyVal;
  form : PyVal;
  lemma : PyVal;
  upos : PyVal;
  xpos : PyVal;
  feats : PyVal;
  head : PyVal;
  deprel : PyVal;
  deps : PyVal;
  misc : PyVal
}.

(** A node as [parse_conllu] builds it. The pointers to other nodes are
    kept as node ids. *)
Record Node : Type := mkNode {
  conllu_info : ConlluInfo;
  head_pointer : option Z;
  children_list : list Z;
  new_deps : bool * list (Z * string)
}.

(** [old if not arg else arg] *)
Definition keep_unless (old arg : PyVal) : PyVal :=
  if negb (truthy arg) then old else arg.

(** [replace_conllu_info]: the node is mutated, so the new node is
    returned. An omitted keyword argument is [PyNone], its default. *)
Definition replace_conllu_info (node : Node)
    (new_id form' lemma' upos' xpos' feats' head' deprel' deps' misc' : PyVal)
    : Node :=
  let old := conllu_info node in
  {| conllu_info :=
       mkConlluInfo
         (keep_unless (id old) new_id)
         (keep_unless (form old) form')
         (keep_unless (lemma old) lemma')
         (keep_unless (upos old) upos')
         (keep_unless (xpos old) xpos')
         (keep_unless (feats old) feats')
         (keep_unless (head old) head')
         (keep_unless (deprel old) deprel')
         (keep_unless (deps old) deps')
         (keep_unless (misc old) misc');
     head_pointer := head_pointer node;
     children_list := children_list node;
     new_deps := new_deps node |}.

(** The ten columns, to speak about all of them at once. *)
Inductive Column : Type :=
| c_id | c_form | c_lemma | c_upos | c_xpos
| c_feats | c_head | c_deprel | c_deps | c_misc.

Definition column (c : Column) (i : ConlluInfo) : PyVal :=
  match c with
  | c_id => id i | c_form => form i | c_lemma => lemma i
  | c_upos => upos i | c_xpos => xpos i | c_feats => feats i
  | c_head => head i | c_deprel => deprel i | c_deps => deps i
  | c_misc => misc i
  end.

End Conllu.

(** * pybart/constraints.py

    [new_matcher.py] starts with [from .constraints import *]; that module
    is not part of the sources at hand. What the matcher needs of it is
    given here. *)

(** Modelled from the spec: the label constraints of [constraints.py]
    (class [Label] with its method [satisfied], the class [HasNoLabel], and
    the type of [Edge.label]) are missing. The matcher uses them only
    through the three operations below, so it is embedded over any
    implementation of them. The spec has a label constraint "satisfied if
    the node's actual label set intersects (or, for has-none constraints,
    does not intersect) the constraint's accepted set"; [SpecLabels] further
    down is that reading. *)
Class Labels : Type := {
  (** a label constraint: an element of [Token.incoming_edges] *)
  Label : Type;
  (** what [Edge.label] holds *)
  EdgeLabel : Type;
  (** [constraint.satisfied(actual_labels)] *)
  satisfied : Label → list string → Res (gset string);
  (** [isinstance(edge.label, HasNoLabel)] *)
  isinstance_HasNoLabel : EdgeLabel → bool;
  (** the constraints met when [edge.label] is iterated, as
      [list(edge.label)] and [get_matched_labels(edge.label, ...)] do *)
  iter_label : EdgeLabel → list Label
}.

(** Modelled from the spec: [FieldNames] is missing; the source names the
    members [WORD], [LEMMA], [TAG] and [ENTITY]. *)
Inductive FieldNames : Type := WORD | LEMMA | TAG | ENTITY.

Global Instance FieldNames_eq_dec : EqDecision FieldNames.
Proof. solve_decision. Defined.

(** An accepted value of a field. [preprocess_constraint] appends tuples of
    words next to the strings a rule author wrote. *)
Inductive FieldValue : Type :=
| FStr (s : string)
| FTuple (t : list string).

(** Modelled from the spec: the dataclass [Field] is missing; the source
    reads [spec.field] and [spec.value] and builds [Field(field, value)]. *)
Module Field.
Record t : Type := mk {
  field : FieldNames;
  value : list FieldValue
}.
End Field.

(** Modelled from the spec: the dataclass [Token] is missing; the source
    reads the six attributes below. *)
Module Token.
Record t `{L : Labels} : Type := mk {
  id : string;
  capture : bool;
  spec : list Field.t;
  optional : bool;
  incoming_edges : list Label;
  outgoing_edges : list Label
}.
Arguments mk {L}.
End Token.

(** Modelled from the spec: the dataclass [Edge] is missing. *)
Module Edge.
Record t `{L : Labels} : Type := mk {
  child : string;
  parent : string;
  label : EdgeLabel
}.
Arguments mk {L}.
End Edge.

(** Modelled from the spec: the classes [ExactDistance] and [UptoDistance]
    are missing; the spec has "positional constraints between two named
    variables: exact offset, or at most N tokens between". *)
Module Distance.
Inductive t : Type :=
| ExactDistance (token1 token2 : string) (distance : Z)
| UptoDistance (token1 token2 : string) (distance : Z).

Definition token1 (d : t) : string :=
  match d with ExactDistance a _ _ | UptoDistance a _ _ => a end.
Definition token2 (d : t) : string :=
  match d with ExactDistance _ b _ | UptoDistance _ b _ => b end.
Definition distance (d : t) : Z :=
  match d with ExactDistance _ _ n | UptoDistance _ _ n => n end.
Definition is_ExactDistance (d : t) : bool :=
  match d with ExactDistance _ _ _ => true | _ => false end.
Definition is_UptoDistance (d : t) : bool :=
  match d with UptoDistance _ _ _ => true | _ => false end.
End Distance.

(** Modelled from the spec: the classes [TokenPair] and [TokenTriplet] are
    missing; the spec has "adjacent-phrase constraints over 2 or 3 named
    variables, each holding the set of valid underscore-joined literal
    phrases". [tuple_set] is listed in the order Python iterates the set. *)
Module Concat.
Inductive t : Type :=
| TokenPair (tuple_set : list string) (token1 token2 : string)
| TokenTriplet (tuple_set : list string) (token1 token2 token3 : string).

Definition tuple_set (c : t) : list string :=
  match c with TokenPair s _ _ | TokenTriplet s _ _ _ => s end.
Definition token1 (c : t) : string :=
  match c with TokenPair _ a _ | TokenTriplet _ a _ _ => a end.
Definition token2 (c : t) : string :=
  match c with TokenPair _ _ b | TokenTriplet _ _ b _ => b end.
End Concat.

(** Modelled from the spec: the dataclass [Full] is missing. *)
Module Full.
Record t `{L : Labels} : Type := mk {
  tokens : list Token.t;
  edges : list Edge.t;
  distances : list Distance.t;
  concats : list Concat.t
}.
Arguments mk {L}.
End Full.

(** * The sentence

    The sentence class is not defined in this repository's sources either
    (the source leaves it as a TODO); the matcher reads it through
    [sentence.doc], [get_labels], [index] and [get_text]. *)
Module Sentence.
Record t : Type := mk {
  (** [sentence.doc[i].id] for each index [i] of the document *)
  doc : list Z;
  (** [get_labels(child=c, parent=p)]; an omitted keyword is [None] *)
  get_labels : option Z → option Z → list string;
  (** [sentence.index(position)] *)
  index : Z → Z;
  (** [sentence.get_text(position)] *)
  get_text : Z → string
}.
End Sentence.

(** ** Python helpers *)

(** [l[i]] for a Python list: a negative index counts from the end. *)
Definition py_index {A : Type} (l : list A) (i : Z) : Res A :=
  let j := if i <? 0 then i + Z.of_nat (length l) else i in
  if j <? 0 then Raise (IndexError "list index out of range")
  else match l !! Z.to_nat j with
       | Some x => Ok x
       | None => Raise (IndexError "list index out of range")
       end.

(** [l[i] = x] for a Python list: it never extends the list. *)
Definition py_setitem {A : Type} (l : list A) (i : nat) (x : A) : Res (list A) :=
  if decide (i < length l)%nat then Ok (<[i:=x]> l)
  else Raise (IndexError "list assignment index out of range").

(** [d[k]] for a plain [dict] with string keys. *)
Definition py_getitem {V : Type} (d : gmap string V) (k : string) : Res V :=
  match d !! k with
  | Some v => Ok v
  | None => Raise (KeyError k)
  end.

(** [d.get(k, default=x)]: [dict.get] takes its arguments by position only,
    so the call raises whatever [d], [k] and [x] are. *)
Definition py_get_kw_default {V : Type} (d : gmap string V) (k : string) (x : V)
    : Res V :=
  Raise (TypeError "dict.get() takes no keyword arguments").

(** [d.get(k, x)] *)
Definition py_get {V : Type} (d : gmap string V) (k : string) (x : V) : V :=
  default x (d !! k).

(** [d[k].extend(l)] and [d[k].append(x)] on a [defaultdict(list)]. *)
Definition dd_extend {V : Type} (d : gmap string (list V)) (k : string)
    (l : list V) : gmap string (list V) :=
  <[k := py_get d k [] ++ l]> d.

(** [s.split("_")] *)
Fixpoint split_underscore (s : string) : list string :=
  match s with
  | EmptyString => [EmptyString]
  | String c s' =>
      if Ascii.eqb c "_"%char then EmptyString :: split_underscore s'
      else match split_underscore s' with
           | [] => [String c EmptyString]
           | w :: ws => String c w :: ws
           end
  end.

(** ["_".join(ws)] *)
Fixpoint join_underscore (ws : list string) : string :=
  match ws with
  | [] => EmptyString
  | [w] => w
  | w :: ws' => w +:+ "_" +:+ join_underscore ws'
  end.

(** [zip] applied to the unpacked [rows]: the columns of [rows], as many as the shortest row has
    entries; none when there is no row. *)
Fixpoint zip_star (fuel : nat) (rows : list (list string)) : list (list string) :=
  match fuel with
  | O => []
  | S fuel' =>
      match rows with
      | [] => []
      | _ =>
          if forallb (fun r => negb (bool_decide (r = []))) rows
          then omap head rows :: zip_star fuel' (tail <$> rows)
          else []
      end
  end.

Definition py_zip_star (rows : list (list string)) : list (list string) :=
  zip_star (S (foldr (fun r n => max (length r) n) O rows)) rows.

(** * pybart/new_matcher.py *)

Section get_matched_labels.
Context `{L : Labels}.

(** The list comprehension of [get_matched_labels]: the sets the constraints
    return are gathered, in order, into [successfully_matched]. *)
Fixpoint update_matched (successfully_matched : gset string)
    (label_constraints : list Label) (actual_labels : list string)
    : Res (gset string) :=
  match label_constraints with
  | [] => Ok successfully_matched
  | constraint :: rest =>
      got ←? satisfied constraint actual_labels;
      update_matched (successfully_matched ∪ got) rest actual_labels
  end.

Definition get_matched_labels (label_constraints : list Label)
    (actual_labels : list string) : Res (gset string) :=
  update_matched ∅ label_constraints actual_labels.

End get_matched_labels.

Module MatchingResult.

Record t : Type := mk {
  name2index : gmap string Z;
  indices2label : gmap (Z * Z) (gset string)
}.

End MatchingResult.

(** An assignment of node positions to variable names,
    [Mapping[str, int]]. *)
Abbreviation Assignment := (gmap string Z).

(** The keys of [captured_labels]:
    [(edge.child, child, edge.parent, parent)]. *)
Abbreviation CaptureKey := (string * Z * string * Z)%type.

Module GlobalMatcher.
Section defs.
Context `{L : Labels}.

Record t : Type := mk {
  constraint : Full.t;
  captured_labels : odict CaptureKey (gset string);
  dont_capture_names : list string
}.

(** [__init__] *)
Definition init (constraint : Full.t) : t :=
  {| constraint := constraint;
     captured_labels := [];
     dont_capture_names :=
       Token.id <$> filter (fun token => Token.capture token = false)
                           (Full.tokens constraint) |}.

(** The loop of [_filter_distance_constraints] over
    [self.constraint.distances]. *)
Fixpoint filter_distances (distances : list Distance.t) (match_ : Assignment)
    (sentence : Sentence.t) : Res bool :=
  match distances with
  | [] => Ok true
  | distance :: rest =>
      match match_ !! Distance.token1 distance,
            match_ !! Distance.token2 distance with
      | Some p1, Some p2 =>
          let calculated_distance :=
            Sentence.index sentence p2 - Sentence.index sentence p1 - 1 in
          if Distance.is_ExactDistance distance
             && negb (Distance.distance distance =? calculated_distance)
          then Ok false
          else if Distance.is_UptoDistance distance
                  && (Distance.distance distance <? calculated_distance)
          then Ok false
          else Raise (ValueError "Unknown Distance type")
      | _, _ => filter_distances rest match_ sentence
      end
  end.

Definition _filter_distance_constraints (self : t) (match_ : Assignment)
    (sentence : Sentence.t) : Res bool :=
  filter_distances (Full.distances (constraint self)) match_ sentence.

(** The positions a phrase constraint reads, or [None] when one of its
    variables is absent from the assignment ([continue]). *)
Definition word_indices (concat : Concat.t) (match_ : Assignment)
    : option (list Z) :=
  match concat with
  | Concat.TokenPair _ t1 t2 =>
      match match_ !! t1, match_ !! t2 with
      | Some w1, Some w2 => Some [w1; w2]
      | _, _ => None
      end
  | Concat.TokenTriplet _ t1 t2 t3 =>
      match match_ !! t1, match_ !! t2, match_ !! t3 with
      | Some w1, Some w2, Some w3 => Some [w1; w2; w3]
      | _, _, _ => None
      end
  end.

Fixpoint filter_concats (concats : list Concat.t) (match_ : Assignment)
    (sentence : Sentence.t) : Res bool :=
  match concats with
  | [] => Ok true
  | concat :: rest =>
      match word_indices concat match_ with
      | None => filter_concats rest match_ sentence
      | Some ws =>
          if bool_decide (join_underscore (Sentence.get_text sentence <$> ws)
                          ∈ Concat.tuple_set concat)
          then filter_concats rest match_ sentence
          else Ok false
      end
  end.

Definition _filter_concat_constraints (self : t) (match_ : Assignment)
    (sentence : Sentence.t) : Res bool :=
  filter_concats (Full.concats (constraint self)) match_ sentence.

(** [v != base_assignment.get(k, v)] for some item of [new_assignment] *)
Definition contradicts (base_assignment new_assignment : Assignment) : bool :=
  existsb (fun kv => negb (bool_decide (kv.2 = default kv.2 (base_assignment !! kv.1))))
          (map_to_list new_assignment).

(** [{**base_assignment, **new_assignment}]: the new bindings win. *)
Definition _try_merge (base_assignment new_assignment : Assignment)
    : Assignment :=
  if contradicts base_assignment new_assignment then ∅
  else new_assignment ∪ base_assignment.

(** The state of the first loop of [_filter_edge_constraints]: the list
    [edge_assignments] and [self.captured_labels]. *)
Abbreviation EdgeState :=
  (list (list Assignment) * odict CaptureKey (gset string))%type.

(** [for parent in matches[edge.parent]: ...] for one [child]. A failing
    [get_matched_labels] is swallowed by the bare [except] and the pair
    skipped. Entry [i] of [edge_assignments] is there once
    [edge_assignments[i] = []] has gone through, so the [append] is an
    [alter] at [i]. *)
Fixpoint parents_loop (edge : Edge.t) (i : nat) (child : Z)
    (parents : list Z) (sentence : Sentence.t) (st : EdgeState) : EdgeState :=
  match parents with
  | [] => st
  | parent :: rest =>
      match get_matched_labels (iter_label (Edge.label edge))
              (Sentence.get_labels sentence (Some child) (Some parent)) with
      | Raise _ => parents_loop edge i child rest sentence st
      | Ok captured_labels =>
          let assignment : Assignment :=
            <[Edge.parent edge := parent]> {[Edge.child edge := child]} in
          let key := (Edge.child edge, child, Edge.parent edge, parent) in
          let '(old, captured) := od_getdefault ∅ key st.2 in
          let captured := od_set key (old ∪ captured_labels) captured in
          let edge_assignments := alter (fun l => l ++ [assignment]) i st.1 in
          parents_loop edge i child rest sentence (edge_assignments, captured)
      end
  end.

(** [for child in matches[edge.child]: for parent in matches[edge.parent]] *)
Fixpoint children_loop (edge : Edge.t) (i : nat) (children : list Z)
    (matches : gmap string (list Z)) (sentence : Sentence.t) (st : EdgeState)
    : Res (list (list Assignment)) * odict CaptureKey (gset string) :=
  match children with
  | [] => (Ok st.1, st.2)
  | child :: rest =>
      match py_getitem matches (Edge.parent edge) with
      | Raise e => (Raise e, st.2)
      | Ok parents =>
          children_loop edge i rest matches sentence
            (parents_loop edge i child parents sentence st)
      end
  end.

(** [for i, edge in enumerate(self.constraint.edges)], from index [i] on.
    [edge_assignments] is a list, so [edge_assignments[i] = []] needs an
    entry [i] to be there already. *)
Fixpoint edges_loop (i : nat) (edges : list Edge.t)
    (matches : gmap string (list Z)) (sentence : Sentence.t) (st : EdgeState)
    : Res (list (list Assignment)) * odict CaptureKey (gset string) :=
  match edges with
  | [] => (Ok st.1, st.2)
  | edge :: rest =>
      match py_setitem st.1 i [] with
      | Raise e => (Raise e, st.2)
      | Ok edge_assignments =>
          match py_getitem matches (Edge.child edge) with
          | Raise e => (Raise e, st.2)
          | Ok children =>
              match children_loop edge i children matches sentence
                      (edge_assignments, st.2) with
              | (Raise e, captured) => (Raise e, captured)
              | (Ok edge_assignments, captured) =>
                  edges_loop (S i) rest matches sentence
                    (edge_assignments, captured)
              end
          end
      end
  end.

(** [for merged in merges: for assignment in edge_assignments[i]: ...]:
    the assignments appended to [new_merges]. [if just_merged] keeps a
    dictionary that is not empty. *)
Fixpoint merge_with (edge_assignments : list (list Assignment)) (i : nat)
    (merges : list Assignment) : Res (list Assignment) :=
  match merges with
  | [] => Ok []
  | merged :: rest =>
      current ←? py_index edge_assignments (Z.of_nat i);
      more ←? merge_with edge_assignments i rest;
      Ok (filter (fun just_merged : Assignment => just_merged ≠ ∅)
                 (_try_merge merged <$> current) ++ more)
  end.

(** [for i in range(len(self.constraint.edges))], over the indices left. *)
Fixpoint merge_loop (indices : list nat)
    (edge_assignments : list (list Assignment)) (merges : list Assignment)
    : Res (list Assignment) :=
  match indices with
  | [] => Ok merges
  | i :: rest =>
      new_merges ←? merge_with edge_assignments i merges;
      match new_merges with
      | [] => Ok []
      | _ => merge_loop rest edge_assignments new_merges
      end
  end.

(** [_filter_edge_constraints]: the result, and [self] with the labels
    it has captured so far. *)
Definition _filter_edge_constraints (self : t)
    (matches : gmap string (list Z)) (sentence : Sentence.t)
    : Res (list Assignment) * t :=
  let edges := Full.edges (constraint self) in
  match edges_loop 0 edges matches sentence ([], captured_labels self) with
  | (Raise e, captured) =>
      (Raise e, mk (constraint self) captured (dont_capture_names self))
  | (Ok edge_assignments, captured) =>
      (merge_loop (seq 0 (length edges)) edge_assignments [∅],
       mk (constraint self) captured (dont_capture_names self))
  end.

(** [[merged_assignment.pop(name) for name in self.dont_capture_names]] *)
Fixpoint pop_names (names : list string) (merged_assignment : Assignment)
    : Res Assignment :=
  match names with
  | [] => Ok merged_assignment
  | name :: rest =>
      match merged_assignment !! name with
      | None => Raise (KeyError name)
      | Some _ => pop_names rest (delete name merged_assignment)
      end
  end.

(** The dictionary comprehension over [self.captured_labels.items()]. *)
Fixpoint gather_labels (items : odict CaptureKey (gset string))
    (merged_assignment : Assignment) (acc : gmap (Z * Z) (gset string))
    : Res (gmap (Z * Z) (gset string)) :=
  match items with
  | [] => Ok acc
  | ((k1, v1, k2, v2), labels) :: rest =>
      p1 ←? py_getitem merged_assignment k1;
      if negb (p1 =? v1) then gather_labels rest merged_assignment acc
      else
        p2 ←? py_getitem merged_assignment k2;
        if negb (p2 =? v2) then gather_labels rest merged_assignment acc
        else gather_labels rest merged_assignment (<[(v1, v2) := labels]> acc)
  end.

(** The body of the [if] in [apply]: the result that is yielded. *)
Definition build_result (self : t) (merged_assignment : Assignment)
    : Res MatchingResult.t :=
  merged_assignment ←? pop_names (dont_capture_names self) merged_assignment;
  captured ←? gather_labels (captured_labels self) merged_assignment ∅;
  Ok (MatchingResult.mk merged_assignment captured).

(** [for merged_assignment in merges: ...] *)
Fixpoint apply_loop (self : t) (merges : list Assignment)
    (sentence : Sentence.t) : Drain MatchingResult.t :=
  match merges with
  | [] => mkDrain [] None
  | merged_assignment :: rest =>
      match _filter_distance_constraints self merged_assignment sentence with
      | Raise e => mkDrain [] (Some e)
      | Ok false => apply_loop self rest sentence
      | Ok true =>
          match _filter_concat_constraints self merged_assignment sentence with
          | Raise e => mkDrain [] (Some e)
          | Ok false => apply_loop self rest sentence
          | Ok true =>
              match build_result self merged_assignment with
              | Raise e => mkDrain [] (Some e)
              | Ok result => yield result (apply_loop self rest sentence)
              end
          end
      end
  end.

Definition apply (self : t) (matches : gmap string (list Z))
    (sentence : Sentence.t) : Drain MatchingResult.t * t :=
  match _filter_edge_constraints self matches sentence with
  | (Raise e, self') => (mkDrain [] (Some e), self')
  | (Ok merges, self') => (apply_loop self' merges sentence, self')
  end.

End defs.
End GlobalMatcher.

Module TokenMatcher.
Section defs.
Context `{L : Labels}.

(** [self.matcher] together with [self.vocab.strings]: the external
    single-token matcher, giving for a sentence the triples
    [(token_name, start, end)] of its matches. *)
Record t : Type := mk {
  matcher : Sentence.t → list (string * Z * Z);
  incoming_constraints : gmap string (list Label);
  outgoing_constraints : gmap string (list Label);
  required_tokens : gset string
}.

(** [__init__], given the external matcher compiled for [constraints].
    A comprehension [{c.id: ... for c in constraints}] lets a later entry
    overwrite an earlier one of the same name. *)
Definition init (constraints : list Token.t)
    (spacy : Sentence.t → list (string * Z * Z)) : t :=
  {| matcher := spacy;
     incoming_constraints :=
       foldl (fun d c => <[Token.id c := Token.incoming_edges c]> d) ∅ constraints;
     outgoing_constraints :=
       foldl (fun d c => <[Token.id c := Token.outgoing_edges c]> d) ∅ constraints;
     required_tokens :=
       foldl (fun s c => if negb (Token.optional c) then {[Token.id c]} ∪ s else s)
             ∅ constraints |}.

(** The condition of the comprehension in [_post_spacy_matcher], for one
    token; [and] does not evaluate its right side when the left is false. *)
Definition keeps (self : t) (name : string) (sentence : Sentence.t) (token : Z)
    : Res bool :=
  incoming ←? py_getitem (incoming_constraints self) name;
  matched_in ←? get_matched_labels incoming
                  (Sentence.get_labels sentence (Some token) None);
  if bool_decide (0 < size matched_in)%nat then
    outgoing ←? py_getitem (outgoing_constraints self) name;
    matched_out ←? get_matched_labels outgoing
                     (Sentence.get_labels sentence None (Some token));
    Ok (bool_decide (0 < size matched_out)%nat)
  else Ok false.

(** [[token for token in token_indices if ...]] *)
Fixpoint checked_indices (self : t) (name : string) (sentence : Sentence.t)
    (token_indices : list Z) : Res (list Z) :=
  match token_indices with
  | [] => Ok []
  | token :: rest =>
      keep ←? keeps self name sentence token;
      more ←? checked_indices self name sentence rest;
      Ok (if keep : bool then token :: more else more)
  end.

(** The loop of [_post_spacy_matcher] over [matched_tokens.items()]. *)
Fixpoint post_loop (self : t) (items : odict string (list Z))
    (sentence : Sentence.t) (checked_tokens : gmap string (list Z))
    : Res (gmap string (list Z)) :=
  match items with
  | [] => Ok checked_tokens
  | (name, token_indices) :: rest =>
      checked ←? checked_indices self name sentence token_indices;
      post_loop self rest sentence (<[name := checked]> checked_tokens)
  end.

Definition _post_spacy_matcher (self : t) (matched_tokens : odict string (list Z))
    (sentence : Sentence.t) : Res (gmap string (list Z)) :=
  post_loop self matched_tokens sentence ∅.

(** [for match_id, start, end in matches: ...] *)
Fixpoint store_matches (matches : list (string * Z * Z)) (doc : list Z)
    (matched_tokens : odict string (list Z)) : Res (odict string (list Z)) :=
  match matches with
  | [] => Ok matched_tokens
  | (token_name, start, end_) :: rest =>
      if end_ - 1 =? start
      then Raise (ValueError "matched more than single token")
      else
        token ←? py_index doc start;
        let '(ids, matched_tokens) := od_getdefault [] token_name matched_tokens in
        store_matches rest doc (od_set token_name (ids ++ [token]) matched_tokens)
  end.

Definition apply (self : t) (sentence : Sentence.t)
    : Res (gmap string (list Z)) :=
  matched_tokens ←? store_matches (matcher self sentence)
                      (Sentence.doc sentence) [];
  if negb (bool_decide
             (size (required_tokens self ∖ list_to_set (od_keys matched_tokens)) = 0%nat))
  then Raise (ValueError "required token not matched")
  else _post_spacy_matcher self matched_tokens sentence.

End defs.
End TokenMatcher.

Module Matchers.
Record t `{L : Labels} : Type := mk {
  token_matcher : TokenMatcher.t;
  global_matcher : GlobalMatcher.t
}.
Arguments mk {L}.
End Matchers.

Module Match.
Section defs.
Context `{L : Labels}.

Record t : Type := mk {
  matchers : odict string Matchers.t;
  sentence : Sentence.t
}.

Definition names (self : t) : list string := od_keys (matchers self).

(** [matches_for], drained. The [GlobalMatcher] is shared with the
    [Matcher] the [Match] came from, so what it has captured stays in
    [self.matchers]. *)
Definition matches_for (self : t) (name : string)
    : Drain MatchingResult.t * t :=
  match od_get name (matchers self) with
  | None => (mkDrain [] (Some (KeyError name)), self)
  | Some m =>
      match TokenMatcher.apply (Matchers.token_matcher m) (sentence self) with
      | Raise e => (mkDrain [] (Some e), self)
      | Ok matches =>
          let '(results, global_matcher) :=
            GlobalMatcher.apply (Matchers.global_matcher m) matches
              (sentence self) in
          (results,
           mk (od_set name (Matchers.mk (Matchers.token_matcher m) global_matcher)
                 (matchers self))
              (sentence self))
      end
  end.

End defs.
End Match.

Module NamedConstraint.
Record t `{L : Labels} : Type := mk {
  name : string;
  constraint : Full.t
}.
Arguments mk {L}.
End NamedConstraint.

Section preprocess_constraint.
Context `{L : Labels}.

(** [for edge in constraint.edges: ...]: the dictionaries [outs], [ins]. *)
Fixpoint hoist_edges (edges : list Edge.t)
    (outs ins : gmap string (list Label))
    : gmap string (list Label) * gmap string (list Label) :=
  match edges with
  | [] => (outs, ins)
  | edge :: rest =>
      if isinstance_HasNoLabel (Edge.label edge)
      then hoist_edges rest outs ins
      else hoist_edges rest
             (dd_extend outs (Edge.child edge) (iter_label (Edge.label edge)))
             (dd_extend ins (Edge.parent edge) (iter_label (Edge.label edge)))
  end.

(** [for concat in constraint.concats: ...]: the dictionary [words]. Both
    classes pass the first [if]; only a triplet passes the second. *)
Fixpoint hoist_concats (concats : list Concat.t)
    (words : gmap string (list (list string)))
    : Res (gmap string (list (list string))) :=
  match concats with
  | [] => Ok words
  | concat :: rest =>
      let zipped_concat :=
        py_zip_star (split_underscore <$> Concat.tuple_set concat) in
      w0 ←? py_index zipped_concat 0;
      let words := dd_extend words (Concat.token1 concat) [w0] in
      w1 ←? py_index zipped_concat 1;
      let words := dd_extend words (Concat.token2 concat) [w1] in
      match concat with
      | Concat.TokenTriplet _ _ _ token3 =>
          w2 ←? py_index zipped_concat 2;
          hoist_concats rest (dd_extend words token3 [w2])
      | Concat.TokenPair _ _ _ => hoist_concats rest words
      end
  end.

(** The body of [for token in constraint.tokens]. *)
Definition rebuild_token (outs ins : gmap string (list Label))
    (words : gmap string (list (list string))) (token : Token.t)
    : Res Token.t :=
  extra_in ←? py_get_kw_default ins (Token.id token) [];
  let incoming_edges := Token.incoming_edges token ++ extra_in in
  extra_out ←? py_get_kw_default outs (Token.id token) [];
  let outgoing_edges := Token.outgoing_edges token ++ extra_out in
  let word_fields :=
    (fun s => Field.mk (Field.field s)
                (Field.value s ++ (FTuple <$> py_get words (Token.id token) [])))
    <$> filter (fun s => Field.field s = WORD) (Token.spec token) in
  let word_fields :=
    if bool_decide (length word_fields = 0%nat)
       && bool_decide (is_Some (words !! Token.id token))
    then [Field.mk WORD (FTuple <$> py_get words (Token.id token) [])]
    else word_fields in
  let spec :=
    filter (fun s => Field.field s ≠ WORD) (Token.spec token) ++ word_fields in
  Ok (Token.mk (Token.id token) (Token.capture token) spec
        (Token.optional token) incoming_edges outgoing_edges).

Fixpoint rebuild_tokens (outs ins : gmap string (list Label))
    (words : gmap string (list (list string))) (tokens : list Token.t)
    : Res (list Token.t) :=
  match tokens with
  | [] => Ok []
  | token :: rest =>
      token' ←? rebuild_token outs ins words token;
      rest' ←? rebuild_tokens outs ins words rest;
      Ok (token' :: rest')
  end.

Definition preprocess_constraint (constraint : Full.t) : Res Full.t :=
  let '(outs, ins) := hoist_edges (Full.edges constraint) ∅ ∅ in
  words ←? hoist_concats (Full.concats constraint) ∅;
  tokens ←? rebuild_tokens outs ins words (Full.tokens constraint);
  Ok (Full.mk tokens (Full.edges constraint) (Full.distances constraint)
        (Full.concats constraint)).

End preprocess_constraint.

Module Matcher.
Section defs.
Context `{L : Labels}.

Record t : Type := mk {
  matchers : odict string Matchers.t
}.

(** [__init__]; [spacy] gives the external single-token matcher compiled
    for a list of token constraints. *)
Fixpoint init_loop (constraints : list NamedConstraint.t)
    (spacy : list Token.t → Sentence.t → list (string * Z * Z))
    (matchers : odict string Matchers.t) : Res (odict string Matchers.t) :=
  match constraints with
  | [] => Ok matchers
  | constraint :: rest =>
      preprocessed_constraint ←?
        preprocess_constraint (NamedConstraint.constraint constraint);
      init_loop rest spacy
        (od_set (NamedConstraint.name constraint)
           (Matchers.mk
              (TokenMatcher.init (Full.tokens preprocessed_constraint)
                 (spacy (Full.tokens preprocessed_constraint)))
              (GlobalMatcher.init preprocessed_constraint))
           matchers)
  end.

Definition init (constraints : list NamedConstraint.t)
    (spacy : list Token.t → Sentence.t → list (string * Z * Z)) : Res t :=
  matchers ←? init_loop constraints spacy [];
  Ok (mk matchers).

(** [__call__] *)
Definition call (self : t) (sentence : Sentence.t) : Match.t :=
  Match.mk (matchers self) sentence.

End defs.
End Matcher.

(** * A reading of the label constraints *)

(** Modelled from the spec: the two label predicates of [constraints.py],
    "has one of these labels" and "has none of these labels". A constraint
    that is not satisfied raises (the source wraps the call in [try] and
    skips the pair on [except]); a satisfied one returns the labels it
    matched, which for a has-none constraint are none. An [Edge.label] is
    one such predicate, iterated as itself. *)
Inductive SpecLabel : Type :=
| HasLabelFromList (value : list string)
| HasNoLabel (value : list string).

Definition spec_satisfied (constraint : SpecLabel) (actual_labels : list string)
    : Res (gset string) :=
  match constraint with
  | HasLabelFromList value =>
      match filter (fun v => v ∈ actual_labels) value with
      | [] => Raise (ValueError "label constraint not satisfied")
      | hits => Ok (list_to_set hits)
      end
  | HasNoLabel value =>
      match filter (fun v => v ∈ actual_labels) value with
      | [] => Ok ∅
      | _ => Raise (ValueError "label constraint not satisfied")
      end
  end.

Definition spec_is_HasNoLabel (label : SpecLabel) : bool :=
  match label with
  | HasNoLabel _ => true
  | HasLabelFromList _ => false
  end.

#[export] Instance SpecLabels : Labels := {|
  Label := SpecLabel;
  EdgeLabel := SpecLabel;
  satisfied := spec_satisfied;
  isinstance_HasNoLabel := spec_is_HasNoLabel;
  iter_label := fun label => [label]
|}.

(** * Concrete patterns and sentences *)

Module Examples.

(** Three nodes with ids 10, 11, 12; node 10 is attached to node 12 by
    [nsubj], node 11 to node 12 by [obj]; [index] gives the linear position
    of a node id. *)
Definition labels_between (child parent : option Z) : list string :=
  match child, parent with
  | Some 10, Some 12 => ["nsubj"]
  | Some 11, Some 12 => ["obj"]
  | Some 10, None => ["nsubj"]
  | Some 11, None => ["obj"]
  | None, Some 12 => ["nsubj"; "obj"]
  | _, _ => []
  end%string.

Definition sentence : Sentence.t :=
  {| Sentence.doc := [10; 11; 12];
     Sentence.get_labels := labels_between;
     Sentence.index := fun position => position - 10;
     Sentence.get_text := fun position =>
       if position =? 10 then "New"%string
       else if position =? 11 then "York"%string else "is"%string |}.

(** A required, captured variable without constraints of its own. *)
Definition plain (name : string) : Token.t :=
  Token.mk name true [] false [] [].

(** One required variable [v], nothing else. *)
Definition one_token : Full.t := Full.mk [plain "v"] [] [] [].

(** The external matcher found nothing in the sentence. *)
Definition no_match (s : Sentence.t) : list (string * Z * Z) := [].

(** The external matcher found [v] at the single node 0: the span [0, 1). *)
Definition match_at_0 (s : Sentence.t) : list (string * Z * Z) :=
  [("v"%string, 0, 1)].

(** The external matcher reports the two-node span [0, 2) for [v]. *)
Definition wide_match (s : Sentence.t) : list (string * Z * Z) :=
  [("v"%string, 0, 2)].

Definition facade (constraint : Full.t)
    (spacy : Sentence.t → list (string * Z * Z)) : Match.t :=
  Match.mk
    [("rule"%string,
      Matchers.mk (TokenMatcher.init (Full.tokens constraint) spacy)
                  (GlobalMatcher.init constraint))]
    sentence.

(** Scenario B of the spec: child [c], parent [p], label among [nsubj]. *)
Definition nsubj_edge : Edge.t := Edge.mk "c" "p" (HasLabelFromList ["nsubj"%string]).

Definition one_edge : Full.t :=
  Full.mk [plain "c"; plain "p"] [nsubj_edge] [] [].

Definition one_edge_candidates : gmap string (list Z) :=
  {[ "c"%string := [10; 11]; "p"%string := [12] ]}.

(** A second edge no pair of the sentence satisfies. *)
Definition amod_edge : Edge.t := Edge.mk "p" "c" (HasLabelFromList ["amod"%string]).

Definition two_edges : Full.t :=
  Full.mk [plain "c"; plain "p"] [nsubj_edge; amod_edge] [] [].

(** [a] immediately before [b]. *)
Definition adjacent : Full.t :=
  Full.mk [plain "a"; plain "b"] [] [Distance.ExactDistance "a" "b" 0] [].

Definition within_two : Full.t :=
  Full.mk [plain "a"; plain "b"] [] [Distance.UptoDistance "a" "b" 2] [].

Definition a10_b11 : Assignment := {[ "a"%string := 10; "b"%string := 11 ]}.

(** An optional scaffolding variable that is not to be captured. *)
Definition scaffold : Token.t := Token.mk "x" false [] true [] [].

Definition only_scaffold : Full.t := Full.mk [scaffold] [] [] [].

End Examples.

(** * conllu_wrapper.py: sentences and text

    A character of a [string] stands for a code point below 256; text with
    other code points is outside this embedding. The text of an exception is
    kept short. *)

Module ConlluFile.

(** [str(v)] for the value of a column. An int of more than 4300 digits
    is refused (the default [sys.get_int_max_str_digits()] of CPython). *)
Definition py_str (v : Conllu.PyVal) : Res string :=
  match v with
  | Conllu.PyNone => Ok "None"%string
  | Conllu.PyStr s => Ok s
  | Conllu.PyInt n =>
      if (4300 <? String.length (pretty (Z.abs n)))%nat
      then Raise (ValueError "Exceeds the limit (4300 digits) for integer string conversion")
      else Ok (pretty n)
  end.

(** What a [KeyError] shows of a key. *)
Definition key_text (v : Conllu.PyVal) : string :=
  match v with
  | Conllu.PyNone => "None"
  | Conllu.PyStr s => s
  | Conllu.PyInt n => pretty n
  end.

(** [currents_head != 0] *)
Definition differs_from_zero (v : Conllu.PyVal) : bool :=
  match v with
  | Conllu.PyInt n => negb (n =? 0)
  | _ => true
  end.

(** [sentence[key]] for a column value: the keys of a sentence are ints,
    which no string and no [None] equals. *)
Definition sentence_getitem (sentence : odict Z Conllu.Node)
    (key : Conllu.PyVal) : Res (Z * Conllu.Node) :=
  match key with
  | Conllu.PyInt h =>
      match od_get h sentence with
      | Some node => Ok (h, node)
      | None => Raise (KeyError (key_text key))
      end
  | _ => Raise (KeyError (key_text key))
  end.

(** [node['head_pointer'] = sentence[h]] *)
Definition with_head_pointer (node : Conllu.Node) (h : Z) : Conllu.Node :=
  Conllu.mkNode (Conllu.conllu_info node) (Some h)
    (Conllu.children_list node) (Conllu.new_deps node).

(** [node['children_list'].append(sentence[cur_id])] *)
Definition with_child (node : Conllu.Node) (cur_id : Z) : Conllu.Node :=
  Conllu.mkNode (Conllu.conllu_info node) (Conllu.head_pointer node)
    (Conllu.children_list node ++ [cur_id]) (Conllu.new_deps node).

(** The loop of [exchange_pointers] over the ids of [sentence.items()].
    The sentence is changed in place: what was changed before an exception
    stays changed. *)
Fixpoint exchange_loop (ids : list Z) (sentence : odict Z Conllu.Node)
    : option Exc * odict Z Conllu.Node :=
  match ids with
  | [] => (None, sentence)
  | cur_id :: rest =>
      match od_get cur_id sentence with
      | None => (Some (KeyError (pretty cur_id)), sentence)
      | Some token =>
          let currents_head := Conllu.head (Conllu.conllu_info token) in
          if differs_from_zero currents_head then
            match sentence_getitem sentence currents_head with
            | Raise e => (Some e, sentence)
            | Ok (h, _) =>
                let sentence :=
                  od_set cur_id (with_head_pointer token h) sentence in
                match od_get h sentence with
                | None => (Some (KeyError (pretty h)), sentence)
                | Some head_node =>
                    exchange_loop rest
                      (od_set h (with_child head_node cur_id) sentence)
                end
            end
          else exchange_loop rest sentence
      end
  end.

Definition exchange_pointers (sentence : odict Z Conllu.Node)
    : option Exc * odict Z Conllu.Node :=
  exchange_loop (od_keys sentence) sentence.

(** [c.isspace()] for a code point below 256. *)
Definition py_isspace (c : ascii) : bool :=
  let n := nat_of_ascii c in
  ((9 <=? n) && (n <=? 13) || (28 <=? n) && (n <=? 32)
   || (n =? 133) || (n =? 160))%nat.

(** The white space [int()] strips: that of C [isspace], and the code
    points 133 and 160. *)
Definition int_isspace (c : ascii) : bool :=
  let n := nat_of_ascii c in
  ((9 <=? n) && (n <=? 13) || (n =? 32) || (n =? 133) || (n =? 160))%nat.

Fixpoint lstrip (space : ascii → bool) (s : string) : string :=
  match s with
  | EmptyString => EmptyString
  | String c s' => if space c then lstrip space s' else s
  end.

Fixpoint rstrip (space : ascii → bool) (s : string) : string :=
  match s with
  | EmptyString => EmptyString
  | String c s' =>
      match rstrip space s' with
      | EmptyString => if space c then EmptyString else String c EmptyString
      | r => String c r
      end
  end.

(** [s.strip()] *)
Definition py_strip (s : string) : string :=
  rstrip py_isspace (lstrip py_isspace s).

(** A character put in front of the first string of a list. *)
Definition cons_first (c : ascii) (l : list string) : list string :=
  match l with
  | [] => [String c EmptyString]
  | w :: ws => String c w :: ws
  end.

(** [s.split()]: the maximal runs of characters that are not white space. *)
Fixpoint py_split (s : string) : list string :=
  match s with
  | EmptyString => []
  | String c s' =>
      if py_isspace c then py_split s'
      else match s' with
           | EmptyString => [String c EmptyString]
           | String c' _ =>
               if py_isspace c' then String c EmptyString :: py_split s'
               else cons_first c (py_split s')
           end
  end.

Definition newline : ascii := ascii_of_nat 10.

(** [s.split('\n')] *)
Fixpoint split_lines (s : string) : list string :=
  match s with
  | EmptyString => [EmptyString]
  | String c s' =>
      if Ascii.eqb c newline then EmptyString :: split_lines s'
      else cons_first c (split_lines s')
  end.

(** [s.split('\n\n')]: the separators are found from the left and do not
    overlap. *)
Fixpoint split_blank_lines (s : string) : list string :=
  match s with
  | EmptyString => [EmptyString]
  | String c s' =>
      match s' with
      | String c' s'' =>
          if Ascii.eqb c newline && Ascii.eqb c' newline
          then EmptyString :: split_blank_lines s''
          else cons_first c (split_blank_lines s')
      | EmptyString => cons_first c (split_blank_lines s')
      end
  end.

(** [c in s] for a character [c] *)
Fixpoint contains (c : ascii) (s : string) : bool :=
  match s with
  | EmptyString => false
  | String c' s' => Ascii.eqb c c' || contains c s'
  end.

(** [s.startswith('#')] *)
Definition starts_with_hash (s : string) : bool :=
  match s with
  | String c _ => Ascii.eqb c "#"%char
  | EmptyString => false
  end.

Definition digit_of (c : ascii) : option Z :=
  let n := nat_of_ascii c in
  if ((48 <=? n) && (n <=? 57))%nat then Some (Z.of_nat n - 48) else None.

(** The digits of an int literal, single underscores allowed between them:
    the value and the number of digits read. *)
Fixpoint int_digits (s : string) (acc : Z) (count : nat) (after_digit : bool)
    : option (Z * nat) :=
  match s with
  | EmptyString => if after_digit then Some (acc, count) else None
  | String c s' =>
      if Ascii.eqb c "_"%char then
        if after_digit then int_digits s' acc count false else None
      else match digit_of c with
           | Some d => int_digits s' (10 * acc + d) (S count) true
           | None => None
           end
  end.

(** [int(s)] for a string: white space around, a sign, decimal digits. More
    than 4300 digits are refused (the default limit of CPython). *)
Definition py_int (s : string) : Res Z :=
  let t := rstrip int_isspace (lstrip int_isspace s) in
  let '(sign, body) :=
    match t with
    | String c r =>
        if Ascii.eqb c "+"%char then (1, r)
        else if Ascii.eqb c "-"%char then (-1, r)
        else (1, t)
    | EmptyString => (1, t)
    end in
  match int_digits body 0 0 false with
  | None => Raise (ValueError "invalid literal for int() with base 10")
  | Some (n, count) =>
      if (4300 <? count)%nat
      then Raise (ValueError "Exceeds the limit (4300 digits) for integer string conversion")
      else Ok (sign * n)
  end.

(** The body of the loop over the lines of a sentence, for a line that is
    not a comment. *)
Definition parse_token (line : string) (sentence : odict Z Conllu.Node)
    : Res (odict Z Conllu.Node) :=
  match take 10 (py_split line) with
  | [new_id; form; lemma; upos; xpos; feats; head; deprel; deps; misc] =>
      if contains "-"%char new_id
      then Raise (ValueError "text must be a basic CoNLL-U format, received a CoNLL-X format.")
      else if negb (String.eqb deps "_") || contains "."%char new_id
      then Raise (ValueError "text must be a basic CoNLL-U, received an enhanced one.")
      else
        let xpos := if String.eqb xpos "_" then upos else xpos in
        id_number ←? py_int new_id;
        head_number ←? py_int head;
        Ok (od_set id_number
              (Conllu.mkNode
                 (Conllu.mkConlluInfo (Conllu.PyInt id_number)
                    (Conllu.PyStr form) (Conllu.PyStr lemma)
                    (Conllu.PyStr upos) (Conllu.PyStr xpos)
                    (Conllu.PyStr feats) (Conllu.PyInt head_number)
                    (Conllu.PyStr deprel) (Conllu.PyStr deps)
                    (Conllu.PyStr misc))
                 None [] (false, [(head_number, deprel)]))
              sentence)
  | parts =>
      Raise (ValueError ("not enough values to unpack (expected 10, got "
                         +:+ pretty (length parts) +:+ ")"))
  end.

(** [for line in lines: ...]: the comments and the sentence so far. *)
Fixpoint parse_lines (lines : list string) (comments : list string)
    (sentence : odict Z Conllu.Node)
    : Res (list string * odict Z Conllu.Node) :=
  match lines with
  | [] => Ok (comments, sentence)
  | line :: rest =>
      if starts_with_hash line
      then parse_lines rest (comments ++ [line]) sentence
      else
        sentence ←? parse_token line sentence;
        parse_lines rest comments sentence
  end.

(** The body of the loop over the sentences of the text; [None] stands
    for [continue]. *)
Definition parse_sentence (sent : string)
    : Res (option (odict Z Conllu.Node * list string)) :=
  let lines := split_lines (py_strip sent) in
  match lines with
  | [] => Ok None
  | _ =>
      parsed ←? parse_lines lines [] [];
      match exchange_pointers parsed.2 with
      | (Some e, _) => Raise e
      | (None, sentence) => Ok (Some (sentence, parsed.1))
      end
  end.

Fixpoint parse_sentences (sents : list string)
    (sentences : list (odict Z Conllu.Node)) (all_comments : list (list string))
    : Res (list (odict Z Conllu.Node) * list (list string)) :=
  match sents with
  | [] => Ok (sentences, all_comments)
  | sent :: rest =>
      parsed ←? parse_sentence sent;
      match parsed with
      | None => parse_sentences rest sentences all_comments
      | Some (sentence, comments) =>
          parse_sentences rest (sentences ++ [sentence])
            (all_comments ++ [comments])
      end
  end.

Definition parse_conllu (text : string)
    : Res (list (odict Z Conllu.Node) * list (list string)) :=
  parse_sentences (split_blank_lines (py_strip text)) [] [].

(** The module [configuration] is not among the sources; the two settings
    [serialize_conllu] reads of it are taken as they are given. *)
Record Conf : Type := mkConf {
  preserve_comments : bool;
  output_unchanged_deps : bool
}.

Definition tab : ascii := ascii_of_nat 9.

(** [sep.join(l)] *)
Fixpoint py_join (sep : string) (l : list string) : string :=
  match l with
  | [] => EmptyString
  | [w] => w
  | w :: ws => w +:+ sep +:+ py_join sep ws
  end.

(** [sorted(l)] for strings: ascending by code points. *)
Fixpoint insert_sorted (w : string) (l : list string) : list string :=
  match l with
  | [] => [w]
  | x :: xs => if String.leb w x then w :: l else x :: insert_sorted w xs
  end.

Definition py_sorted (l : list string) : list string :=
  foldr insert_sorted [] l.

(** [[(str(a) + ":" + b) for (a, b) in token['new_deps'][1].items()]] *)
Fixpoint dep_texts (deps : list (Z * string)) : Res (list string) :=
  match deps with
  | [] => Ok []
  | (a, b) :: rest =>
      head_text ←? py_str (Conllu.PyInt a);
      more ←? dep_texts rest;
      Ok ((head_text +:+ ":" +:+ b) :: more)
  end.

(** What one field of a token adds to the text. *)
Definition field_text (deps_from_new_deps : bool) (token : Conllu.Node)
    (field_name : Conllu.Column) : Res string :=
  let field := Conllu.column field_name (Conllu.conllu_info token) in
  match field_name with
  | Conllu.c_deps =>
      if deps_from_new_deps then
        texts ←? dep_texts (Conllu.new_deps token).2;
        Ok (py_join "|" (py_sorted texts) +:+ String tab EmptyString)
      else
        text ←? py_str field;
        Ok (text +:+ String tab EmptyString)
  | Conllu.c_misc =>
      text ←? py_str field;
      Ok (text +:+ String newline EmptyString)
  | _ =>
      text ←? py_str field;
      Ok (text +:+ String tab EmptyString)
  end.

(** The fields in the order of [ConlluInfo._fields]. *)
Definition fields : list Conllu.Column :=
  [Conllu.c_id; Conllu.c_form; Conllu.c_lemma; Conllu.c_upos; Conllu.c_xpos;
   Conllu.c_feats; Conllu.c_head; Conllu.c_deprel; Conllu.c_deps;
   Conllu.c_misc].

Fixpoint fields_text (deps_from_new_deps : bool) (token : Conllu.Node)
    (names : list Conllu.Column) (text : string) : Res string :=
  match names with
  | [] => Ok text
  | name :: rest =>
      added ←? field_text deps_from_new_deps token name;
      fields_text deps_from_new_deps token rest (text +:+ added)
  end.

(** [for (cur_id, token) in sentence.items(): ...] *)
Fixpoint tokens_text (deps_from_new_deps : bool)
    (items : odict Z Conllu.Node) (text : string) : Res string :=
  match items with
  | [] => Ok text
  | (_, token) :: rest =>
      text ←? fields_text deps_from_new_deps token fields text;
      tokens_text deps_from_new_deps rest text
  end.

(** [for comment in comments: text += comment + '\n'] *)
Definition comments_text (comments : list string) (text : string) : string :=
  foldl (fun text comment => text +:+ comment +:+ String newline EmptyString)
        text comments.

(** [for (sentence, comments) in zip(converted, all_comments): ...] *)
Fixpoint serialize_loop (conf : Conf)
    (pairs : list (odict Z Conllu.Node * list string)) (text : string)
    : Res string :=
  match pairs with
  | [] => Ok text
  | (sentence, comments) :: rest =>
      let new_deps_changed :=
        existsb (fun item => (Conllu.new_deps item.2).1) sentence in
      let text :=
        if preserve_comments conf then comments_text comments text else text in
      text ←? tokens_text (output_unchanged_deps conf || new_deps_changed)
                sentence text;
      serialize_loop conf rest (text +:+ String newline EmptyString)
  end.

Definition serialize_conllu (conf : Conf)
    (converted : list (odict Z Conllu.Node))
    (all_comments : list (list string)) : Res string :=
  serialize_loop conf (zip converted all_comments) EmptyString.

End ConlluFile.

(** * Notions the statements use *)

(** The argument [replace_conllu_info] receives for a column. *)
Definition argument_for (c : Conllu.Column)
    (new_id form lemma upos xpos feats head deprel deps misc : Conllu.PyVal)
    : Conllu.PyVal :=
  match c with
  | Conllu.c_id => new_id | Conllu.c_form => form | Conllu.c_lemma => lemma
  | Conllu.c_upos => upos | Conllu.c_xpos => xpos | Conllu.c_feats => feats
  | Conllu.c_head => head | Conllu.c_deprel => deprel | Conllu.c_deps => deps
  | Conllu.c_misc => misc
  end.

(** The join of the spec, in its words: "maintain a running list of partial
    assignments (initially one empty assignment); for each edge constraint's
    relation, for every running assignment and every candidate pair, merge
    if and only if every variable shared between the two has an identical
    bound position (conflict: discard)". [map_agree] is that condition. *)
Definition join_step (running relation : list Assignment) : list Assignment :=
  flat_map (fun merged : Assignment =>
    flat_map (fun assignment : Assignment =>
      if decide (map_agree merged assignment) then [assignment ∪ merged] else [])
      relation)
    running.

Definition natural_join (relations : list (list Assignment)) : list Assignment :=
  foldl join_step [∅] relations.

(** The matchers of a [Matcher] after a series of [matches_for] calls, each
    on a [Match] for some sentence and for some pattern name, each drained. *)
Fixpoint after_calls `{L : Labels} (matchers : odict string Matchers.t)
    (calls : list (Sentence.t * string)) : odict string Matchers.t :=
  match calls with
  | [] => matchers
  | (sentence, name) :: rest =>
      after_calls
        (Match.matchers (Match.matches_for (Match.mk matchers sentence) name).2)
        rest
  end.

(** The [i]-th words of the phrases of a phrase constraint, in the order of
    [tuple_set]: [[t.split("_")[i] for t in concat.tuple_set]]. *)
Definition phrase_column (i : nat) (concat : Concat.t) : list string :=
  omap (fun t => split_underscore t !! i) (Concat.tuple_set concat).

(** The columns a phrase constraint contributes to the variable [x]: column
    0 if [x] is its first variable, column 1 if its second, column 2 if its
    third. *)
Definition columns_for (x : string) (concat : Concat.t) : list (list string) :=
  (if decide (Concat.token1 concat = x) then [phrase_column 0 concat] else [])
  ++ (if decide (Concat.token2 concat = x) then [phrase_column 1 concat] else [])
  ++ match concat with
     | Concat.TokenTriplet _ _ _ token3 =>
         if decide (token3 = x) then [phrase_column 2 concat] else []
     | Concat.TokenPair _ _ _ => []
     end.

(** The variables a phrase constraint has: two or three. *)
Definition phrase_arity (concat : Concat.t) : nat :=
  match concat with
  | Concat.TokenPair _ _ _ => 2
  | Concat.TokenTriplet _ _ _ _ => 3
  end.

(** The id the head column of token [c] points at: [None] for the root
    (head 0), for a head that is not an int, and for an id the sentence does
    not have. *)
Definition head_target (sentence : odict Z Conllu.Node) (c : Z) : option Z :=
  match od_get c sentence with
  | Some node =>
      match Conllu.head (Conllu.conllu_info node) with
      | Conllu.PyInt h => if h =? 0 then None else Some h
      | _ => None
      end
  | None => None
  end.

(** The head column of token [c] is 0 or the id of a token of the
    sentence. *)
Definition head_resolves (sentence : odict Z Conllu.Node) (c : Z) : Prop :=
  ∃ node, od_get c sentence = Some node
          ∧ ∃ h, Conllu.head (Conllu.conllu_info node) = Conllu.PyInt h
                 ∧ (h = 0 ∨ is_Some (od_get h sentence)).

(** A token as [parse_conllu] stores it under the key [id], before the
    pointers are exchanged: the id and head columns are ints, the other
    columns strings, the deps column is [_], and [new_deps] holds the one
    pair of head and deprel, marked unchanged. *)
Definition parsed_token (id : Z) (node : Conllu.Node) : Prop :=
  ∃ form lemma upos xpos feats h deprel misc,
    Conllu.conllu_info node
    = Conllu.mkConlluInfo (Conllu.PyInt id) (Conllu.PyStr form)
        (Conllu.PyStr lemma) (Conllu.PyStr upos) (Conllu.PyStr xpos)
        (Conllu.PyStr feats) (Conllu.PyInt h) (Conllu.PyStr deprel)
        (Conllu.PyStr "_") (Conllu.PyStr misc)
    ∧ Conllu.new_deps node = (false, [(h, deprel)])
    ∧ (xpos = "_"%string → upos = "_"%string).

(** A sentence as [parse_conllu] returns it: every token is as parsed, its
    head column is 0 or the id of a token of the sentence, its
    [head_pointer] is the token its head column names (none for the root),
    and its [children_list] holds the tokens whose head it is, in the order
    of the sentence. *)
Definition linked_sentence (sentence : odict Z Conllu.Node) : Prop :=
  ∀ id node,
    od_get id sentence = Some node →
    parsed_token id node
    ∧ head_resolves sentence id
    ∧ Conllu.head_pointer node = head_target sentence id
    ∧ Conllu.children_list node
      = filter (fun c => head_target sentence c = Some id) (od_keys sentence).

(** A sentence whose tokens are as parsed and not linked yet: no pointer,
    no children. *)
Definition unlinked (sentence : odict Z Conllu.Node) : Prop :=
  ∀ id node,
    od_get id sentence = Some node →
    parsed_token id node
    ∧ Conllu.head_pointer node = None
    ∧ Conllu.children_list node = [].

(** ** Text as [serialize_conllu] writes it *)

Fixpoint all_chars (P : ascii → bool) (s : string) : bool :=
  match s with
  | EmptyString => true
  | String c r => P c && all_chars P r
  end.

Definition not_space (c : ascii) : bool := negb (ConlluFile.py_isspace c).

Definition not_newline (c : ascii) : bool :=
  negb (Ascii.eqb c ConlluFile.newline).

Definition is_digit (c : ascii) : bool :=
  match ConlluFile.digit_of c with
  | Some _ => true
  | None => false
  end.

(** A column: not empty and free of white space. *)
Definition is_word (w : string) : Prop :=
  w ≠ EmptyString ∧ all_chars not_space w = true.

(** A line: not empty and free of newlines. *)
Definition is_line (l : string) : Prop :=
  l ≠ EmptyString ∧ all_chars not_newline l = true.

Definition first_char (s : string) : option ascii :=
  match s with
  | EmptyString => None
  | String c _ => Some c
  end.

Fixpoint last_char (s : string) : option ascii :=
  match s with
  | EmptyString => None
  | String c r =>
      match r with
      | EmptyString => Some c
      | String _ _ => last_char r
      end
  end.

Definition starts_clean (s : string) : Prop :=
  ∃ c, first_char s = Some c ∧ not_space c = true.

Definition ends_clean (s : string) : Prop :=
  ∃ c, last_char s = Some c ∧ not_space c = true.

(** A string that is not empty and that [strip()] leaves as it is. *)
Definition trimmed (s : string) : Prop := starts_clean s ∧ ends_clean s.

Definition nl : string := String ConlluFile.newline EmptyString.

Definition tb : string := String ConlluFile.tab EmptyString.

(** A string put in front of the first string of a list. *)
Definition cons_str (l : string) (rest : list string) : list string :=
  match rest with
  | [] => [l]
  | w :: ws => (l +:+ w) :: ws
  end.

(** Lines, each followed by a newline. *)
Definition lines_text (lines : list string) : string :=
  foldr (fun l t => l +:+ nl +:+ t) EmptyString lines.

(** Blocks of lines, each block followed by an empty line. *)
Definition blocks_text (blocks : list (list string)) : string :=
  foldr (fun b t => lines_text b +:+ nl +:+ t) EmptyString blocks.

(** A token as the loop of [parse_conllu] stores it under the key [id],
    with what the line it came from adds: the id is not negative and the
    string columns are words. *)
Definition fresh_token (id : Z) (node : Conllu.Node) : Prop :=
  ∃ form lemma upos xpos feats h deprel misc,
    node
    = Conllu.mkNode
        (Conllu.mkConlluInfo (Conllu.PyInt id) (Conllu.PyStr form)
           (Conllu.PyStr lemma) (Conllu.PyStr upos) (Conllu.PyStr xpos)
           (Conllu.PyStr feats) (Conllu.PyInt h) (Conllu.PyStr deprel)
           (Conllu.PyStr "_") (Conllu.PyStr misc))
        None [] (false, [(h, deprel)])
    ∧ (xpos = "_"%string → upos = "_"%string)
    ∧ 0 ≤ id
    ∧ Forall is_word [form; lemma; upos; xpos; feats; deprel; misc].

Definition fresh_sentence (fresh : odict Z Conllu.Node) : Prop :=
  NoDup (od_keys fresh)
  ∧ Forall (fun item => fresh_token item.1 item.2) fresh.

(** The comments of a sentence as [parse_conllu] returns them: lines that
    start with [#]; where the sentence has no token, the last of them does
    not end in white space. *)
Definition parsed_comments (fresh : odict Z Conllu.Node)
    (comments : list string) : Prop :=
  Forall (fun c => ConlluFile.starts_with_hash c = true
                   ∧ all_chars not_newline c = true) comments
  ∧ (fresh = [] → ∃ c, last comments = Some c ∧ ends_clean c).

(** A sentence and its comments as [parse_conllu] returns them: the
    sentence is what [exchange_pointers] made of the tokens of the lines. *)
Definition parsed_block (sentence : odict Z Conllu.Node)
    (comments : list string) : Prop :=
  ∃ fresh,
    ConlluFile.exchange_pointers fresh = (None, sentence)
    ∧ fresh_sentence fresh
    ∧ parsed_comments fresh comments.

(** Sentences that [serialize_conllu] writes alike when the deps column is
    written as it is: the same ids in the same order, with the same
    columns. *)
Definition same_text (a b : odict Z Conllu.Node) : Prop :=
  Forall2 (fun x y => x.1 = y.1
                      ∧ Conllu.conllu_info x.2 = Conllu.conllu_info y.2
                      ∧ Conllu.new_deps x.2 = Conllu.new_deps y.2) a b.

(** A line that [parse_conllu] reads as the token [node] with the id
    [id]. *)
Definition row_of (id : Z) (node : Conllu.Node) (row : string) : Prop :=
  is_line row ∧ trimmed row
  ∧ ConlluFile.starts_with_hash row = false
  ∧ ∀ sentence,
      ConlluFile.parse_token row sentence = Ok (od_set id node sentence).

(** What [serialize_conllu] writes for a token, newline included, when the
    deps column is written as it is. *)
Definition token_line (node : Conllu.Node) : Res string :=
  ConlluFile.fields_text false node ConlluFile.fields EmptyString.

(** Lines that, put together again, [parse_conllu] reads as the sentence
    [sentence] with the comments [comments]. *)
Definition block_of (sentence : odict Z Conllu.Node)
    (comments lines : list string) : Prop :=
  lines ≠ [] ∧ Forall is_line lines
  ∧ trimmed (ConlluFile.py_join nl lines)
  ∧ ConlluFile.parse_sentence (ConlluFile.py_join nl lines)
    = Ok (Some (sentence, comments)).

(** * Facts about the embedding *)

Section odict_facts.
Context {K V : Type} `{EqDecision K}.

Lemma od_set_same (k : K) (v : V) (d : odict K V) :
  od_get k d = Some v → od_set k v d = d.
Proof.
  induction d as [|[k' v'] d IH]; simpl; [done|].
  destruct (decide (k = k')) as [->|Hne].
  - by intros [= ->].
  - intros Hget. by rewrite IH.
Qed.

Lemma od_get_keys (k : K) (d : odict K V) :
  od_get k d = None ↔ k ∉ od_keys d.
Proof.
  unfold od_keys. induction d as [|[k' v'] d IH]; simpl.
  - split; [intros _; apply not_elem_of_nil | done].
  - rewrite not_elem_of_cons. destruct (decide (k = k')) as [->|Hne].
    + split; [done | by intros [? _]].
    + rewrite IH. split; [by intros ? | by intros [_ ?]].
Qed.

End odict_facts.

(** ** conllu_wrapper.py *)

Lemma keep_unless_falsy (old arg : Conllu.PyVal) :
  Conllu.truthy arg = false → Conllu.keep_unless old arg = old.
Proof. unfold Conllu.keep_unless. by intros ->. Qed.

Lemma keep_unless_truthy (old arg : Conllu.PyVal) :
  Conllu.truthy arg = true → Conllu.keep_unless old arg = arg.
Proof. unfold Conllu.keep_unless. by intros ->. Qed.

Lemma replace_conllu_info_column (node : Conllu.Node)
    (new_id form lemma upos xpos feats head deprel deps misc : Conllu.PyVal)
    (c : Conllu.Column) :
  Conllu.column c
    (Conllu.conllu_info
       (Conllu.replace_conllu_info node new_id form lemma upos xpos feats head
          deprel deps misc))
  = Conllu.keep_unless (Conllu.column c (Conllu.conllu_info node))
      (argument_for c new_id form lemma upos xpos feats head deprel deps misc).
Proof. by destruct c. Qed.

(** C10: after [replace_conllu_info], a column whose argument is not supplied
    ([None]) or is any other falsy value keeps its previous value, a column
    whose argument is truthy takes the argument, and so a column that
    changed holds a truthy value; in particular [head=0] leaves [head] as it
    was. The other keys of the node are not touched. *)
Theorem replace_conllu_info_keeps_unsupplied (node : Conllu.Node)
    (new_id form lemma upos xpos feats head deprel deps misc : Conllu.PyVal)
    (c : Conllu.Column) :
  let node' :=
    Conllu.replace_conllu_info node new_id form lemma upos xpos feats head
      deprel deps misc in
  let arg := argument_for c new_id form lemma upos xpos feats head deprel deps misc in
  let old := Conllu.column c (Conllu.conllu_info node) in
  let new := Conllu.column c (Conllu.conllu_info node') in
  (arg = Conllu.PyNone → new = old)
  ∧ (Conllu.truthy arg = false → new = old)
  ∧ (Conllu.truthy arg = true → new = arg)
  ∧ (new ≠ old → Conllu.truthy new = true)
  ∧ Conllu.column Conllu.c_head
      (Conllu.conllu_info
         (Conllu.replace_conllu_info node new_id form lemma upos xpos feats
            (Conllu.PyInt 0) deprel deps misc))
    = Conllu.column Conllu.c_head (Conllu.conllu_info node)
  ∧ Conllu.head_pointer node' = Conllu.head_pointer node
  ∧ Conllu.children_list node' = Conllu.children_list node
  ∧ Conllu.new_deps node' = Conllu.new_deps node.
Proof.
  intros node' arg old new.
  assert (Hnew : new = Conllu.keep_unless old arg)
    by apply replace_conllu_info_column.
  repeat split; try done.
  - intros Harg. rewrite Hnew, Harg. done.
  - intros Hf. rewrite Hnew. by apply keep_unless_falsy.
  - intros Ht. rewrite Hnew. by apply keep_unless_truthy.
  - intros Hne. destruct (Conllu.truthy arg) eqn:Ht.
    + rewrite Hnew, keep_unless_truthy; done.
    + exfalso. apply Hne. rewrite Hnew. by apply keep_unless_falsy.
Qed.

(** ** The first loop of [_filter_edge_constraints] *)

Section edge_phase.
Context `{L : Labels}.

(** [edge_assignments] starts as the empty list and index 0 is assigned
    first: with an edge to look at, the loop stops there, before anything
    is captured. *)
Lemma edges_loop_first_edge (edge : Edge.t) (rest : list Edge.t)
    (matches : gmap string (list Z)) (sentence : Sentence.t)
    (captured : odict CaptureKey (gset string)) :
  GlobalMatcher.edges_loop 0 (edge :: rest) matches sentence ([], captured)
  = (Raise (IndexError "list assignment index out of range"), captured).
Proof. reflexivity. Qed.

Lemma filter_edge_constraints_with_edges (self : GlobalMatcher.t)
    (matches : gmap string (list Z)) (sentence : Sentence.t) :
  Full.edges (GlobalMatcher.constraint self) ≠ [] →
  GlobalMatcher._filter_edge_constraints self matches sentence
  = (Raise (IndexError "list assignment index out of range"), self).
Proof.
  intros Hedges. unfold GlobalMatcher._filter_edge_constraints.
  destruct (Full.edges (GlobalMatcher.constraint self)) as [|edge rest];
    [done|].
  rewrite edges_loop_first_edge. by destruct self.
Qed.

Lemma filter_edge_constraints_without_edges (self : GlobalMatcher.t)
    (matches : gmap string (list Z)) (sentence : Sentence.t) :
  Full.edges (GlobalMatcher.constraint self) = [] →
  GlobalMatcher._filter_edge_constraints self matches sentence
  = (Ok [∅], self).
Proof.
  intros Hedges. unfold GlobalMatcher._filter_edge_constraints.
  rewrite Hedges. simpl. by destruct self.
Qed.

(** Whatever the pattern, the matcher object comes out as it went in. *)
Lemma filter_edge_constraints_self (self : GlobalMatcher.t)
    (matches : gmap string (list Z)) (sentence : Sentence.t) :
  (GlobalMatcher._filter_edge_constraints self matches sentence).2 = self.
Proof.
  destruct (Full.edges (GlobalMatcher.constraint self)) as [|edge rest] eqn:E.
  - by rewrite filter_edge_constraints_without_edges.
  - rewrite filter_edge_constraints_with_edges; [done|]. by rewrite E.
Qed.

Lemma apply_self (self : GlobalMatcher.t) (matches : gmap string (list Z))
    (sentence : Sentence.t) :
  (GlobalMatcher.apply self matches sentence).2 = self.
Proof.
  unfold GlobalMatcher.apply.
  pose proof (filter_edge_constraints_self self matches sentence) as Hself.
  destruct (GlobalMatcher._filter_edge_constraints self matches sentence)
    as [[merges|e] self']; simpl in *; by subst.
Qed.

Lemma matches_for_self (self : Match.t) (name : string) :
  (Match.matches_for self name).2 = self.
Proof.
  unfold Match.matches_for.
  destruct (od_get name (Match.matchers self)) as [m|] eqn:Hm; [|done].
  destruct (TokenMatcher.apply _ _) as [matches|e]; [|done].
  pose proof (apply_self (Matchers.global_matcher m) matches
                (Match.sentence self)) as Hself.
  destruct (GlobalMatcher.apply _ _ _) as [results global_matcher].
  simpl in *. subst global_matcher.
  destruct self as [matchers sentence]; simpl in *.
  f_equal. apply od_set_same. rewrite Hm. by destruct m.
Qed.

Lemma after_calls_same (matchers : odict string Matchers.t)
    (calls : list (Sentence.t * string)) :
  after_calls matchers calls = matchers.
Proof.
  induction calls as [|[sentence name] rest IH]; simpl; [done|].
  by rewrite matches_for_self.
Qed.

End edge_phase.

(** ** The merge loop of [_filter_edge_constraints] *)

Section merge_phase.
Context `{L : Labels}.

(** The test of [_try_merge] finds a contradiction exactly when some
    variable bound in both assignments has two positions. *)
Lemma contradicts_agree (base new : Assignment) :
  GlobalMatcher.contradicts base new = false ↔ map_agree base new.
Proof.
  unfold GlobalMatcher.contradicts.
  rewrite <- not_true_iff_false, existsb_exists, map_agree_spec. split.
  - intros Hno k x y Hbase Hnew. destruct (decide (x = y)) as [|Hxy]; [done|].
    exfalso. apply Hno. exists (k, y). split.
    + apply list_elem_of_In. by apply elem_of_map_to_list.
    + simpl. rewrite Hbase. simpl. rewrite bool_decide_eq_false_2; [done|].
      congruence.
  - intros Hagree [[k v] [Hin Hneq]].
    apply list_elem_of_In, elem_of_map_to_list in Hin. simpl in Hneq.
    destruct (base !! k) as [x|] eqn:Hbase; simpl in Hneq.
    + rewrite (Hagree k x v Hbase Hin) in Hneq.
      by rewrite bool_decide_eq_true_2 in Hneq.
    + by rewrite bool_decide_eq_true_2 in Hneq.
Qed.

Lemma try_merge_agree (base new : Assignment) :
  map_agree base new → GlobalMatcher._try_merge base new = new ∪ base.
Proof.
  intros Hagree. unfold GlobalMatcher._try_merge.
  apply contradicts_agree in Hagree. by rewrite Hagree.
Qed.

Lemma try_merge_conflict (base new : Assignment) :
  ¬ map_agree base new → GlobalMatcher._try_merge base new = ∅.
Proof.
  intros Hno. unfold GlobalMatcher._try_merge.
  destruct (GlobalMatcher.contradicts base new) eqn:Hc; [done|].
  by apply contradicts_agree in Hc.
Qed.

(** An assignment built for an edge binds at least one variable. *)
Lemma edge_assignment_bound (child parent : string) (c p : Z) :
  (<[parent := p]> {[child := c]} : Assignment) ≠ ∅.
Proof. apply insert_non_empty. Qed.

(** A candidate that binds something survives [if just_merged] exactly when
    it agrees with the running assignment. *)
Lemma try_merge_kept (base new : Assignment) :
  new ≠ ∅ →
  GlobalMatcher._try_merge base new ≠ ∅ ↔ map_agree base new.
Proof.
  intros Hnew. split.
  - intros Hkept. destruct (decide (map_agree base new)) as [|Hno]; [done|].
    by rewrite try_merge_conflict in Hkept.
  - intros Hagree. rewrite try_merge_agree by done.
    intros Hempty. by apply map_positive_l in Hempty.
Qed.

Lemma merged_candidates (merged : Assignment) (current : list Assignment) :
  Forall (fun a : Assignment => a ≠ ∅) current →
  filter (fun just_merged : Assignment => just_merged ≠ ∅)
         (GlobalMatcher._try_merge merged <$> current)
  = flat_map (fun assignment : Assignment =>
      if decide (map_agree merged assignment) then [assignment ∪ merged] else [])
      current.
Proof.
  induction 1 as [|a current Ha _ IH]; [done|].
  rewrite fmap_cons. cbn [flat_map].
  destruct (decide (map_agree merged a)) as [Hagree|Hno].
  - rewrite filter_cons_True by by apply try_merge_kept.
    rewrite IH. by rewrite try_merge_agree.
  - rewrite filter_cons_False; [done|].
    intros Hkept. by apply try_merge_kept in Hkept.
Qed.

Lemma py_index_lookup {A : Type} (l : list A) (i : nat) (x : A) :
  l !! i = Some x → py_index l (Z.of_nat i) = Ok x.
Proof.
  intros Hi. unfold py_index.
  destruct (Z.ltb_spec (Z.of_nat i) 0) as [|_]; [lia|].
  destruct (Z.ltb_spec (Z.of_nat i) 0) as [|_]; [lia|].
  by rewrite Nat2Z.id, Hi.
Qed.

Lemma merge_with_join (edge_assignments : list (list Assignment)) (i : nat)
    (current merges : list Assignment) :
  edge_assignments !! i = Some current →
  Forall (fun a : Assignment => a ≠ ∅) current →
  GlobalMatcher.merge_with edge_assignments i merges
  = Ok (join_step merges current).
Proof.
  intros Hi Hcur. induction merges as [|merged rest IH]; [done|].
  cbn [GlobalMatcher.merge_with].
  rewrite (py_index_lookup _ _ _ Hi), IH. cbn [rbind].
  by rewrite merged_candidates.
Qed.

Lemma join_from_nothing (relations : list (list Assignment)) :
  foldl join_step [] relations = [].
Proof. by induction relations. Qed.

Lemma merge_loop_join (done_ rest : list (list Assignment))
    (merges : list Assignment) :
  Forall (Forall (fun a : Assignment => a ≠ ∅)) rest →
  GlobalMatcher.merge_loop (seq (length done_) (length rest))
    (done_ ++ rest) merges
  = Ok (foldl join_step merges rest).
Proof.
  intros Hrest. revert done_ merges.
  induction Hrest as [|current rest Hcur _ IH]; intros done_ merges; simpl;
    [done|].
  rewrite (merge_with_join _ _ current).
  - simpl. destruct (join_step merges current) as [|m ms] eqn:Hjoin.
    + by rewrite join_from_nothing.
    + specialize (IH (done_ ++ [current]) (m :: ms)).
      rewrite length_app, Nat.add_1_r, <- app_assoc in IH. exact IH.
  - by rewrite lookup_app_r, Nat.sub_diag.
  - done.
Qed.

(** Run on per-edge relations whose assignments each bind something, the
    merge loop returns the join of the relations in their order, the empty
    join included. *)
Lemma merge_loop_natural_join (edge_assignments : list (list Assignment)) :
  Forall (Forall (fun a : Assignment => a ≠ ∅)) edge_assignments →
  GlobalMatcher.merge_loop (seq 0 (length edge_assignments))
    edge_assignments [∅]
  = Ok (natural_join edge_assignments).
Proof. intros Hall. exact (merge_loop_join [] edge_assignments [∅] Hall). Qed.

End merge_phase.

(** ** Token-level matching *)

Section token_phase.
Context `{L : Labels}.

(** The span check stops a match that covers exactly one node. *)
Lemma store_matches_single_node (token_name : string) (start : Z)
    (rest : list (string * Z * Z)) (doc : list Z)
    (matched_tokens : odict string (list Z)) :
  TokenMatcher.store_matches ((token_name, start, start + 1) :: rest) doc
    matched_tokens
  = Raise (ValueError "matched more than single token").
Proof.
  cbn [TokenMatcher.store_matches].
  replace (start + 1 - 1) with start by lia. by rewrite Z.eqb_refl.
Qed.

Lemma get_matched_labels_none (actual_labels : list string) :
  get_matched_labels [] actual_labels = Ok ∅.
Proof. reflexivity. Qed.

(** Without incoming-label constraints nothing is matched, the set is
    empty, and the token is not kept. *)
Lemma keeps_no_incoming (self : TokenMatcher.t) (name : string)
    (sentence : Sentence.t) (token : Z) :
  TokenMatcher.incoming_constraints self !! name = Some [] →
  TokenMatcher.keeps self name sentence token = Ok false.
Proof.
  intros Hin. unfold TokenMatcher.keeps, py_getitem. by rewrite Hin.
Qed.

Lemma checked_indices_no_incoming (self : TokenMatcher.t) (name : string)
    (sentence : Sentence.t) (token_indices : list Z) :
  TokenMatcher.incoming_constraints self !! name = Some [] →
  TokenMatcher.checked_indices self name sentence token_indices = Ok [].
Proof.
  intros Hin. induction token_indices as [|token rest IH]; [done|].
  cbn [TokenMatcher.checked_indices].
  by rewrite (keeps_no_incoming _ _ _ _ Hin), IH.
Qed.

(** A required variable the external matcher found nowhere stops
    [TokenMatcher.apply], once the matches it did find are stored. *)
Lemma apply_required_unmatched (self : TokenMatcher.t) (sentence : Sentence.t)
    (matched_tokens : odict string (list Z)) (v : string) :
  TokenMatcher.store_matches (TokenMatcher.matcher self sentence)
    (Sentence.doc sentence) [] = Ok matched_tokens →
  v ∈ TokenMatcher.required_tokens self →
  od_get v matched_tokens = None →
  TokenMatcher.apply self sentence
  = Raise (ValueError "required token not matched").
Proof.
  intros Hstore Hreq Hnone. unfold TokenMatcher.apply.
  rewrite Hstore. cbn [rbind].
  rewrite bool_decide_eq_false_2; [done|].
  intros Hsize. apply size_empty_inv in Hsize.
  apply od_get_keys in Hnone.
  assert (v ∈ TokenMatcher.required_tokens self
              ∖ list_to_set (od_keys matched_tokens)) as Hv.
  { apply elem_of_difference. split; [done|]. by rewrite elem_of_list_to_set. }
  rewrite Hsize in Hv. by apply not_elem_of_empty in Hv.
Qed.

End token_phase.

(** ** Distance constraints *)

Section distance_phase.
Context `{L : Labels}.

(** A constraint that names a variable absent from the assignment is passed
    over. *)
Lemma filter_distances_absent (distance : Distance.t)
    (rest : list Distance.t) (match_ : Assignment) (sentence : Sentence.t) :
  match_ !! Distance.token1 distance = None
  ∨ match_ !! Distance.token2 distance = None →
  GlobalMatcher.filter_distances (distance :: rest) match_ sentence
  = GlobalMatcher.filter_distances rest match_ sentence.
Proof.
  intros Habsent. cbn [GlobalMatcher.filter_distances].
  destruct Habsent as [-> | ->]; [done|].
  by destruct (match_ !! Distance.token1 distance).
Qed.

(** A constraint whose two variables are bound ends the loop: with [False]
    when it is violated, with the [else] branch when it holds. *)
Lemma filter_distances_bound (distance : Distance.t)
    (rest : list Distance.t) (match_ : Assignment) (sentence : Sentence.t)
    (p1 p2 : Z) :
  match_ !! Distance.token1 distance = Some p1 →
  match_ !! Distance.token2 distance = Some p2 →
  let calculated := Sentence.index sentence p2 - Sentence.index sentence p1 - 1 in
  let holds :=
    match distance with
    | Distance.ExactDistance _ _ d => d =? calculated
    | Distance.UptoDistance _ _ d => negb (d <? calculated)
    end in
  GlobalMatcher.filter_distances (distance :: rest) match_ sentence
  = if holds then Raise (ValueError "Unknown Distance type") else Ok false.
Proof.
  intros H1 H2. cbn [GlobalMatcher.filter_distances]. rewrite H1, H2.
  destruct distance as [t1 t2 d|t1 t2 d]; simpl.
  - by destruct (d =? _).
  - by destruct (d <? _).
Qed.

End distance_phase.

(** ** Building a result *)

Section result_phase.
Context `{L : Labels}.

Lemma pop_names_lookup (names : list string) (merged stripped : Assignment)
    (k : string) :
  GlobalMatcher.pop_names names merged = Ok stripped →
  stripped !! k = if decide (k ∈ names) then None else merged !! k.
Proof.
  revert merged. induction names as [|name rest IH]; intros merged Hpop;
    cbn [GlobalMatcher.pop_names] in Hpop.
  - injection Hpop as ->.
    destruct (decide (k ∈ [])) as [Hin|_]; [by apply elem_of_nil in Hin|done].
  - destruct (merged !! name) as [p|] eqn:Hname; [|done].
    rewrite (IH _ Hpop).
    destruct (decide (k ∈ rest)) as [Hin|Hnotin];
      destruct (decide (k ∈ name :: rest)) as [Hin'|Hnotin']; try done.
    + exfalso. apply Hnotin'. by right.
    + apply elem_of_cons in Hin' as [->|Hin']; [|done].
      apply lookup_delete_eq.
    + apply lookup_delete_ne. intros ->. apply Hnotin'. by left.
Qed.

(** The popping needs every name to be bound. *)
Lemma pop_names_unbound (name : string) (rest : list string)
    (merged : Assignment) :
  merged !! name = None →
  GlobalMatcher.pop_names (name :: rest) merged = Raise (KeyError name).
Proof. intros Hnone. simpl. by rewrite Hnone. Qed.

(** A result that is built shows no variable that is not to be captured. *)
Lemma build_result_hides (self : GlobalMatcher.t) (merged : Assignment)
    (result : MatchingResult.t) (name : string) :
  GlobalMatcher.build_result self merged = Ok result →
  name ∈ GlobalMatcher.dont_capture_names self →
  MatchingResult.name2index result !! name = None.
Proof.
  unfold GlobalMatcher.build_result. intros Hbuild Hname.
  destruct (GlobalMatcher.pop_names _ merged) as [stripped|e] eqn:Hpop;
    [|done].
  cbn [rbind] in Hbuild.
  destruct (GlobalMatcher.gather_labels _ stripped ∅) as [captured|e];
    [|done].
  cbn [rbind] in Hbuild. injection Hbuild as <-. simpl.
  rewrite (pop_names_lookup _ _ _ name Hpop). by rewrite decide_True.
Qed.

End result_phase.

(** ** Preprocessing *)

Section preprocess_phase.
Context `{L : Labels}.

(** The first token met is rebuilt with [ins.get(token.id, default=[])]. *)
Lemma rebuild_tokens_first (outs ins : gmap string (list Label))
    (words : gmap string (list (list string))) (token : Token.t)
    (rest : list Token.t) :
  rebuild_tokens outs ins words (token :: rest)
  = Raise (TypeError "dict.get() takes no keyword arguments").
Proof. reflexivity. Qed.

Lemma preprocess_constraint_with_tokens (constraint : Full.t)
    (words : gmap string (list (list string))) :
  Full.tokens constraint ≠ [] →
  hoist_concats (Full.concats constraint) ∅ = Ok words →
  preprocess_constraint constraint
  = Raise (TypeError "dict.get() takes no keyword arguments").
Proof.
  intros Htokens Hwords. unfold preprocess_constraint.
  destruct (hoist_edges _ ∅ ∅) as [outs ins]. rewrite Hwords. cbn [rbind].
  destruct (Full.tokens constraint) as [|token rest]; [done|].
  by rewrite rebuild_tokens_first.
Qed.

(** Edges on which the [HasNoLabel] test succeeds add nothing. *)
Lemma hoist_edges_skips (edges : list Edge.t)
    (outs ins : gmap string (list Label)) :
  Forall (fun edge => isinstance_HasNoLabel (Edge.label edge) = true) edges →
  hoist_edges edges outs ins = (outs, ins).
Proof.
  induction 1 as [|edge rest Hedge _ IH]; simpl; [done|]. by rewrite Hedge.
Qed.

End preprocess_phase.

(** * The properties of the specification *)

(** C1, as stated, fails: the pattern has the single required variable [v],
    the external matcher finds [v] nowhere in the sentence, and draining
    [matches_for] is ended by [ValueError("required token not matched")]
    instead of giving zero results. *)
Lemma matches_for_unmatched_required_raises :
  (Match.matches_for (Examples.facade Examples.one_token Examples.no_match)
     "rule").1
  = mkDrain [] (Some (ValueError "required token not matched"))
  ∧ ended_by
      (Match.matches_for (Examples.facade Examples.one_token Examples.no_match)
         "rule").1
    ≠ None.
Proof. split; [reflexivity | discriminate]. Qed.

(** C1, amended: when the matches the external matcher reports have been
    stored and some required variable is not among them, [matches_for]
    yields no result and its draining is ended by
    [ValueError("required token not matched")], raised by
    [TokenMatcher.apply]; the matchers are left as they were. *)
Theorem matches_for_required_unmatched `{L : Labels} (self : Match.t)
    (name : string) (m : Matchers.t)
    (matched_tokens : odict string (list Z)) (v : string) :
  od_get name (Match.matchers self) = Some m →
  TokenMatcher.store_matches
    (TokenMatcher.matcher (Matchers.token_matcher m) (Match.sentence self))
    (Sentence.doc (Match.sentence self)) []
  = Ok matched_tokens →
  v ∈ TokenMatcher.required_tokens (Matchers.token_matcher m) →
  od_get v matched_tokens = None →
  Match.matches_for self name
  = (mkDrain [] (Some (ValueError "required token not matched")), self).
Proof.
  intros Hm Hstore Hreq Hnone. unfold Match.matches_for. rewrite Hm.
  by rewrite (apply_required_unmatched _ _ _ _ Hstore Hreq Hnone).
Qed.

(** The amended C1 at work: [w] is found (on a span the check lets
    through), the required [v] is not. *)
Lemma matches_for_required_unmatched_witness :
  let pattern := Full.mk [Examples.plain "v"; Examples.plain "w"] [] [] [] in
  let self :=
    Examples.facade pattern (fun _ => [("w"%string, 0, 2)]) in
  Match.matches_for self "rule"
  = (mkDrain [] (Some (ValueError "required token not matched")), self).
Proof.
  intros pattern self.
  apply (matches_for_required_unmatched self "rule"
           (Matchers.mk
              (TokenMatcher.init (Full.tokens pattern)
                 (fun _ => [("w"%string, 0, 2)]))
              (GlobalMatcher.init pattern))
           [("w"%string, [10])] "v").
  - reflexivity.
  - reflexivity.
  - apply (bool_decide_unpack _). vm_compute. exact I.
  - reflexivity.
Defined.

(** C2: the code stops before its merge step. With the two edges
    [c -nsubj-> p] and [p -amod-> c], the second of which no pair of the
    sentence satisfies, the claim has the match give zero results;
    [GlobalMatcher.apply] is ended by the [IndexError] of
    [edge_assignments[i] = []]. The merge loop alone, given the two
    relations, does return the empty join. *)
Theorem apply_two_edges_stops_before_merge :
  GlobalMatcher.apply (GlobalMatcher.init Examples.two_edges)
    Examples.one_edge_candidates Examples.sentence
  = (mkDrain [] (Some (IndexError "list assignment index out of range")),
     GlobalMatcher.init Examples.two_edges)
  ∧ GlobalMatcher.merge_loop [0; 1]%nat
      [[ {[ "c"%string := 10; "p"%string := 12 ]} ]; []] [∅]
    = Ok (natural_join [[ {[ "c"%string := 10; "p"%string := 12 ]} ]; []])
  ∧ natural_join [[ {[ "c"%string := 10; "p"%string := 12 ]} ]; []] = [].
Proof. repeat split; reflexivity. Qed.

(** C3: a variable without incoming and outgoing label constraints loses
    every candidate. [v] has both lists empty and the attribute-matched
    nodes 10 and 11; the claim has both kept, [_post_spacy_matcher] keeps
    none. *)
Theorem post_spacy_matcher_unconstrained_keeps_none :
  TokenMatcher.incoming_constraints
    (TokenMatcher.init [Examples.plain "v"] Examples.no_match) !! "v"%string
  = Some []
  ∧ TokenMatcher.outgoing_constraints
      (TokenMatcher.init [Examples.plain "v"] Examples.no_match) !! "v"%string
    = Some []
  ∧ TokenMatcher._post_spacy_matcher
      (TokenMatcher.init [Examples.plain "v"] Examples.no_match)
      [("v"%string, [10; 11])] Examples.sentence
    = Ok {[ "v"%string := [] ]}.
Proof. repeat split; reflexivity. Qed.

(** C4: a distance constraint that holds raises. [a] is at node 10 and [b]
    at node 11, so the computed distance is 0; the exact constraint
    [distance(a, b) = 0] and the up-to constraint [distance(a, b) <= 2] both
    hold and the claim has the assignment kept; the code reaches
    [raise ValueError("Unknown Distance type")]. *)
Theorem filter_distance_constraints_raises_when_met :
  GlobalMatcher._filter_distance_constraints
    (GlobalMatcher.init Examples.adjacent) Examples.a10_b11 Examples.sentence
  = Raise (ValueError "Unknown Distance type")
  ∧ GlobalMatcher._filter_distance_constraints
      (GlobalMatcher.init Examples.within_two) Examples.a10_b11 Examples.sentence
    = Raise (ValueError "Unknown Distance type").
Proof. split; reflexivity. Qed.

(** C5: no pair is recorded and no label set is cached. For the edge
    [c -nsubj-> p] with candidates 10, 11 for [c] and 12 for [p], the pair
    (10, 12) carries [nsubj] and the claim has it recorded and its labels
    cached; [_filter_edge_constraints] raises [IndexError] at
    [edge_assignments[i] = []] and [captured_labels] stays empty. *)
Theorem filter_edge_constraints_records_nothing :
  GlobalMatcher._filter_edge_constraints
    (GlobalMatcher.init Examples.one_edge) Examples.one_edge_candidates
    Examples.sentence
  = (Raise (IndexError "list assignment index out of range"),
     GlobalMatcher.init Examples.one_edge)
  ∧ GlobalMatcher.captured_labels (GlobalMatcher.init Examples.one_edge) = [].
Proof. split; reflexivity. Qed.

(** C6: [preprocess_constraint] is not total. On the pattern with the
    variables [c], [p] and the positive edge [c -nsubj-> p] the claim has a
    pattern returned; the code raises [TypeError] at
    [ins.get(token.id, default=[])]. *)
Theorem preprocess_constraint_raises_on_tokens :
  preprocess_constraint Examples.one_edge
  = Raise (TypeError "dict.get() takes no keyword arguments").
Proof. reflexivity. Qed.

(** C7: the span check is the wrong way round. A match of [v] on the single
    node 0 (span 0 to 1) raises [ValueError("matched more than single
    token")], where the claim has it accepted; a match on the two nodes 0
    and 1 (span 0 to 2) is accepted and node 10 recorded, where the claim
    has it fail. *)
Theorem apply_span_check_inverted :
  TokenMatcher.apply
    (TokenMatcher.init [Examples.plain "v"] Examples.match_at_0)
    Examples.sentence
  = Raise (ValueError "matched more than single token")
  ∧ TokenMatcher.store_matches (Examples.wide_match Examples.sentence)
      (Sentence.doc Examples.sentence) []
    = Ok [("v"%string, [10])].
Proof. split; reflexivity. Qed.

(** C8: building the result can raise. The pattern has the single optional
    variable [x], not to be captured, and the external matcher finds
    nothing; the one merged assignment is empty, and the claim has a result
    built from it; [merged_assignment.pop("x")] raises [KeyError]. *)
Theorem matches_for_uncaptured_unbound_raises :
  (Match.matches_for
     (Examples.facade Examples.only_scaffold Examples.no_match) "rule").1
  = mkDrain [] (Some (KeyError "x")).
Proof. reflexivity. Qed.

(** C9: for any matchers, sentence and pattern name, and after any series of
    earlier [matches_for] calls on the same matchers (for any sentences and
    names, each drained), draining [matches_for] gives the same results, in
    the same order, and the same ending; a call leaves the matchers as it
    found them. *)
Theorem matches_for_repeatable `{L : Labels}
    (matchers : odict string Matchers.t) (sentence : Sentence.t)
    (name : string) (calls : list (Sentence.t * string)) :
  (Match.matches_for (Match.mk (after_calls matchers calls) sentence) name).1
  = (Match.matches_for (Match.mk matchers sentence) name).1
  ∧ (Match.matches_for (Match.mk matchers sentence) name).2
    = Match.mk matchers sentence.
Proof. split; [by rewrite after_calls_same | apply matches_for_self]. Qed.

(** C10 at work: a root-bound node with [head = 2] is asked to take
    [head=0] and [form="York"]; [head] stays 2, [form] changes. *)
Lemma replace_conllu_info_keeps_unsupplied_witness :
  let info :=
    Conllu.mkConlluInfo (Conllu.PyInt 1) (Conllu.PyStr "New")
      (Conllu.PyStr "new") (Conllu.PyStr "PROPN") (Conllu.PyStr "NNP")
      (Conllu.PyStr "_") (Conllu.PyInt 2) (Conllu.PyStr "compound")
      (Conllu.PyStr "_") (Conllu.PyStr "_") in
  let node := Conllu.mkNode info None [] (false, [(2, "compound"%string)]) in
  let node' :=
    Conllu.replace_conllu_info node Conllu.PyNone (Conllu.PyStr "York")
      Conllu.PyNone Conllu.PyNone Conllu.PyNone Conllu.PyNone (Conllu.PyInt 0)
      Conllu.PyNone Conllu.PyNone Conllu.PyNone in
  Conllu.head (Conllu.conllu_info node') = Conllu.PyInt 2
  ∧ Conllu.form (Conllu.conllu_info node') = Conllu.PyStr "York".
Proof.
  intros info node node'. split.
  - apply (replace_conllu_info_keeps_unsupplied node Conllu.PyNone
             (Conllu.PyStr "York") Conllu.PyNone Conllu.PyNone Conllu.PyNone
             Conllu.PyNone (Conllu.PyInt 0) Conllu.PyNone Conllu.PyNone
             Conllu.PyNone Conllu.c_head).
  - apply (replace_conllu_info_keeps_unsupplied node Conllu.PyNone
             (Conllu.PyStr "York") Conllu.PyNone Conllu.PyNone Conllu.PyNone
             Conllu.PyNone (Conllu.PyInt 0) Conllu.PyNone Conllu.PyNone
             Conllu.PyNone Conllu.c_form).
    reflexivity.
Defined.

(** * Further properties of the matcher *)

Section merge_properties.
Context `{L : Labels}.

Lemma filter_distances_nothing_bound (distances : list Distance.t)
    (sentence : Sentence.t) :
  GlobalMatcher.filter_distances distances ∅ sentence = Ok true.
Proof.
  induction distances as [|distance rest IH]; [done|].
  rewrite filter_distances_absent; [done|]. left. apply lookup_empty.
Qed.

Lemma filter_concats_nothing_bound (concats : list Concat.t)
    (sentence : Sentence.t) :
  GlobalMatcher.filter_concats concats ∅ sentence = Ok true.
Proof.
  induction concats as [|concat rest IH]; [done|].
  cbn [GlobalMatcher.filter_concats].
  by destruct concat; cbn [GlobalMatcher.word_indices]; rewrite lookup_empty.
Qed.

(** X1: [_try_merge] of a base assignment with a new assignment that binds
    something returns a non-empty dictionary exactly when the two agree on
    every variable bound in both; it then binds each variable of either, to
    the position the new assignment gives where it has one; on a
    contradiction it returns the empty dictionary. *)
Theorem try_merge_agreeing_union (base new : Assignment) :
  new ≠ ∅ →
  (GlobalMatcher._try_merge base new ≠ ∅ ↔ map_agree base new)
  ∧ (map_agree base new →
     ∀ k, GlobalMatcher._try_merge base new !! k
          = match new !! k with Some v => Some v | None => base !! k end)
  ∧ (¬ map_agree base new → GlobalMatcher._try_merge base new = ∅).
Proof.
  intros Hnew. split; [by apply try_merge_kept|]. split.
  - intros Hagree k. rewrite try_merge_agree by done.
    rewrite lookup_union. by destruct (new !! k), (base !! k).
  - apply try_merge_conflict.
Qed.

(** X2: [_try_merge] does not depend on which of the two assignments is the
    base: either way it is the empty dictionary on a contradiction and the
    same union otherwise. *)
Theorem try_merge_symmetric (a b : Assignment) :
  GlobalMatcher._try_merge a b = GlobalMatcher._try_merge b a.
Proof.
  destruct (decide (map_agree a b)) as [Hagree|Hno].
  - rewrite (try_merge_agree a b) by done.
    rewrite (try_merge_agree b a) by by symmetry.
    apply map_eq. intros k. rewrite !lookup_union.
    destruct (a !! k) as [x|] eqn:Ha, (b !! k) as [y|] eqn:Hb; simpl; try done.
    by rewrite (proj1 (map_agree_spec a b) Hagree k x y Ha Hb).
  - rewrite (try_merge_conflict a b) by done.
    rewrite (try_merge_conflict b a); [done|].
    intros Hagree. apply Hno. by symmetry.
Qed.

(** X3: given one list of candidate assignments per edge, each assignment
    binding something, the merge loop of [_filter_edge_constraints] returns
    the natural join of the lists taken in their order: starting from the
    one empty assignment, every running assignment is united with every
    candidate that agrees with it; it returns the empty list as soon as a
    step leaves nothing. *)
Theorem merge_loop_is_natural_join
    (edge_assignments : list (list Assignment)) :
  Forall (Forall (fun a : Assignment => a ≠ ∅)) edge_assignments →
  GlobalMatcher.merge_loop (seq 0 (length edge_assignments))
    edge_assignments [∅]
  = Ok (foldl join_step [∅] edge_assignments)
  ∧ (∀ before after : list (list Assignment),
       edge_assignments = before ++ [] :: after →
       foldl join_step [∅] edge_assignments = []).
Proof.
  intros Hall. split.
  - exact (merge_loop_join [] edge_assignments [∅] Hall).
  - intros before after ->. rewrite foldl_app. cbn [foldl].
    replace (join_step (foldl join_step [∅] before) []) with (@nil Assignment).
    + apply join_from_nothing.
    + generalize (foldl join_step [∅] before). intros running.
      unfold join_step. induction running as [|m ms IH]; simpl in *; done.
Qed.

(** X4: for every pattern that has an edge constraint, whatever the
    candidates and the sentence, [_filter_edge_constraints] raises
    [IndexError] at [edge_assignments[i] = []] and leaves the matcher and
    its captured labels as they were; [apply] then yields no result. *)
Theorem edge_patterns_raise_index_error (self : GlobalMatcher.t)
    (matches : gmap string (list Z)) (sentence : Sentence.t) :
  Full.edges (GlobalMatcher.constraint self) ≠ [] →
  GlobalMatcher._filter_edge_constraints self matches sentence
  = (Raise (IndexError "list assignment index out of range"), self)
  ∧ GlobalMatcher.apply self matches sentence
    = (mkDrain [] (Some (IndexError "list assignment index out of range")),
       self).
Proof.
  intros Hedges.
  pose proof (filter_edge_constraints_with_edges self matches sentence Hedges)
    as Hraise.
  split; [done|]. unfold GlobalMatcher.apply. by rewrite Hraise.
Qed.

(** X5: for a pattern without edge constraints all of whose variables are
    captured, a freshly built [GlobalMatcher] yields exactly one result,
    whatever the candidates and the sentence: the result binds no variable
    and carries no label, since the one merged assignment is empty and
    every distance and phrase constraint is passed over. *)
Theorem apply_without_edges_yields_empty_result (constraint : Full.t)
    (matches : gmap string (list Z)) (sentence : Sentence.t) :
  Full.edges constraint = [] →
  Forall (fun token => Token.capture token = true) (Full.tokens constraint) →
  GlobalMatcher.apply (GlobalMatcher.init constraint) matches sentence
  = (mkDrain [MatchingResult.mk ∅ ∅] None, GlobalMatcher.init constraint).
Proof.
  intros Hedges Hcapture. unfold GlobalMatcher.apply.
  rewrite filter_edge_constraints_without_edges by done.
  cbn [GlobalMatcher.apply_loop].
  unfold GlobalMatcher._filter_distance_constraints,
    GlobalMatcher._filter_concat_constraints.
  rewrite filter_distances_nothing_bound, filter_concats_nothing_bound.
  unfold GlobalMatcher.build_result, GlobalMatcher.init. simpl.
  replace (filter _ (Full.tokens constraint)) with (@nil Token.t); [done|].
  symmetry. induction Hcapture as [|token rest Htoken _ IH]; [done|].
  rewrite filter_cons_False; [done|]. by rewrite Htoken.
Qed.

(** X6: [_filter_distance_constraints] returns [True] exactly when every
    distance constraint of the pattern names a variable the assignment does
    not bind. A constraint whose two variables are bound ends the loop with
    [False] or with the raise, so it never lets [True] through. *)
Theorem filter_distances_true_iff_all_absent (distances : list Distance.t)
    (match_ : Assignment) (sentence : Sentence.t) :
  GlobalMatcher.filter_distances distances match_ sentence = Ok true
  ↔ Forall (fun distance =>
              match_ !! Distance.token1 distance = None
              ∨ match_ !! Distance.token2 distance = None) distances.
Proof.
  induction distances as [|distance rest IH]; [by split|].
  rewrite Forall_cons.
  destruct (match_ !! Distance.token1 distance) as [p1|] eqn:H1.
  - destruct (match_ !! Distance.token2 distance) as [p2|] eqn:H2.
    + rewrite (filter_distances_bound distance rest match_ sentence p1 p2 H1 H2).
      split.
      * by destruct distance;
          match goal with |- context [if ?b then _ else _] => destruct b end.
      * intros [[?|?] _]; done.
    + rewrite filter_distances_absent by by right.
      rewrite IH. split; [intros Hrest; split; [by right|done] | by intros [_ ?]].
  - rewrite filter_distances_absent by by left.
    rewrite IH. split; [intros Hrest; split; [by left|done] | by intros [_ ?]].
Qed.

End merge_properties.

(** X1 at work: [{c: 10}] and [{c: 10, p: 12}] agree and are united. *)
Lemma try_merge_agreeing_union_witness :
  GlobalMatcher._try_merge {[ "c"%string := 10 ]}
    {[ "c"%string := 10; "p"%string := 12 ]}
  ≠ ∅.
Proof.
  apply (try_merge_agreeing_union {[ "c"%string := 10 ]}
           {[ "c"%string := 10; "p"%string := 12 ]}).
  - apply insert_non_empty.
  - apply map_agree_spec. intros k x y Hx Hy.
    apply lookup_singleton_Some in Hx as [<- <-].
    rewrite lookup_insert_eq in Hy. congruence.
Defined.

(** X3 at work: the relation of [c -> p] joined with the relation of
    [p -> g]. *)
Lemma merge_loop_is_natural_join_witness :
  GlobalMatcher.merge_loop [0; 1]%nat
    [ [ {[ "c"%string := 10; "p"%string := 12 ]};
        {[ "c"%string := 11; "p"%string := 12 ]} ];
      [ {[ "p"%string := 12; "g"%string := 13 ]};
        {[ "p"%string := 10; "g"%string := 13 ]} ] ]
    [∅]
  = Ok (foldl join_step [∅]
          [ [ {[ "c"%string := 10; "p"%string := 12 ]};
              {[ "c"%string := 11; "p"%string := 12 ]} ];
            [ {[ "p"%string := 12; "g"%string := 13 ]};
              {[ "p"%string := 10; "g"%string := 13 ]} ] ]).
Proof.
  apply (merge_loop_is_natural_join
           [ [ {[ "c"%string := 10; "p"%string := 12 ]};
               {[ "c"%string := 11; "p"%string := 12 ]} ];
             [ {[ "p"%string := 12; "g"%string := 13 ]};
               {[ "p"%string := 10; "g"%string := 13 ]} ] ]).
  repeat constructor; apply insert_non_empty.
Defined.

(** X4 at work: the pattern with the one edge [c -nsubj-> p]. *)
Lemma edge_patterns_raise_index_error_witness :
  GlobalMatcher.apply (GlobalMatcher.init Examples.one_edge)
    Examples.one_edge_candidates Examples.sentence
  = (mkDrain [] (Some (IndexError "list assignment index out of range")),
     GlobalMatcher.init Examples.one_edge).
Proof.
  apply (edge_patterns_raise_index_error
           (GlobalMatcher.init Examples.one_edge)
           Examples.one_edge_candidates Examples.sentence).
  discriminate.
Defined.

(** X5 at work: the pattern with the one required variable [v], which has
    the candidates 10 and 11. *)
Lemma apply_without_edges_yields_empty_result_witness :
  GlobalMatcher.apply (GlobalMatcher.init Examples.one_token)
    {[ "v"%string := [10; 11] ]} Examples.sentence
  = (mkDrain [MatchingResult.mk ∅ ∅] None,
     GlobalMatcher.init Examples.one_token).
Proof.
  apply (apply_without_edges_yields_empty_result Examples.one_token
           {[ "v"%string := [10; 11] ]} Examples.sentence).
  - reflexivity.
  - repeat constructor.
Defined.

Section result_properties.
Context `{L : Labels}.


Lemma pop_names_bound (names : list string) (merged stripped : Assignment)
    (name : string) :
  GlobalMatcher.pop_names names merged = Ok stripped →
  name ∈ names → is_Some (merged !! name).
Proof.
  revert merged. induction names as [|n rest IH]; intros merged Hpop Hin.
  - by apply elem_of_nil in Hin.
  - cbn [GlobalMatcher.pop_names] in Hpop.
    destruct (merged !! n) as [p|] eqn:Hn; [|done].
    apply elem_of_cons in Hin as [->|Hin]; [by rewrite Hn|].
    destruct (IH _ Hpop Hin) as [q Hq].
    apply lookup_delete_Some in Hq as [_ Hq]. by rewrite Hq.
Qed.

(** X8: when [apply] builds a result from a merged assignment, every name
    that is not to be captured was bound in the assignment and is absent
    from the result's [name2index]; every other name has in the result the
    position (or the absence) it had in the assignment. *)
Theorem build_result_strips_uncaptured (self : GlobalMatcher.t)
    (merged : Assignment) (result : MatchingResult.t) :
  GlobalMatcher.build_result self merged = Ok result →
  (∀ name, name ∈ GlobalMatcher.dont_capture_names self →
           is_Some (merged !! name)
           ∧ MatchingResult.name2index result !! name = None)
  ∧ (∀ name, name ∉ GlobalMatcher.dont_capture_names self →
             MatchingResult.name2index result !! name = merged !! name).
Proof.
  unfold GlobalMatcher.build_result. intros Hbuild.
  destruct (GlobalMatcher.pop_names _ merged) as [stripped|e] eqn:Hpop;
    [|done].
  cbn [rbind] in Hbuild.
  destruct (GlobalMatcher.gather_labels _ stripped ∅) as [captured|e];
    [|done].
  cbn [rbind] in Hbuild. injection Hbuild as <-. simpl. split.
  - intros name Hname. split; [by eapply pop_names_bound|].
    rewrite (pop_names_lookup _ _ _ name Hpop). by rewrite decide_True.
  - intros name Hname.
    rewrite (pop_names_lookup _ _ _ name Hpop). by rewrite decide_False.
Qed.

Lemma gather_labels_sound (items : odict CaptureKey (gset string))
    (merged : Assignment) (acc captured : gmap (Z * Z) (gset string))
    (v1 v2 : Z) (labels : gset string) :
  GlobalMatcher.gather_labels items merged acc = Ok captured →
  captured !! (v1, v2) = Some labels →
  acc !! (v1, v2) = Some labels
  ∨ ∃ k1 k2, ((k1, v1, k2, v2), labels) ∈ items
             ∧ merged !! k1 = Some v1 ∧ merged !! k2 = Some v2.
Proof.
  revert acc. induction items as [|[[[[k1 w1] k2] w2] ls] rest IH];
    intros acc Hgather Hlookup.
  - injection Hgather as <-. by left.
  - cbn [GlobalMatcher.gather_labels] in Hgather. unfold py_getitem in Hgather.
    assert (Hrest : ∀ acc',
      GlobalMatcher.gather_labels rest merged acc' = Ok captured →
      acc' = acc →
      acc !! (v1, v2) = Some labels
      ∨ ∃ k1' k2', ((k1', v1, k2', v2), labels)
                     ∈ ((k1, w1, k2, w2), ls) :: rest
                   ∧ merged !! k1' = Some v1 ∧ merged !! k2' = Some v2).
    { intros acc' Hg ->. destruct (IH _ Hg Hlookup) as [?|(k1' & k2' & ? & ?)];
        [by left|]. right. exists k1', k2'. split; [by right|done]. }
    destruct (merged !! k1) as [p1|] eqn:Hk1; [|done]. cbn [rbind] in Hgather.
    destruct (Z.eqb_spec p1 w1) as [->|Hne1]; cbn [negb] in Hgather;
      [|by eapply Hrest].
    destruct (merged !! k2) as [p2|] eqn:Hk2; [|done]. cbn [rbind] in Hgather.
    destruct (Z.eqb_spec p2 w2) as [->|Hne2]; cbn [negb] in Hgather;
      [|by eapply Hrest].
    destruct (IH _ Hgather Hlookup) as [Hacc|(k1' & k2' & ? & ?)].
    + destruct (decide ((w1, w2) = (v1, v2))) as [[= -> ->]|Hne].
      * rewrite lookup_insert_eq in Hacc. injection Hacc as ->.
        right. exists k1, k2. split; [by left|done].
      * rewrite lookup_insert_ne in Hacc by done. by left.
    + right. exists k1', k2'. split; [by right|done].
Qed.

(** X9: every label set a built result carries for a pair of positions is
    the set cached under a key [(k1, v1, k2, v2)] of [captured_labels] whose
    two variables the result binds to exactly these positions. *)
Theorem build_result_labels_from_cache (self : GlobalMatcher.t)
    (merged : Assignment) (result : MatchingResult.t) (v1 v2 : Z)
    (labels : gset string) :
  GlobalMatcher.build_result self merged = Ok result →
  MatchingResult.indices2label result !! (v1, v2) = Some labels →
  ∃ k1 k2, ((k1, v1, k2, v2), labels) ∈ GlobalMatcher.captured_labels self
           ∧ MatchingResult.name2index result !! k1 = Some v1
           ∧ MatchingResult.name2index result !! k2 = Some v2.
Proof.
  unfold GlobalMatcher.build_result. intros Hbuild Hlabels.
  destruct (GlobalMatcher.pop_names _ merged) as [stripped|e]; [|done].
  cbn [rbind] in Hbuild.
  destruct (GlobalMatcher.gather_labels _ stripped ∅) as [captured|e] eqn:Hg;
    [|done].
  cbn [rbind] in Hbuild. injection Hbuild as <-. simpl in *.
  destruct (gather_labels_sound _ _ _ _ _ _ _ Hg Hlabels) as [Hempty|Hfound];
    [by rewrite lookup_empty in Hempty | done].
Qed.

Lemma gather_labels_unbound_child (items : odict CaptureKey (gset string))
    (merged : Assignment) (acc : gmap (Z * Z) (gset string))
    (k1 k2 : string) (v1 v2 : Z) (labels : gset string) :
  ((k1, v1, k2, v2), labels) ∈ items →
  merged !! k1 = None →
  ∃ e, GlobalMatcher.gather_labels items merged acc = Raise e.
Proof.
  intros Hin Hk1. revert acc.
  induction items as [|[[[[k1' w1] k2'] w2] ls] rest IH]; intros acc.
  - by apply elem_of_nil in Hin.
  - cbn [GlobalMatcher.gather_labels]. unfold py_getitem.
    apply elem_of_cons in Hin as [[= <- <- <- <- <-]|Hin].
    + rewrite Hk1. by eexists.
    + destruct (merged !! k1') as [p1|]; [|by eexists]. cbn [rbind].
      destruct (negb (p1 =? w1)); [by apply IH|].
      destruct (merged !! k2') as [p2|]; [|by eexists]. cbn [rbind].
      destruct (negb (p2 =? w2)); by apply IH.
Qed.

(** X10: when a variable that is not to be captured is the child variable
    of some key of [captured_labels], building a result raises for every
    merged assignment: either the variable is unbound and [pop] raises, or
    it is popped and [merged_assignment[k1]] raises for that key (if no
    other key raised before). *)
Theorem build_result_raises_for_uncaptured_child (self : GlobalMatcher.t)
    (merged : Assignment) (name k2 : string) (v1 v2 : Z)
    (labels : gset string) :
  name ∈ GlobalMatcher.dont_capture_names self →
  ((name, v1, k2, v2), labels) ∈ GlobalMatcher.captured_labels self →
  ∃ e, GlobalMatcher.build_result self merged = Raise e.
Proof.
  intros Hname Hkey. unfold GlobalMatcher.build_result.
  destruct (GlobalMatcher.pop_names _ merged) as [stripped|e] eqn:Hpop;
    [|by eexists].
  cbn [rbind].
  destruct (gather_labels_unbound_child _ stripped ∅ _ _ _ _ _ Hkey)
    as [e He].
  - rewrite (pop_names_lookup _ _ _ name Hpop). by rewrite decide_True.
  - rewrite He. by eexists.
Qed.

End result_properties.

(** X8 at work: [x] is scaffolding, [y] is captured. *)
Lemma build_result_strips_uncaptured_witness :
  let self :=
    GlobalMatcher.mk
      (Full.mk [Examples.scaffold; Examples.plain "y"] [] [] []) [] ["x"%string] in
  let merged : Assignment := {[ "x"%string := 10; "y"%string := 12 ]} in
  let result := MatchingResult.mk {[ "y"%string := 12 ]} ∅ in
  GlobalMatcher.build_result self merged = Ok result
  ∧ MatchingResult.name2index result !! "x"%string = None.
Proof.
  intros self merged result.
  assert (Hbuild : GlobalMatcher.build_result self merged = Ok result)
    by reflexivity.
  split; [exact Hbuild|].
  apply (proj1 (build_result_strips_uncaptured self merged result Hbuild)
           "x"%string).
  by left.
Defined.

(** X9 at work: the labels of the pair (10, 12) come from the key
    [(c, 10, p, 12)]. *)
Lemma build_result_labels_from_cache_witness :
  let self :=
    GlobalMatcher.mk Examples.one_edge
      [(("c"%string, 10, "p"%string, 12), {[ "nsubj"%string ]})] [] in
  let merged : Assignment := {[ "c"%string := 10; "p"%string := 12 ]} in
  ∃ k1 k2,
    ((k1, 10, k2, 12), ({[ "nsubj"%string ]} : gset string))
    ∈ GlobalMatcher.captured_labels self
    ∧ merged !! k1 = Some 10 ∧ merged !! k2 = Some 12.
Proof.
  intros self merged.
  apply (build_result_labels_from_cache self merged
           (MatchingResult.mk merged {[ (10, 12) := {[ "nsubj"%string ]} ]})
           10 12 {[ "nsubj"%string ]}); reflexivity.
Defined.

(** X10 at work: [x] is not captured and is the child of a cached key. *)
Lemma build_result_raises_for_uncaptured_child_witness :
  let self :=
    GlobalMatcher.mk
      (Full.mk [Examples.scaffold; Examples.plain "y"] [] [] [])
      [(("x"%string, 10, "y"%string, 12), {[ "nsubj"%string ]})] ["x"%string] in
  ∃ e, GlobalMatcher.build_result self
         {[ "x"%string := 10; "y"%string := 12 ]} = Raise e.
Proof.
  intros self.
  apply (build_result_raises_for_uncaptured_child self
           {[ "x"%string := 10; "y"%string := 12 ]} "x" "y" 10 12
           {[ "nsubj"%string ]}); by left.
Defined.

Section token_properties.
Context `{L : Labels}.

Lemma store_matches_raises_on_single_node (matches : list (string * Z * Z))
    (doc : list Z) (matched_tokens : odict string (list Z))
    (token_name : string) (start : Z) :
  (token_name, start, start + 1) ∈ matches →
  ∃ e, TokenMatcher.store_matches matches doc matched_tokens = Raise e.
Proof.
  intros Hin. revert matched_tokens.
  induction matches as [|[[n s] e] rest IH]; intros matched_tokens.
  - by apply elem_of_nil in Hin.
  - apply elem_of_cons in Hin as [[= <- <- <-]|Hin].
    + rewrite store_matches_single_node. by eexists.
    + cbn [TokenMatcher.store_matches].
      destruct (e - 1 =? s); [by eexists|].
      destruct (py_index doc s) as [token|err]; [|by eexists].
      cbn [rbind]. destruct (od_getdefault [] n matched_tokens). apply IH, Hin.
Qed.

(** X11: if any of the matches the external matcher reports covers exactly
    one node (its end is its start plus one), [TokenMatcher.apply] raises,
    wherever that match stands in the list and whatever the other matches
    are. *)
Theorem apply_raises_on_any_single_node_match (self : TokenMatcher.t)
    (sentence : Sentence.t) (token_name : string) (start : Z) :
  (token_name, start, start + 1) ∈ TokenMatcher.matcher self sentence →
  ∃ e, TokenMatcher.apply self sentence = Raise e.
Proof.
  intros Hin. unfold TokenMatcher.apply.
  destruct (store_matches_raises_on_single_node _ (Sentence.doc sentence) []
              _ _ Hin) as [e He].
  rewrite He. by eexists.
Qed.

Lemma checked_indices_sublist (self : TokenMatcher.t) (name : string)
    (sentence : Sentence.t) (token_indices checked : list Z) :
  TokenMatcher.checked_indices self name sentence token_indices = Ok checked →
  checked `sublist_of` token_indices.
Proof.
  revert checked. induction token_indices as [|token rest IH];
    intros checked Hchecked.
  - by injection Hchecked as <-.
  - cbn [TokenMatcher.checked_indices] in Hchecked.
    destruct (TokenMatcher.keeps self name sentence token) as [keep|e];
      [|done].
    cbn [rbind] in Hchecked.
    destruct (TokenMatcher.checked_indices self name sentence rest)
      as [more|e]; [|done].
    cbn [rbind] in Hchecked. injection Hchecked as <-.
    destruct keep; [apply sublist_skip | apply sublist_cons]; by apply IH.
Qed.

Lemma post_loop_lookup (self : TokenMatcher.t) (items : odict string (list Z))
    (sentence : Sentence.t) (acc checked_tokens : gmap string (list Z))
    (name : string) (checked : list Z) :
  TokenMatcher.post_loop self items sentence acc = Ok checked_tokens →
  checked_tokens !! name = Some checked →
  acc !! name = Some checked
  ∨ ∃ token_indices, (name, token_indices) ∈ items
                     ∧ checked `sublist_of` token_indices.
Proof.
  revert acc. induction items as [|[n token_indices] rest IH];
    intros acc Hloop Hlookup.
  - injection Hloop as <-. by left.
  - cbn [TokenMatcher.post_loop] in Hloop.
    destruct (TokenMatcher.checked_indices self n sentence token_indices)
      as [l|e] eqn:Hl; [|done].
    cbn [rbind] in Hloop.
    destruct (IH _ Hloop Hlookup) as [Hacc|(l0 & Hin & Hsub)].
    + destruct (decide (n = name)) as [->|Hne].
      * rewrite lookup_insert_eq in Hacc. injection Hacc as ->.
        right. exists token_indices. split; [by left|].
        by eapply checked_indices_sublist.
      * rewrite lookup_insert_ne in Hacc by done. by left.
    + right. exists l0. split; [by right|done].
Qed.

Lemma post_loop_dom (self : TokenMatcher.t) (items : odict string (list Z))
    (sentence : Sentence.t) (acc checked_tokens : gmap string (list Z))
    (name : string) :
  TokenMatcher.post_loop self items sentence acc = Ok checked_tokens →
  is_Some (checked_tokens !! name)
  ↔ is_Some (acc !! name) ∨ name ∈ od_keys items.
Proof.
  unfold od_keys. revert acc.
  induction items as [|[n token_indices] rest IH]; intros acc Hloop.
  - injection Hloop as <-. split; [by left|].
    intros [?|Hin]; [done|]. by apply elem_of_nil in Hin.
  - cbn [TokenMatcher.post_loop] in Hloop.
    destruct (TokenMatcher.checked_indices self n sentence token_indices)
      as [l|e]; [|done].
    cbn [rbind] in Hloop. rewrite (IH _ Hloop). cbn [fmap list_fmap fst].
    rewrite elem_of_cons. destruct (decide (n = name)) as [->|Hne].
    + rewrite lookup_insert_eq. split; [intros _; right; by left|].
      intros _. left. by eexists.
    + rewrite lookup_insert_ne by done.
      split; [intros [?|?]; [by left|right; by right]|].
      intros [?|[?|?]]; [by left|congruence|by right].
Qed.

(** X12: when [_post_spacy_matcher] returns, its dictionary has exactly the
    names of [matched_tokens] as keys, and the list it holds for a name is a
    sublist of a list [matched_tokens] holds for that name: tokens are only
    dropped, never added, repeated or reordered. *)
Theorem post_spacy_matcher_only_drops (self : TokenMatcher.t)
    (matched_tokens : odict string (list Z)) (sentence : Sentence.t)
    (checked_tokens : gmap string (list Z)) :
  TokenMatcher._post_spacy_matcher self matched_tokens sentence
  = Ok checked_tokens →
  (∀ name, is_Some (checked_tokens !! name) ↔ name ∈ od_keys matched_tokens)
  ∧ (∀ name checked,
       checked_tokens !! name = Some checked →
       ∃ token_indices, (name, token_indices) ∈ matched_tokens
                        ∧ checked `sublist_of` token_indices).
Proof.
  unfold TokenMatcher._post_spacy_matcher. intros Hpost. split.
  - intros name. rewrite (post_loop_dom _ _ _ _ _ name Hpost).
    rewrite lookup_empty. split; [|by right].
    intros [[? ?]|?]; done.
  - intros name checked Hlookup.
    destruct (post_loop_lookup _ _ _ _ _ _ _ Hpost Hlookup) as [Hempty|?];
      [by rewrite lookup_empty in Hempty | done].
Qed.





(** X15: [matches_for] with a name that is not among [names()] yields
    nothing, is ended by [KeyError] for that name, and changes nothing. *)
Theorem matches_for_unknown_name (self : Match.t) (name : string) :
  name ∉ Match.names self →
  Match.matches_for self name = (mkDrain [] (Some (KeyError name)), self).
Proof.
  intros Hname. apply od_get_keys in Hname.
  unfold Match.matches_for. by rewrite Hname.
Qed.

End token_properties.

(** X11 at work: the single-node match of [v] comes second. *)
Lemma apply_raises_on_any_single_node_match_witness :
  ∃ e,
    TokenMatcher.apply
      (TokenMatcher.init [Examples.plain "v"; Examples.plain "w"]
         (fun _ => [("w"%string, 0, 2); ("v"%string, 1, 2)]))
      Examples.sentence
    = Raise e.
Proof.
  apply (apply_raises_on_any_single_node_match
           (TokenMatcher.init [Examples.plain "v"; Examples.plain "w"]
              (fun _ => [("w"%string, 0, 2); ("v"%string, 1, 2)]))
           Examples.sentence "v" 1).
  right. by left.
Defined.

(** X12 at work: [v] has the incoming constraint [nsubj] and no outgoing
    constraint; its candidate, node 10, is attached by [nsubj] and is
    dropped all the same. *)
Lemma post_spacy_matcher_only_drops_witness :
  let self :=
    TokenMatcher.init
      [Token.mk "v" true [] false [HasLabelFromList ["nsubj"%string]] []]
      Examples.no_match in
  ∃ token_indices,
    ("v"%string, token_indices) ∈ [("v"%string, [10])]
    ∧ [] `sublist_of` token_indices.
Proof.
  intros self.
  assert (Hpost : TokenMatcher._post_spacy_matcher self
                    [("v"%string, [10])] Examples.sentence
                  = Ok {[ "v"%string := [] ]}) by reflexivity.
  apply (proj2 (post_spacy_matcher_only_drops self [("v"%string, [10])]
                  Examples.sentence {[ "v"%string := [] ]} Hpost)
           "v"%string []).
  reflexivity.
Defined.

(** X15 at work: the facade knows the name [rule] only. *)
Lemma matches_for_unknown_name_witness :
  Match.matches_for (Examples.facade Examples.one_token Examples.no_match)
    "other"
  = (mkDrain [] (Some (KeyError "other")),
     Examples.facade Examples.one_token Examples.no_match).
Proof.
  apply (matches_for_unknown_name
           (Examples.facade Examples.one_token Examples.no_match) "other").
  intros Hin. apply list_elem_of_singleton in Hin. discriminate.
Defined.

Section preprocess_properties.
Context `{L : Labels}.

Lemma preprocess_constraint_tokenless (constraint constraint' : Full.t) :
  preprocess_constraint constraint = Ok constraint' →
  Full.tokens constraint = [].
Proof.
  unfold preprocess_constraint. intros Hpre.
  destruct (hoist_edges _ ∅ ∅) as [outs ins].
  destruct (hoist_concats _ ∅) as [words|e]; [|done]. cbn [rbind] in Hpre.
  destruct constraint as [tokens edges distances concats]. simpl in *.
  by destruct tokens.
Qed.

(** X16: [preprocess_constraint] returns only for a pattern without token
    constraints, and then returns the pattern as it is: with a token
    constraint it raises before anything is rebuilt. *)
Theorem preprocess_constraint_returns_only_without_tokens
    (constraint constraint' : Full.t) :
  preprocess_constraint constraint = Ok constraint' →
  Full.tokens constraint = [] ∧ constraint' = constraint.
Proof.
  unfold preprocess_constraint. intros Hpre.
  destruct (hoist_edges _ ∅ ∅) as [outs ins].
  destruct (hoist_concats _ ∅) as [words|e]; [|done]. cbn [rbind] in Hpre.
  destruct constraint as [tokens edges distances concats]. simpl in *.
  destruct tokens as [|token rest]; [|done].
  by injection Hpre as <-.
Qed.

Lemma py_get_dd_extend {V : Type} (d : gmap string (list V)) (k x : string)
    (l : list V) :
  py_get (dd_extend d k l) x []
  = if decide (k = x) then py_get d x [] ++ l else py_get d x [].
Proof.
  unfold py_get, dd_extend. destruct (decide (k = x)) as [->|Hne].
  - by rewrite lookup_insert_eq.
  - by rewrite lookup_insert_ne.
Qed.

(** X17: after the loop over the edges, [outs] holds for a variable what it
    held before followed by the label constraints of the edges that have
    this variable as child, in the order of the edges, and [ins] likewise
    for the edges that have it as parent; the edges on which the
    [HasNoLabel] test succeeds contribute nothing. *)
Theorem hoist_edges_collects (edges : list Edge.t)
    (outs ins : gmap string (list Label)) (x : string) :
  let hoisted :=
    filter (fun edge => isinstance_HasNoLabel (Edge.label edge) = false) edges in
  py_get (hoist_edges edges outs ins).1 x []
  = py_get outs x []
    ++ concat ((fun edge => iter_label (Edge.label edge))
               <$> filter (fun edge => Edge.child edge = x) hoisted)
  ∧ py_get (hoist_edges edges outs ins).2 x []
    = py_get ins x []
      ++ concat ((fun edge => iter_label (Edge.label edge))
                 <$> filter (fun edge => Edge.parent edge = x) hoisted).
Proof.
  revert outs ins. induction edges as [|edge rest IH]; intros outs ins.
  - cbn. by rewrite !app_nil_r.
  - cbn [hoist_edges].
    destruct (isinstance_HasNoLabel (Edge.label edge)) eqn:Hneg; cbn zeta.
    + rewrite filter_cons_False by (by rewrite Hneg). apply IH.
    + rewrite filter_cons_True by done.
      destruct (IH (dd_extend outs (Edge.child edge)
                      (iter_label (Edge.label edge)))
                   (dd_extend ins (Edge.parent edge)
                      (iter_label (Edge.label edge)))) as [Houts Hins].
      cbn zeta in Houts, Hins. rewrite Houts, Hins, !py_get_dd_extend.
      split.
      * destruct (decide (Edge.child edge = x)) as [Hx|Hx].
        -- rewrite filter_cons_True by done. cbn. by rewrite app_assoc.
        -- by rewrite filter_cons_False by done.
      * destruct (decide (Edge.parent edge = x)) as [Hx|Hx].
        -- rewrite filter_cons_True by done. cbn. by rewrite app_assoc.
        -- by rewrite filter_cons_False by done.
Qed.

Lemma init_loop_tokenless (constraints : list NamedConstraint.t)
    (spacy : list Token.t → Sentence.t → list (string * Z * Z))
    (matchers matchers' : odict string Matchers.t) :
  Matcher.init_loop constraints spacy matchers = Ok matchers' →
  Forall (fun c => Full.tokens (NamedConstraint.constraint c) = []) constraints.
Proof.
  revert matchers. induction constraints as [|c rest IH]; intros matchers Hinit;
    [done|].
  cbn [Matcher.init_loop] in Hinit.
  destruct (preprocess_constraint (NamedConstraint.constraint c))
    as [pre|e] eqn:Hpre; [|done].
  cbn [rbind] in Hinit. constructor; [|by eapply IH].
  by apply preprocess_constraint_tokenless in Hpre.
Qed.

(** X18: a [Matcher] can be built only from patterns none of which has a
    token constraint: [Matcher.__init__] preprocesses every pattern, and the
    first one with a token constraint makes it raise. *)
Theorem matcher_init_needs_tokenless_patterns
    (constraints : list NamedConstraint.t)
    (spacy : list Token.t → Sentence.t → list (string * Z * Z))
    (matcher : Matcher.t) :
  Matcher.init constraints spacy = Ok matcher →
  Forall (fun c => Full.tokens (NamedConstraint.constraint c) = []) constraints.
Proof.
  unfold Matcher.init. intros Hinit.
  destruct (Matcher.init_loop constraints spacy []) as [matchers|e] eqn:Hloop;
    [|done].
  by eapply init_loop_tokenless.
Qed.

End preprocess_properties.

(** X16 at work: a pattern of one negative edge and no token. *)
Lemma preprocess_constraint_returns_only_without_tokens_witness :
  let constraint :=
    Full.mk [] [Edge.mk "c" "p" (HasNoLabel ["nsubj"%string])] [] [] in
  Full.tokens constraint = [] ∧ constraint = constraint.
Proof.
  intros constraint.
  apply (preprocess_constraint_returns_only_without_tokens constraint
           constraint).
  reflexivity.
Defined.

(** X18 at work: one named pattern without tokens. *)
Lemma matcher_init_needs_tokenless_patterns_witness :
  Forall (fun c => Full.tokens (NamedConstraint.constraint c) = [])
    [NamedConstraint.mk "rule" (Full.mk [] [Examples.nsubj_edge] [] [])].
Proof.
  apply (matcher_init_needs_tokenless_patterns
           [NamedConstraint.mk "rule" (Full.mk [] [Examples.nsubj_edge] [] [])]
           (fun _ _ => [])
           (Matcher.mk
              [("rule"%string,
                Matchers.mk (TokenMatcher.init [] (fun _ => []))
                  (GlobalMatcher.init (Full.mk [] [Examples.nsubj_edge] [] [])))])).
  reflexivity.
Defined.

Section phrase_properties.

Lemma py_index_nat_inv {A : Type} (l : list A) (i : nat) (x : A) :
  py_index l (Z.of_nat i) = Ok x → l !! i = Some x.
Proof.
  unfold py_index.
  destruct (Z.ltb_spec (Z.of_nat i) 0) as [|_]; [lia|].
  destruct (Z.ltb_spec (Z.of_nat i) 0) as [|_]; [lia|].
  rewrite Nat2Z.id. by destruct (l !! i); intros [= ->].
Qed.

Lemma all_rows_nonempty (rows : list (list string)) :
  forallb (fun r => negb (bool_decide (r = []))) rows = true
  ↔ Forall (fun r => (0 < length r)%nat) rows.
Proof.
  induction rows as [|r rest IH]; [by split|].
  cbn [forallb]. rewrite andb_true_iff, IH, Forall_cons.
  destruct r; simpl; split; intros [? ?]; split; try done; lia.
Qed.

Lemma zip_star_step (fuel : nat) (rows : list (list string)) :
  rows ≠ [] →
  zip_star (S fuel) rows
  = if forallb (fun r => negb (bool_decide (r = []))) rows
    then omap head rows :: zip_star fuel (tail <$> rows)
    else [].
Proof. by destruct rows. Qed.

Lemma heads_of_rows (rows : list (list string)) :
  Forall (fun r => (0 < length r)%nat) rows →
  omap head rows = omap (fun r => r !! 0%nat) rows.
Proof.
  unfold omap. induction 1 as [|r rest Hr _ IH]; [done|].
  destruct r; [simpl in Hr; lia|]. simpl. by rewrite IH.
Qed.

Lemma tails_of_rows (rows : list (list string)) (i : nat) :
  omap (fun r => r !! i) (tail <$> rows) = omap (fun r => r !! S i) rows.
Proof.
  unfold omap, fmap. induction rows as [|r rest IH]; [done|].
  simpl. rewrite IH. by destruct r.
Qed.

Lemma zip_star_lookup (fuel : nat) (rows : list (list string)) (i : nat)
    (col : list string) :
  zip_star fuel rows !! i = Some col →
  rows ≠ [] ∧ Forall (fun r => (i < length r)%nat) rows
  ∧ col = omap (fun r => r !! i) rows.
Proof.
  revert rows i col. induction fuel as [|fuel IH]; intros rows i col; [done|].
  destruct (decide (rows = [])) as [->|Hne]; [done|].
  rewrite zip_star_step by done.
  destruct (forallb _ rows) eqn:Hall; [|done].
  apply all_rows_nonempty in Hall.
  destruct i as [|i]; cbn [lookup list_lookup].
  - intros [= <-]. split; [done|]. split; [done|]. by apply heads_of_rows.
  - intros Hcol. apply IH in Hcol as (_ & Hlen & ->). split; [done|]. split.
    + rewrite Forall_fmap in Hlen. eapply Forall_impl; [exact Hlen|].
      intros r Hr. destruct r; simpl in *; lia.
    + apply tails_of_rows.
Qed.

Lemma zip_star_total (fuel : nat) (rows : list (list string)) (i : nat) :
  rows ≠ [] → Forall (fun r => (i < length r)%nat) rows → (i < fuel)%nat →
  is_Some (zip_star fuel rows !! i).
Proof.
  revert fuel rows. induction i as [|i IH]; intros fuel rows Hne Hlen Hfuel;
    (destruct fuel as [|fuel]; [lia|]); rewrite zip_star_step by done.
  - rewrite (proj2 (all_rows_nonempty rows)) by done. by eexists.
  - rewrite (proj2 (all_rows_nonempty rows)).
    + cbn [lookup list_lookup]. apply IH; [by destruct rows| |lia].
      apply Forall_fmap. eapply Forall_impl; [exact Hlen|].
      intros r Hr. destruct r; simpl in *; lia.
    + eapply Forall_impl; [exact Hlen|]. simpl. lia.
Qed.

Lemma py_zip_star_total (rows : list (list string)) (i : nat) :
  rows ≠ [] → Forall (fun r => (i < length r)%nat) rows →
  is_Some (py_zip_star rows !! i).
Proof.
  intros Hne Hlen. apply zip_star_total; [done|done|].
  destruct rows as [|r rest]; [done|].
  apply Forall_cons in Hlen as [Hr _]. cbn [foldr]. lia.
Qed.

Lemma omap_of_fmap {A B C : Type} (f : A → B) (g : B → option C)
    (l : list A) :
  omap g (f <$> l) = omap (fun x => g (f x)) l.
Proof.
  unfold omap, fmap. induction l as [|x l IH]; [done|]. simpl. by rewrite IH.
Qed.

Lemma phrase_column_zip (concat : Concat.t) (i : nat) (col : list string) :
  py_index (py_zip_star (split_underscore <$> Concat.tuple_set concat))
    (Z.of_nat i) = Ok col →
  col = phrase_column i concat
  ∧ Concat.tuple_set concat ≠ []
  ∧ Forall (fun t => (i < length (split_underscore t))%nat)
           (Concat.tuple_set concat).
Proof.
  intros Hcol. apply py_index_nat_inv, zip_star_lookup in Hcol
    as (Hne & Hlen & ->).
  split; [|split].
  - unfold phrase_column. by rewrite omap_of_fmap.
  - by destruct (Concat.tuple_set concat).
  - by rewrite Forall_fmap in Hlen.
Qed.

(** X19: when the loop over the phrase constraints goes through, [words]
    holds for a variable what it held before followed by one list of words
    for each place the variable has in a phrase constraint, in the order of
    the constraints: the first words of the constraint's phrases where it
    is the first variable, the second words where it is the second, the
    third where it is the third of a triplet. *)
Theorem hoist_concats_collects (concats : list Concat.t)
    (words words' : gmap string (list (list string))) (x : string) :
  hoist_concats concats words = Ok words' →
  py_get words' x []
  = py_get words x [] ++ concat (columns_for x <$> concats).
Proof.
  revert words. induction concats as [|c rest IH]; intros words Hhoist.
  - injection Hhoist as <-. cbn. by rewrite app_nil_r.
  - cbn [hoist_concats] in Hhoist. cbn zeta in Hhoist.
    destruct (py_index _ 0) as [w0|e] eqn:H0; [|done]. cbn [rbind] in Hhoist.
    destruct (py_index _ 1) as [w1|e] eqn:H1; [|done]. cbn [rbind] in Hhoist.
    apply (phrase_column_zip c 0%nat) in H0 as [-> _].
    apply (phrase_column_zip c 1%nat) in H1 as [-> _].
    rewrite fmap_cons. cbn [concat]. unfold columns_for at 1.
    destruct c as [set t1 t2|set t1 t2 t3];
      cbn [Concat.token1 Concat.token2] in *.
    + apply IH in Hhoist. rewrite Hhoist, !py_get_dd_extend.
      destruct (decide (t1 = x)), (decide (t2 = x)); cbn;
        by rewrite <- ?app_assoc.
    + destruct (py_index _ 2) as [w2|e] eqn:H2; [|done]. cbn [rbind] in Hhoist.
      apply (phrase_column_zip (Concat.TokenTriplet set t1 t2 t3) 2%nat) in H2
        as [-> _].
      apply IH in Hhoist. rewrite Hhoist, !py_get_dd_extend.
      destruct (decide (t1 = x)), (decide (t2 = x)), (decide (t3 = x)); cbn;
        by rewrite <- ?app_assoc.
Qed.

(** X20: the loop over the phrase constraints goes through exactly when
    every phrase constraint has at least one phrase and each of its phrases
    has at least as many [_]-separated words as the constraint has
    variables; otherwise [zipped_concat[i]] raises [IndexError]. *)
Theorem hoist_concats_succeeds_iff (concats : list Concat.t)
    (words : gmap string (list (list string))) :
  (∃ words', hoist_concats concats words = Ok words')
  ↔ Forall (fun concat =>
       Concat.tuple_set concat ≠ []
       ∧ Forall (fun t => (phrase_arity concat ≤ length (split_underscore t))%nat)
                (Concat.tuple_set concat)) concats.
Proof.
  revert words. induction concats as [|concat rest IH]; intros words.
  - split; [done|]. intros _. by eexists.
  - rewrite Forall_cons. cbn [hoist_concats]. cbn zeta. split.
    + intros [words' Hhoist].
      destruct (py_index _ 0) as [w0|e] eqn:H0; [|done]. cbn [rbind] in Hhoist.
      destruct (py_index _ 1) as [w1|e] eqn:H1; [|done]. cbn [rbind] in Hhoist.
      apply (phrase_column_zip concat 1%nat) in H1 as (_ & Hne & Hlen).
      destruct concat as [set t1 t2|set t1 t2 t3].
      * split; [|eapply (proj1 (IH _)); by eexists]. split; [done|].
        eapply Forall_impl; [exact Hlen|]. simpl. lia.
      * destruct (py_index _ 2) as [w2|e] eqn:H2; [|done].
        cbn [rbind] in Hhoist.
        apply (phrase_column_zip (Concat.TokenTriplet set t1 t2 t3) 2%nat)
          in H2 as (_ & _ & Hlen2).
        split; [|eapply (proj1 (IH _)); by eexists]. split; [done|].
        eapply Forall_impl; [exact Hlen2|]. simpl. lia.
    + intros [[Hne Hlen] Hrest].
      assert (Hcol : ∀ i, (i < phrase_arity concat)%nat →
        ∃ col, py_index (py_zip_star (split_underscore <$> Concat.tuple_set concat))
                 (Z.of_nat i) = Ok col).
      { intros i Hi.
        destruct (py_zip_star_total (split_underscore <$> Concat.tuple_set concat) i)
          as [col Hcol].
        - by destruct (Concat.tuple_set concat).
        - apply Forall_fmap. eapply Forall_impl; [exact Hlen|]. simpl. lia.
        - exists col. by apply py_index_lookup. }
      destruct (Hcol 0%nat) as [w0 H0]; [destruct concat; simpl; lia|].
      destruct (Hcol 1%nat) as [w1 H1]; [destruct concat; simpl; lia|].
      change (Z.of_nat 0) with 0 in H0. change (Z.of_nat 1) with 1 in H1.
      rewrite H0, H1. cbn [rbind].
      destruct concat as [set t1 t2|set t1 t2 t3].
      * by apply (proj2 (IH _)).
      * destruct (Hcol 2%nat) as [w2 H2]; [simpl; lia|].
        change (Z.of_nat 2) with 2 in H2. rewrite H2. cbn [rbind].
        by apply (proj2 (IH _)).
Qed.

(** Splitting a string at every [_] and joining the parts with [_]
    gives the string back, so a phrase is recovered from the words
    [preprocess_constraint] takes it apart into. *)
Theorem join_split_underscore (s : string) :
  join_underscore (split_underscore s) = s.
Proof.
  induction s as [|c s IH]; [done|]. cbn [split_underscore].
  destruct (Ascii.eqb_spec c "_"%char) as [->|Hc].
  - destruct (split_underscore s) as [|w ws] eqn:Hsplit; [by destruct s|].
    cbn [join_underscore]. by rewrite <- IH.
  - destruct (split_underscore s) as [|w ws] eqn:Hsplit.
    + destruct s as [|c' s']; [done|]. cbn [split_underscore] in Hsplit.
      destruct (Ascii.eqb c' "_"%char); [done|].
      by destruct (split_underscore s').
    + rewrite <- IH. destruct ws; done.
Qed.

End phrase_properties.

(** X19 at work: the pair [a], [b] with the phrases [New_York] and
    [Tel_Aviv]; [a] gets the first words. *)
Lemma hoist_concats_collects_witness :
  let concats := [Concat.TokenPair ["New_York"; "Tel_Aviv"]%string "a" "b"] in
  ∃ words', hoist_concats concats ∅ = Ok words'
            ∧ py_get words' "a" [] = [["New"; "Tel"]%string].
Proof.
  intros concats.
  exists {[ "a"%string := [["New"; "Tel"]%string];
            "b"%string := [["York"; "Aviv"]%string] ]}.
  assert (Hhoist : hoist_concats concats ∅
                   = Ok {[ "a"%string := [["New"; "Tel"]%string];
                           "b"%string := [["York"; "Aviv"]%string] ]})
    by reflexivity.
  split; [exact Hhoist|].
  exact (hoist_concats_collects concats ∅ _ "a" Hhoist).
Defined.

(** * Further properties of the CoNLL-U wrapper *)

Section odict_updates.
Context {K V : Type} `{EqDecision K}.

Lemma od_get_set (k k' : K) (v : V) (d : odict K V) :
  od_get k' (od_set k v d) = if decide (k' = k) then Some v else od_get k' d.
Proof.
  induction d as [|[k0 v0] d IH]; simpl.
  - by destruct (decide (k' = k)).
  - destruct (decide (k = k0)) as [->|Hne]; simpl.
    + by destruct (decide (k' = k0)).
    + destruct (decide (k' = k0)) as [->|Hne'].
      * by rewrite decide_False by done.
      * exact IH.
Qed.

Lemma od_keys_set (k : K) (v : V) (d : odict K V) :
  is_Some (od_get k d) → od_keys (od_set k v d) = od_keys d.
Proof.
  unfold od_keys. induction d as [|[k0 v0] d IH]; simpl.
  - by intros [? ?].
  - destruct (decide (k = k0)) as [->|Hne]; [done|].
    intros Hsome. rewrite !fmap_cons. f_equal. by apply IH.
Qed.

End odict_updates.

Section exchange_pointers_properties.

(** One round of the loop of [exchange_pointers] for a token [cur] whose
    head is the token [h]: what each token looks like afterwards. *)
Lemma link_lookup (sentence : odict Z Conllu.Node) (cur h : Z)
    (token head_node : Conllu.Node) :
  od_get cur sentence = Some token →
  od_get h (od_set cur (ConlluFile.with_head_pointer token h) sentence)
  = Some head_node →
  ∀ id,
    od_get id (od_set h (ConlluFile.with_child head_node cur)
                 (od_set cur (ConlluFile.with_head_pointer token h) sentence))
    = (fun node =>
         Conllu.mkNode (Conllu.conllu_info node)
           (if decide (id = cur) then Some h else Conllu.head_pointer node)
           (Conllu.children_list node ++ if decide (id = h) then [cur] else [])
           (Conllu.new_deps node))
      <$> od_get id sentence.
Proof.
  intros Hcur Hhead id. rewrite od_get_set in Hhead. rewrite !od_get_set.
  destruct (decide (id = h)) as [->|Hh].
  - destruct (decide (h = cur)) as [->|Hc].
    + injection Hhead as <-. by rewrite Hcur.
    + by rewrite Hhead.
  - destruct (decide (id = cur)) as [->|Hc].
    + rewrite Hcur. simpl. by rewrite app_nil_r.
    + destruct (od_get id sentence) as [[? ? ? ?]|]; [|done].
      simpl. by rewrite app_nil_r.
Qed.

Lemma link_keys (sentence : odict Z Conllu.Node) (cur h : Z)
    (token head_node : Conllu.Node) :
  od_get cur sentence = Some token →
  od_get h (od_set cur (ConlluFile.with_head_pointer token h) sentence)
  = Some head_node →
  od_keys (od_set h (ConlluFile.with_child head_node cur)
             (od_set cur (ConlluFile.with_head_pointer token h) sentence))
  = od_keys sentence.
Proof.
  intros Hcur Hhead.
  rewrite od_keys_set by by rewrite Hhead.
  apply od_keys_set. by rewrite Hcur.
Qed.

Lemma exchange_loop_frame (ids : list Z) (sentence : odict Z Conllu.Node) :
  od_keys (ConlluFile.exchange_loop ids sentence).2 = od_keys sentence
  ∧ ∀ id,
      Conllu.conllu_info <$> od_get id (ConlluFile.exchange_loop ids sentence).2
      = Conllu.conllu_info <$> od_get id sentence
      ∧ Conllu.new_deps <$> od_get id (ConlluFile.exchange_loop ids sentence).2
        = Conllu.new_deps <$> od_get id sentence.
Proof.
  revert sentence. induction ids as [|cur rest IH]; intros sentence; [done|].
  cbn [ConlluFile.exchange_loop].
  destruct (od_get cur sentence) as [token|] eqn:Hcur; [|done].
  destruct (ConlluFile.differs_from_zero _); [|apply IH].
  destruct (ConlluFile.sentence_getitem sentence _) as [[h hn]|e]; [|done].
  destruct (od_get h (od_set cur _ sentence)) as [head_node|] eqn:Hhead.
  - destruct (IH (od_set h (ConlluFile.with_child head_node cur)
                    (od_set cur (ConlluFile.with_head_pointer token h) sentence)))
      as [Hkeys Hinfo].
    split.
    + rewrite Hkeys. by eapply link_keys.
    + intros id. destruct (Hinfo id) as [-> ->].
      rewrite (link_lookup _ _ _ _ _ Hcur Hhead id).
      by destruct (od_get id sentence).
  - simpl. split.
    + apply od_keys_set. by rewrite Hcur.
    + intros id. rewrite od_get_set. destruct (decide (id = cur)) as [->|?];
        [by rewrite Hcur | done].
Qed.

(** X22: [exchange_pointers] never adds, removes or reorders tokens and
    never touches a token's [conllu_info] or [new_deps], whether it returns
    or raises: only [head_pointer] and [children_list] change. *)
Theorem exchange_pointers_frame (sentence : odict Z Conllu.Node) (id : Z) :
  let sentence' := (ConlluFile.exchange_pointers sentence).2 in
  od_keys sentence' = od_keys sentence
  ∧ Conllu.conllu_info <$> od_get id sentence'
    = Conllu.conllu_info <$> od_get id sentence
  ∧ Conllu.new_deps <$> od_get id sentence'
    = Conllu.new_deps <$> od_get id sentence.
Proof.
  intros sentence'. unfold sentence', ConlluFile.exchange_pointers.
  destruct (exchange_loop_frame (od_keys sentence) sentence) as [Hkeys Hinfo].
  split; [done|]. apply Hinfo.
Qed.

End exchange_pointers_properties.

Section exchange_pointers_link_facts.

Lemma head_target_same_info (sentence sentence' : odict Z Conllu.Node) :
  (∀ id, Conllu.conllu_info <$> od_get id sentence'
         = Conllu.conllu_info <$> od_get id sentence) →
  ∀ c, head_target sentence' c = head_target sentence c.
Proof.
  intros Hinfo c. unfold head_target. specialize (Hinfo c).
  destruct (od_get c sentence') as [n'|], (od_get c sentence) as [n|];
    simpl in Hinfo; try done.
  by injection Hinfo as ->.
Qed.

Lemma differs_from_zero_false (v : Conllu.PyVal) :
  ConlluFile.differs_from_zero v = false → v = Conllu.PyInt 0.
Proof.
  destruct v as [|n|s]; simpl; try done.
  destruct (Z.eqb_spec n 0) as [->|]; done.
Qed.

Lemma sentence_getitem_ok (sentence : odict Z Conllu.Node)
    (key : Conllu.PyVal) (h : Z) (node : Conllu.Node) :
  ConlluFile.sentence_getitem sentence key = Ok (h, node) →
  key = Conllu.PyInt h ∧ od_get h sentence = Some node.
Proof.
  destruct key as [|n|s]; simpl; try done.
  destruct (od_get n sentence) as [node'|] eqn:Hn; [|done].
  by intros [= <- <-].
Qed.

Lemma exchange_loop_links (ids : list Z)
    (sentence sentence' : odict Z Conllu.Node) (id : Z) :
  ConlluFile.exchange_loop ids sentence = (None, sentence') →
  od_get id sentence'
  = (fun node =>
       Conllu.mkNode (Conllu.conllu_info node)
         (if decide (id ∈ ids)
          then match head_target sentence id with
               | Some h => Some h
               | None => Conllu.head_pointer node
               end
          else Conllu.head_pointer node)
         (Conllu.children_list node
          ++ filter (fun c => head_target sentence c = Some id) ids)
         (Conllu.new_deps node))
    <$> od_get id sentence.
Proof.
  revert sentence. induction ids as [|cur rest IH]; intros sentence Hloop.
  - injection Hloop as <-. destruct (od_get id sentence) as [[? ? ? ?]|];
      [|done].
    simpl. by rewrite app_nil_r.
  - cbn [ConlluFile.exchange_loop] in Hloop.
    destruct (od_get cur sentence) as [token|] eqn:Hcur; [|done].
    destruct (ConlluFile.differs_from_zero _) eqn:Hdiff.
    + destruct (ConlluFile.sentence_getitem sentence _) as [[h hn]|e] eqn:Hget;
        [|done].
      apply sentence_getitem_ok in Hget as [Hhead Hh].
      destruct (od_get h (od_set cur _ sentence)) as [head_node|] eqn:Hnode;
        [|done].
      assert (Htarget : head_target sentence cur = Some h).
      { unfold head_target. rewrite Hcur, Hhead.
        rewrite Hhead in Hdiff. simpl in Hdiff.
        by destruct (h =? 0). }
      rewrite (IH _ Hloop).
      assert (Hsame : ∀ c,
        head_target (od_set h (ConlluFile.with_child head_node cur)
                       (od_set cur (ConlluFile.with_head_pointer token h)
                          sentence)) c
        = head_target sentence c).
      { apply head_target_same_info. intros c.
        rewrite (link_lookup _ _ _ _ _ Hcur Hnode c).
        by destruct (od_get c sentence). }
      rewrite (link_lookup _ _ _ _ _ Hcur Hnode id).
      destruct (od_get id sentence) as [[info hp children deps]|]; [|done].
      simpl. f_equal. rewrite Hsame.
      assert (Hfilter :
        filter (fun c => head_target (od_set h
                   (ConlluFile.with_child head_node cur)
                   (od_set cur (ConlluFile.with_head_pointer token h) sentence))
                   c = Some id) rest
        = filter (fun c => head_target sentence c = Some id) rest).
      { apply list_filter_iff. intros c. by rewrite Hsame. }
      rewrite Hfilter. f_equal.
      * destruct (decide (id = cur)) as [->|Hne].
        -- rewrite Htarget. rewrite (decide_True (P := cur ∈ cur :: rest))
             by by left.
           by destruct (decide (cur ∈ rest)).
        -- destruct (decide (id ∈ rest)) as [Hin|Hnotin].
           ++ by rewrite decide_True by by right.
           ++ rewrite decide_False; [done|].
              intros [?|?]%elem_of_cons; done.
      * rewrite <- app_assoc. f_equal.
        destruct (decide (id = h)) as [->|Hne].
        -- by rewrite filter_cons_True by done.
        -- rewrite filter_cons_False; [done|]. rewrite Htarget. congruence.
    + apply differs_from_zero_false in Hdiff.
      assert (Htarget : head_target sentence cur = None).
      { unfold head_target. by rewrite Hcur, Hdiff. }
      rewrite (IH _ Hloop).
      destruct (od_get id sentence) as [[info hp children deps]|]; [|done].
      simpl. f_equal. f_equal.
      * destruct (decide (id = cur)) as [->|Hne].
        -- rewrite Htarget. rewrite (decide_True (P := cur ∈ cur :: rest))
             by by left.
           by destruct (decide (cur ∈ rest)).
        -- destruct (decide (id ∈ rest)) as [Hin|Hnotin].
           ++ by rewrite decide_True by by right.
           ++ rewrite decide_False; [done|].
              intros [?|?]%elem_of_cons; done.
      * rewrite filter_cons_False; [done|]. by rewrite Htarget.
Qed.

End exchange_pointers_link_facts.

Section exchange_pointers_results.

(** X23: when [exchange_pointers] returns, every token whose head column is
    a non-zero id has this id as [head_pointer] (the root, with head 0,
    keeps the pointer it had), and the [children_list] of every token is
    what it was followed by the ids of the tokens whose head it is, in the
    order of the sentence. *)
Theorem exchange_pointers_links (sentence sentence' : odict Z Conllu.Node)
    (id : Z) (node : Conllu.Node) :
  ConlluFile.exchange_pointers sentence = (None, sentence') →
  od_get id sentence = Some node →
  ∃ node',
    od_get id sentence' = Some node'
    ∧ Conllu.head_pointer node'
      = match head_target sentence id with
        | Some h => Some h
        | None => Conllu.head_pointer node
        end
    ∧ Conllu.children_list node'
      = Conllu.children_list node
        ++ filter (fun c => head_target sentence c = Some id) (od_keys sentence).
Proof.
  unfold ConlluFile.exchange_pointers. intros Hloop Hnode.
  rewrite (exchange_loop_links _ _ _ id Hloop), Hnode. eexists.
  split; [done|]. simpl. split; [|done].
  rewrite decide_True; [done|].
  destruct (decide (id ∈ od_keys sentence)) as [|Hnot]; [done|].
  apply od_get_keys in Hnot. congruence.
Qed.

Lemma head_resolves_transfer (sentence sentence' : odict Z Conllu.Node) :
  (∀ id, Conllu.conllu_info <$> od_get id sentence'
         = Conllu.conllu_info <$> od_get id sentence) →
  ∀ c, head_resolves sentence c → head_resolves sentence' c.
Proof.
  intros Hinfo c (node & Hnode & h & Hhead & Hh).
  pose proof (Hinfo c) as Hc. rewrite Hnode in Hc.
  destruct (od_get c sentence') as [node'|] eqn:Hnode'; [|done].
  injection Hc as Hc. exists node'. split; [done|]. exists h.
  rewrite Hc. split; [done|].
  destruct Hh as [?|[hn Hh]]; [by left|right].
  specialize (Hinfo h). rewrite Hh in Hinfo.
  by destruct (od_get h sentence').
Qed.

Lemma head_resolves_same (sentence sentence' : odict Z Conllu.Node) :
  (∀ id, Conllu.conllu_info <$> od_get id sentence'
         = Conllu.conllu_info <$> od_get id sentence) →
  ∀ c, head_resolves sentence' c ↔ head_resolves sentence c.
Proof.
  intros Hinfo c. split; apply head_resolves_transfer; [|done].
  intros id. by rewrite Hinfo.
Qed.

Lemma exchange_loop_returns_iff (ids : list Z) (sentence : odict Z Conllu.Node) :
  (ConlluFile.exchange_loop ids sentence).1 = None
  ↔ Forall (head_resolves sentence) ids.
Proof.
  revert sentence. induction ids as [|cur rest IH]; intros sentence; [done|].
  rewrite Forall_cons. cbn [ConlluFile.exchange_loop].
  destruct (od_get cur sentence) as [token|] eqn:Hcur.
  2:{ split; [done|]. intros [(node & Hnode & _) _]. congruence. }
  destruct (ConlluFile.differs_from_zero _) eqn:Hdiff.
  - destruct (ConlluFile.sentence_getitem sentence _) as [[h hn]|e] eqn:Hget.
    + apply sentence_getitem_ok in Hget as [Hhead Hh].
      destruct (od_get h (od_set cur _ sentence)) as [head_node|] eqn:Hnode.
      * rewrite IH.
        rewrite (Forall_iff _ rest (head_resolves sentence)).
        -- split; [|by intros [_ ?]]. intros Hrest. split; [|done].
           exists token. split; [done|]. exists h. split; [done|].
           right. by rewrite Hh.
        -- apply head_resolves_same. intros id.
           rewrite (link_lookup _ _ _ _ _ Hcur Hnode id).
           by destruct (od_get id sentence).
      * rewrite od_get_set in Hnode. destruct (decide (h = cur)); congruence.
    + split; [done|]. intros [(node & Hnode & h & Hhead & Hh) _].
      rewrite Hcur in Hnode. injection Hnode as <-.
      rewrite Hhead in Hget, Hdiff. simpl in Hget, Hdiff.
      destruct Hh as [->|[hn Hh]]; [done|]. by rewrite Hh in Hget.
  - apply differs_from_zero_false in Hdiff. rewrite IH.
    split; [|by intros [_ ?]]. intros Hrest. split; [|done].
    exists token. split; [done|]. exists 0. split; [done|]. by left.
Qed.

(** X24: [exchange_pointers] returns exactly when the head column of every
    token is an int that is 0 or the id of a token of the sentence;
    otherwise it raises ([KeyError] at [sentence[currents_head]]). *)
Theorem exchange_pointers_returns_iff (sentence : odict Z Conllu.Node) :
  (ConlluFile.exchange_pointers sentence).1 = None
  ↔ Forall (head_resolves sentence) (od_keys sentence).
Proof. apply exchange_loop_returns_iff. Qed.

End exchange_pointers_results.

(** X23 at work: token 1 has head 2, token 2 is the root. *)
Lemma exchange_pointers_links_witness :
  let info (id head : Z) :=
    Conllu.mkConlluInfo (Conllu.PyInt id) (Conllu.PyStr "w") (Conllu.PyStr "w")
      (Conllu.PyStr "X") (Conllu.PyStr "X") (Conllu.PyStr "_")
      (Conllu.PyInt head) (Conllu.PyStr "dep") (Conllu.PyStr "_")
      (Conllu.PyStr "_") in
  let fresh (id head : Z) :=
    Conllu.mkNode (info id head) None [] (false, [(head, "dep"%string)]) in
  let sentence := [(1, fresh 1 2); (2, fresh 2 0)] in
  ∃ node',
    od_get 2 (ConlluFile.exchange_pointers sentence).2 = Some node'
    ∧ Conllu.head_pointer node' = None
    ∧ Conllu.children_list node' = [1].
Proof.
  intros info fresh sentence.
  exact (exchange_pointers_links sentence
           (ConlluFile.exchange_pointers sentence).2 2 (fresh 2 0)
           eq_refl eq_refl).
Defined.

Section replace_properties.

(** X25: two calls of [replace_conllu_info] in a row amount to one call:
    for each field the argument of the second call counts if it is truthy,
    else the argument of the first. So a call repeated with the same
    arguments changes nothing more, and a call whose arguments are all
    omitted changes nothing. *)
Theorem replace_conllu_info_twice (node : Conllu.Node)
    (a1 a2 a3 a4 a5 a6 a7 a8 a9 a10 b1 b2 b3 b4 b5 b6 b7 b8 b9 b10
       : Conllu.PyVal) :
  Conllu.replace_conllu_info
    (Conllu.replace_conllu_info node a1 a2 a3 a4 a5 a6 a7 a8 a9 a10)
    b1 b2 b3 b4 b5 b6 b7 b8 b9 b10
  = Conllu.replace_conllu_info node
      (Conllu.keep_unless a1 b1) (Conllu.keep_unless a2 b2)
      (Conllu.keep_unless a3 b3) (Conllu.keep_unless a4 b4)
      (Conllu.keep_unless a5 b5) (Conllu.keep_unless a6 b6)
      (Conllu.keep_unless a7 b7) (Conllu.keep_unless a8 b8)
      (Conllu.keep_unless a9 b9) (Conllu.keep_unless a10 b10)
  ∧ Conllu.replace_conllu_info
      (Conllu.replace_conllu_info node a1 a2 a3 a4 a5 a6 a7 a8 a9 a10)
      a1 a2 a3 a4 a5 a6 a7 a8 a9 a10
    = Conllu.replace_conllu_info node a1 a2 a3 a4 a5 a6 a7 a8 a9 a10
  ∧ Conllu.replace_conllu_info node Conllu.PyNone Conllu.PyNone Conllu.PyNone
      Conllu.PyNone Conllu.PyNone Conllu.PyNone Conllu.PyNone Conllu.PyNone
      Conllu.PyNone Conllu.PyNone
    = node.
Proof.
  assert (Hcompose : ∀ old a b,
    Conllu.keep_unless (Conllu.keep_unless old a) b
    = Conllu.keep_unless old (Conllu.keep_unless a b)).
  { intros old a b. unfold Conllu.keep_unless.
    destruct (Conllu.truthy b) eqn:Hb; simpl; [by rewrite Hb|done]. }
  assert (Hsame : ∀ old a,
    Conllu.keep_unless (Conllu.keep_unless old a) a = Conllu.keep_unless old a).
  { intros old a. unfold Conllu.keep_unless.
    destruct (Conllu.truthy a) eqn:Ha; simpl; by rewrite ?Ha. }
  split; [|split].
  - unfold Conllu.replace_conllu_info. simpl. by rewrite !Hcompose.
  - unfold Conllu.replace_conllu_info. simpl. by rewrite !Hsame.
  - by destruct node as [[? ? ? ? ? ? ? ? ? ?] ? ? ?].
Qed.

End replace_properties.

Section parse_properties.

Lemma parse_token_unlinked (line : string)
    (sentence sentence' : odict Z Conllu.Node) :
  ConlluFile.parse_token line sentence = Ok sentence' →
  unlinked sentence → unlinked sentence'.
Proof.
  unfold ConlluFile.parse_token. intros Hparse Hsentence.
  destruct (take 10 (ConlluFile.py_split line))
    as [|c1 [|c2 [|c3 [|c4 [|c5 [|c6 [|c7 [|c8 [|c9 [|c10 [|c11 more]]]]]]]]]]];
    try done.
  destruct (ConlluFile.contains "-" c1); [done|].
  destruct (String.eqb_spec c9 "_") as [->|Hdeps]; [|done]. cbn [negb orb] in Hparse.
  destruct (ConlluFile.contains "." c1); [done|].
  destruct (ConlluFile.py_int c1) as [n|e]; [|done]. cbn [rbind] in Hparse.
  destruct (ConlluFile.py_int c7) as [h|e]; [|done]. cbn [rbind] in Hparse.
  injection Hparse as <-. intros id node. rewrite od_get_set.
  destruct (decide (id = n)) as [->|Hne]; [|apply Hsentence].
  intros [= <-]. split; [|done].
  exists c2, c3, c4, (if String.eqb c5 "_" then c4 else c5), c6, h, c8, c10.
  split; [done|]. split; [done|].
  destruct (String.eqb_spec c5 "_") as [->|Hx]; [|done].
  intros ->. done.
Qed.

Lemma parse_lines_unlinked (lines comments comments' : list string)
    (sentence sentence' : odict Z Conllu.Node) :
  ConlluFile.parse_lines lines comments sentence = Ok (comments', sentence') →
  unlinked sentence →
  unlinked sentence'
  ∧ comments'
    = comments ++ filter (fun line => ConlluFile.starts_with_hash line = true) lines.
Proof.
  revert comments sentence. induction lines as [|line rest IH];
    intros comments sentence Hparse Hsentence.
  - injection Hparse as <- <-. by rewrite app_nil_r.
  - cbn [ConlluFile.parse_lines] in Hparse.
    destruct (ConlluFile.starts_with_hash line) eqn:Hhash.
    + destruct (IH _ _ Hparse Hsentence) as [Hunlinked ->].
      split; [done|]. rewrite filter_cons_True by done. by rewrite <- app_assoc.
    + destruct (ConlluFile.parse_token line sentence) as [sentence1|e] eqn:Htoken;
        [|done].
      cbn [rbind] in Hparse.
      destruct (IH _ _ Hparse (parse_token_unlinked _ _ _ Htoken Hsentence))
        as [Hunlinked ->].
      split; [done|]. rewrite filter_cons_False; [done|]. by rewrite Hhash.
Qed.

Lemma exchange_pointers_linked (sentence sentence' : odict Z Conllu.Node) :
  ConlluFile.exchange_pointers sentence = (None, sentence') →
  unlinked sentence → linked_sentence sentence'.
Proof.
  intros Hexchange Hunlinked id node' Hnode'.
  unfold ConlluFile.exchange_pointers in Hexchange.
  pose proof (exchange_loop_frame (od_keys sentence) sentence) as Hframe.
  rewrite Hexchange in Hframe. cbn [snd] in Hframe.
  destruct Hframe as [Hkeys Hframe].
  assert (Hinfo : ∀ c, Conllu.conllu_info <$> od_get c sentence'
                       = Conllu.conllu_info <$> od_get c sentence)
    by (intros c; apply (Hframe c)).
  assert (Htarget : ∀ c, head_target sentence' c = head_target sentence c)
    by by apply head_target_same_info.
  destruct (od_get id sentence) as [node|] eqn:Hnode.
  2:{ specialize (Hinfo id). by rewrite Hnode, Hnode' in Hinfo. }
  destruct (Hunlinked id node Hnode) as ((f & l & u & x & fe & h & d & m
                                          & Hci & Hdeps & Hx) & Hhp & Hch).
  assert (Hid : id ∈ od_keys sentence).
  { destruct (decide (id ∈ od_keys sentence)) as [|Hnot]; [done|].
    apply od_get_keys in Hnot. congruence. }
  pose proof (exchange_loop_links _ _ _ id Hexchange) as Hlinks.
  rewrite Hnode, Hnode' in Hlinks. injection Hlinks as Hlinks.
  assert (Hhp' : Conllu.head_pointer node'
                 = match head_target sentence id with
                   | Some h => Some h
                   | None => Conllu.head_pointer node
                   end).
  { rewrite Hlinks. simpl. by rewrite decide_True. }
  assert (Hch' : Conllu.children_list node'
                 = Conllu.children_list node
                   ++ filter (fun c => head_target sentence c = Some id)
                        (od_keys sentence)).
  { by rewrite Hlinks. }
  clear Hlinks.
  destruct (Hframe id) as (Hci' & Hnd'). rewrite Hnode, Hnode' in Hci', Hnd'.
  injection Hci' as Hci'. injection Hnd' as Hnd'.
  split; [|split; [|split]].
  - exists f, l, u, x, fe, h, d, m. by rewrite Hci', Hnd'.
  - apply (head_resolves_same sentence sentence' Hinfo).
    pose proof (proj1 (exchange_loop_returns_iff (od_keys sentence) sentence))
      as Hall.
    rewrite Hexchange in Hall. specialize (Hall eq_refl).
    rewrite Forall_forall in Hall. by apply Hall.
  - rewrite Hhp', Htarget, Hhp. by destruct (head_target sentence id).
  - rewrite Hch', Hch, Hkeys. cbn [app].
    apply list_filter_iff. intros c. by rewrite Htarget.
Qed.

Lemma parse_sentence_linked (sent : string)
    (sentence : odict Z Conllu.Node) (comments : list string) :
  ConlluFile.parse_sentence sent = Ok (Some (sentence, comments)) →
  linked_sentence sentence
  ∧ Forall (fun line => ConlluFile.starts_with_hash line = true) comments.
Proof.
  unfold ConlluFile.parse_sentence. intros Hparse.
  destruct (ConlluFile.split_lines (ConlluFile.py_strip sent)) as [|l ls];
    [done|].
  destruct (ConlluFile.parse_lines (l :: ls) [] []) as [[cs parsed]|e] eqn:Hlines;
    [|done].
  cbn [rbind snd fst] in Hparse.
  destruct (ConlluFile.exchange_pointers parsed) as [[e|] linked] eqn:Hexchange;
    [done|].
  injection Hparse as <- <-.
  destruct (parse_lines_unlinked _ _ _ _ _ Hlines) as [Hunlinked ->]; [done|].
  split; [by eapply exchange_pointers_linked|].
  cbn [app]. apply Forall_forall. intros line Hin.
  by apply list_elem_of_filter in Hin as [? _].
Qed.

Lemma parse_sentences_linked (sents : list string)
    (sentences sentences' : list (odict Z Conllu.Node))
    (all_comments all_comments' : list (list string)) :
  ConlluFile.parse_sentences sents sentences all_comments
  = Ok (sentences', all_comments') →
  length sentences = length all_comments →
  Forall linked_sentence sentences →
  Forall (Forall (fun line => ConlluFile.starts_with_hash line = true))
    all_comments →
  length sentences' = length all_comments'
  ∧ Forall linked_sentence sentences'
  ∧ Forall (Forall (fun line => ConlluFile.starts_with_hash line = true))
      all_comments'.
Proof.
  revert sentences all_comments. induction sents as [|sent rest IH];
    intros sentences all_comments Hparse Hlen Hlinked Hcomments.
  - by injection Hparse as <- <-.
  - cbn [ConlluFile.parse_sentences] in Hparse.
    destruct (ConlluFile.parse_sentence sent) as [[[s cs]|]|e] eqn:Hsent;
      cbn [rbind] in Hparse; [| by eapply IH | done].
    apply parse_sentence_linked in Hsent as [Hs Hcs].
    eapply IH; [exact Hparse| | |].
    + rewrite !length_app. simpl. lia.
    + apply Forall_app. by split; [|constructor].
    + apply Forall_app. by split; [|constructor].
Qed.

(** X26: when [parse_conllu] returns, it returns as many comment lists as
    sentences; every comment starts with [#]; and in every sentence each
    token has int id and head columns, the key it is stored under as id,
    [_] as deps column, its head and deprel as the one entry of [new_deps],
    a head that is 0 or the id of a token of the sentence, the token its
    head names as [head_pointer] (none for head 0), and as [children_list]
    the tokens whose head it is, in the order of the sentence. *)
Theorem parse_conllu_sentences_linked (text : string)
    (sentences : list (odict Z Conllu.Node)) (all_comments : list (list string)) :
  ConlluFile.parse_conllu text = Ok (sentences, all_comments) →
  length sentences = length all_comments
  ∧ Forall linked_sentence sentences
  ∧ Forall (Forall (fun line => ConlluFile.starts_with_hash line = true))
      all_comments.
Proof.
  unfold ConlluFile.parse_conllu. intros Hparse.
  by eapply parse_sentences_linked.
Qed.

(** X27: a text that is empty or holds white space only is not parsed into
    an empty list of sentences: [parse_conllu] raises the [ValueError] of
    unpacking the columns of an empty line. *)
Theorem parse_conllu_blank_text_raises (text : string) :
  ConlluFile.py_strip text = EmptyString →
  ConlluFile.parse_conllu text
  = Raise (ValueError "not enough values to unpack (expected 10, got 0)").
Proof. unfold ConlluFile.parse_conllu. by intros ->. Qed.

End parse_properties.

Section parse_errors.

Lemma parse_token_short (line : string) (sentence : odict Z Conllu.Node) :
  (length (ConlluFile.py_split line) < 10)%nat →
  ConlluFile.parse_token line sentence
  = Raise (ValueError ("not enough values to unpack (expected 10, got "
                       +:+ pretty (length (ConlluFile.py_split line)) +:+ ")")).
Proof.
  intros Hshort. unfold ConlluFile.parse_token.
  rewrite take_ge by lia.
  destruct (ConlluFile.py_split line)
    as [|c1 [|c2 [|c3 [|c4 [|c5 [|c6 [|c7 [|c8 [|c9 [|c10 more]]]]]]]]]];
    try done.
  simpl in Hshort. lia.
Qed.

Lemma parse_token_bad_columns (line : string) (sentence : odict Z Conllu.Node)
    (c1 c2 c3 c4 c5 c6 c7 c8 c9 c10 : string) :
  take 10 (ConlluFile.py_split line) = [c1; c2; c3; c4; c5; c6; c7; c8; c9; c10] →
  ConlluFile.contains "-" c1 = true ∨ ConlluFile.contains "." c1 = true
  ∨ c9 ≠ "_"%string →
  ∃ msg, ConlluFile.parse_token line sentence = Raise (ValueError msg).
Proof.
  intros Hcols Hbad. unfold ConlluFile.parse_token. rewrite Hcols.
  destruct (ConlluFile.contains "-" c1); [by eexists|].
  destruct (String.eqb_spec c9 "_") as [->|Hdeps]; cbn [negb orb];
    [|by eexists].
  destruct (ConlluFile.contains "." c1); [by eexists|].
  destruct Hbad as [?|[?|?]]; done.
Qed.

Lemma parse_lines_raises (lines : list string) (line : string)
    (comments : list string) (sentence : odict Z Conllu.Node) :
  line ∈ lines →
  ConlluFile.starts_with_hash line = false →
  (∀ s, ∃ e, ConlluFile.parse_token line s = Raise e) →
  ∃ e, ConlluFile.parse_lines lines comments sentence = Raise e.
Proof.
  intros Hin Hhash Hraise. revert comments sentence.
  induction lines as [|l rest IH]; intros comments sentence.
  - by apply elem_of_nil in Hin.
  - cbn [ConlluFile.parse_lines].
    apply elem_of_cons in Hin as [<-|Hin].
    + rewrite Hhash. destruct (Hraise sentence) as [e ->]. by eexists.
    + destruct (ConlluFile.starts_with_hash l); [by apply IH|].
      destruct (ConlluFile.parse_token l sentence) as [s|e]; [|by eexists].
      cbn [rbind]. by apply IH.
Qed.

Lemma parse_sentences_raises (sents : list string) (sent line : string)
    (sentences : list (odict Z Conllu.Node)) (all_comments : list (list string)) :
  sent ∈ sents →
  line ∈ ConlluFile.split_lines (ConlluFile.py_strip sent) →
  ConlluFile.starts_with_hash line = false →
  (∀ s, ∃ e, ConlluFile.parse_token line s = Raise e) →
  ∃ e, ConlluFile.parse_sentences sents sentences all_comments = Raise e.
Proof.
  intros Hsent Hline Hhash Hraise. revert sentences all_comments.
  induction sents as [|s0 rest IH]; intros sentences all_comments.
  - by apply elem_of_nil in Hsent.
  - cbn [ConlluFile.parse_sentences].
    apply elem_of_cons in Hsent as [<-|Hsent].
    + unfold ConlluFile.parse_sentence.
      destruct (ConlluFile.split_lines (ConlluFile.py_strip sent)) as [|l ls]
        eqn:Hlines; [by apply elem_of_nil in Hline|].
      destruct (parse_lines_raises (l :: ls) line [] [] Hline Hhash Hraise)
        as [e ->].
      by eexists.
    + destruct (ConlluFile.parse_sentence s0) as [[[s cs]|]|e];
        cbn [rbind]; [by apply IH | by apply IH | by eexists].
Qed.

(** X28: if any line of any sentence of the text is not a comment and has
    fewer than ten white-space separated columns, [parse_conllu] raises. *)
Theorem parse_conllu_short_line_raises (text sent line : string) :
  sent ∈ ConlluFile.split_blank_lines (ConlluFile.py_strip text) →
  line ∈ ConlluFile.split_lines (ConlluFile.py_strip sent) →
  ConlluFile.starts_with_hash line = false →
  (length (ConlluFile.py_split line) < 10)%nat →
  ∃ e, ConlluFile.parse_conllu text = Raise e.
Proof.
  intros Hsent Hline Hhash Hshort. unfold ConlluFile.parse_conllu.
  eapply parse_sentences_raises; try done.
  intros s. rewrite parse_token_short by done. by eexists.
Qed.

(** X29: if any line of any sentence of the text is not a comment and has
    a [-] or a [.] in its id column, or a deps column other than [_],
    [parse_conllu] raises, whatever its other columns hold. *)
Theorem parse_conllu_bad_columns_raise (text sent line : string)
    (c1 c2 c3 c4 c5 c6 c7 c8 c9 c10 : string) :
  sent ∈ ConlluFile.split_blank_lines (ConlluFile.py_strip text) →
  line ∈ ConlluFile.split_lines (ConlluFile.py_strip sent) →
  ConlluFile.starts_with_hash line = false →
  take 10 (ConlluFile.py_split line) = [c1; c2; c3; c4; c5; c6; c7; c8; c9; c10] →
  ConlluFile.contains "-" c1 = true ∨ ConlluFile.contains "." c1 = true
  ∨ c9 ≠ "_"%string →
  ∃ e, ConlluFile.parse_conllu text = Raise e.
Proof.
  intros Hsent Hline Hhash Hcols Hbad. unfold ConlluFile.parse_conllu.
  eapply parse_sentences_raises; try done.
  intros s. destruct (parse_token_bad_columns line s _ _ _ _ _ _ _ _ _ _
                        Hcols Hbad) as [msg ->].
  by eexists.
Qed.

End parse_errors.

(** X26 at work: a comment and two tokens; token 1 hangs on token 2, the
    root. *)
Lemma parse_conllu_sentences_linked_witness :
  let nl := String ConlluFile.newline EmptyString in
  let text :=
    ("# text = New York" +:+ nl
     +:+ "1 New new PROPN _ _ 2 compound _ _" +:+ nl
     +:+ "2 York york PROPN NNP _ 0 root _ _" +:+ nl)%string in
  ∃ sentences all_comments,
    ConlluFile.parse_conllu text = Ok (sentences, all_comments)
    ∧ length sentences = length all_comments
    ∧ Forall linked_sentence sentences.
Proof.
  intros nl text.
  destruct (ConlluFile.parse_conllu text) as [[sentences all_comments]|e] eqn:Hparse.
  - exists sentences, all_comments. split; [done|].
    destruct (parse_conllu_sentences_linked text sentences all_comments Hparse)
      as (Hlen & Hlinked & _).
    by split.
  - exfalso. vm_compute in Hparse. discriminate Hparse.
Defined.

(** X27 at work: a text of two spaces and a newline. *)
Lemma parse_conllu_blank_text_raises_witness :
  ConlluFile.parse_conllu
    (String " " (String " " (String ConlluFile.newline EmptyString)))
  = Raise (ValueError "not enough values to unpack (expected 10, got 0)").
Proof.
  apply (parse_conllu_blank_text_raises
           (String " " (String " " (String ConlluFile.newline EmptyString)))).
  reflexivity.
Defined.

(** X28 at work: the second line has three columns. *)
Lemma parse_conllu_short_line_raises_witness :
  let nl := String ConlluFile.newline EmptyString in
  ∃ e,
    ConlluFile.parse_conllu
      ("1 New new PROPN _ _ 2 compound _ _" +:+ nl +:+ "2 York york")%string
    = Raise e.
Proof.
  intros nl.
  apply (parse_conllu_short_line_raises
           ("1 New new PROPN _ _ 2 compound _ _" +:+ nl +:+ "2 York york")%string
           ("1 New new PROPN _ _ 2 compound _ _" +:+ nl +:+ "2 York york")%string
           "2 York york").
  - vm_compute. by left.
  - vm_compute. right. by left.
  - reflexivity.
  - vm_compute. lia.
Defined.

(** X29 at work: the id column [1-2] of a multiword token. *)
Lemma parse_conllu_bad_columns_raise_witness :
  ∃ e,
    ConlluFile.parse_conllu "1-2 vamonos _ _ _ _ _ _ _ _" = Raise e.
Proof.
  apply (parse_conllu_bad_columns_raise
           "1-2 vamonos _ _ _ _ _ _ _ _" "1-2 vamonos _ _ _ _ _ _ _ _"
           "1-2 vamonos _ _ _ _ _ _ _ _"
           "1-2" "vamonos" "_" "_" "_" "_" "_" "_" "_" "_").
  - vm_compute. by left.
  - vm_compute. by left.
  - reflexivity.
  - reflexivity.
  - left. reflexivity.
Defined.

Section serialize_properties.

Lemma zip_take_shorter {A B : Type} (l : list A) (k : list B) :
  zip l k = zip (take (min (length l) (length k)) l)
                (take (min (length l) (length k)) k).
Proof.
  revert k. induction l as [|x l IH]; intros k; [done|].
  destruct k as [|y k]; [done|]. simpl. by rewrite <- IH.
Qed.

Lemma serialize_loop_without_comments (conf : ConlluFile.Conf)
    (converted : list (odict Z Conllu.Node))
    (all_comments all_comments' : list (list string)) (text : string) :
  ConlluFile.preserve_comments conf = false →
  length all_comments = length all_comments' →
  ConlluFile.serialize_loop conf (zip converted all_comments) text
  = ConlluFile.serialize_loop conf (zip converted all_comments') text.
Proof.
  intros Hconf. revert all_comments all_comments' text.
  induction converted as [|sentence rest IH];
    intros all_comments all_comments' text Hlen; [done|].
  destruct all_comments as [|cs all_comments],
           all_comments' as [|cs' all_comments']; try done.
  cbn [zip zip_with ConlluFile.serialize_loop]. rewrite Hconf.
  destruct (ConlluFile.tokens_text _ sentence text) as [text'|e]; [|done].
  cbn [rbind]. apply IH. simpl in Hlen. lia.
Qed.

(** X30: [serialize_conllu] writes a sentence only together with a list of
    comments: of the sentences and the comment lists, those beyond the
    shorter of the two are left out without notice. With
    [preserve_comments] off, the text depends on the comment lists through
    their number only. *)
Theorem serialize_conllu_pairs (conf : ConlluFile.Conf)
    (converted : list (odict Z Conllu.Node))
    (all_comments all_comments' : list (list string)) :
  let n := min (length converted) (length all_comments) in
  ConlluFile.serialize_conllu conf converted all_comments
  = ConlluFile.serialize_conllu conf (take n converted) (take n all_comments)
  ∧ (ConlluFile.preserve_comments conf = false →
     length all_comments = length all_comments' →
     ConlluFile.serialize_conllu conf converted all_comments
     = ConlluFile.serialize_conllu conf converted all_comments').
Proof.
  intros n. unfold ConlluFile.serialize_conllu. split.
  - unfold n. by rewrite <- zip_take_shorter.
  - intros Hconf Hlen. by apply serialize_loop_without_comments.
Qed.

End serialize_properties.

(** * Reading back what [serialize_conllu] writes *)

Section text_facts.

Lemma app_cons (c : ascii) (s t : string) :
  String c s +:+ t = String c (s +:+ t).
Proof. reflexivity. Qed.

Lemma app_empty_l (t : string) : EmptyString +:+ t = t.
Proof. reflexivity. Qed.

Lemma app_empty_r (s : string) : s +:+ EmptyString = s.
Proof. induction s as [|c s IH]; [done|]. by rewrite app_cons, IH. Qed.

Lemma app_assoc_str (a b c : string) : (a +:+ b) +:+ c = a +:+ (b +:+ c).
Proof.
  induction a as [|x a IH]; [done|]. by rewrite !app_cons, IH.
Qed.

Lemma all_chars_app (P : ascii → bool) (a b : string) :
  all_chars P (a +:+ b) = all_chars P a && all_chars P b.
Proof.
  induction a as [|x a IH]; [done|].
  rewrite app_cons. simpl. rewrite IH. by destruct (P x).
Qed.

Lemma all_chars_impl (P Q : ascii → bool) (s : string) :
  (∀ c, P c = true → Q c = true) →
  all_chars P s = true → all_chars Q s = true.
Proof.
  intros HPQ. induction s as [|c s IH]; [done|]. simpl.
  intros [Hc Hs]%andb_prop. rewrite (HPQ c Hc). by apply IH.
Qed.

Lemma first_char_app (a b : string) :
  a ≠ EmptyString → first_char (a +:+ b) = first_char a.
Proof. by destruct a. Qed.

Lemma last_char_app (a b : string) :
  b ≠ EmptyString → last_char (a +:+ b) = last_char b.
Proof.
  intros Hb. induction a as [|x a IH]; [done|].
  rewrite app_cons. cbn [last_char]. rewrite IH.
  destruct (a +:+ b) eqn:Hab; [|done].
  destruct a; [|done]. by rewrite app_empty_l in Hab.
Qed.

(** *** [strip] *)

Lemma lstrip_clean (space : ascii → bool) (s : string) (c : ascii) :
  first_char s = Some c → space c = false → ConlluFile.lstrip space s = s.
Proof.
  destruct s as [|x s]; [done|]. simpl. intros [= ->] Hc. by rewrite Hc.
Qed.

Lemma rstrip_clean (space : ascii → bool) (s : string) (c : ascii) :
  last_char s = Some c → space c = false → ConlluFile.rstrip space s = s.
Proof.
  intros Hlast Hc. induction s as [|x s IH]; [done|].
  cbn [ConlluFile.rstrip]. cbn [last_char] in Hlast.
  destruct s as [|y s].
  - injection Hlast as ->. simpl. by rewrite Hc.
  - by rewrite (IH Hlast).
Qed.

Lemma rstrip_spaces (space : ascii → bool) (w : string) :
  all_chars space w = true → ConlluFile.rstrip space w = EmptyString.
Proof.
  induction w as [|x w IH]; [done|]. simpl.
  intros [Hx Hw]%andb_prop. by rewrite (IH Hw), Hx.
Qed.

Lemma rstrip_app_spaces (space : ascii → bool) (s w : string) :
  all_chars space w = true →
  ConlluFile.rstrip space (s +:+ w) = ConlluFile.rstrip space s.
Proof.
  intros Hw. induction s as [|x s IH].
  - rewrite app_empty_l. by apply rstrip_spaces.
  - rewrite app_cons. cbn [ConlluFile.rstrip]. by rewrite IH.
Qed.

Lemma not_space_false (c : ascii) :
  not_space c = true → ConlluFile.py_isspace c = false.
Proof. unfold not_space. by destruct (ConlluFile.py_isspace c). Qed.

Lemma py_strip_trimmed (s : string) : trimmed s → ConlluFile.py_strip s = s.
Proof.
  intros [(c & Hc & Hc') (d & Hd & Hd')]. unfold ConlluFile.py_strip.
  rewrite (lstrip_clean _ _ _ Hc (not_space_false _ Hc')).
  exact (rstrip_clean _ _ _ Hd (not_space_false _ Hd')).
Qed.

Lemma py_strip_app_spaces (s w : string) :
  trimmed s → all_chars ConlluFile.py_isspace w = true →
  ConlluFile.py_strip (s +:+ w) = s.
Proof.
  intros [(c & Hc & Hc') (d & Hd & Hd')] Hw. unfold ConlluFile.py_strip.
  assert (Hne : s ≠ EmptyString) by by destruct s.
  rewrite (lstrip_clean _ (s +:+ w) c);
    [|by rewrite first_char_app|by apply not_space_false].
  rewrite rstrip_app_spaces by done.
  exact (rstrip_clean _ _ _ Hd (not_space_false _ Hd')).
Qed.

(** What [strip] returns neither starts nor ends with white space. *)
Lemma lstrip_starts (space : ascii → bool) (s : string) (c : ascii) :
  first_char (ConlluFile.lstrip space s) = Some c → space c = false.
Proof.
  induction s as [|x s IH]; [done|]. simpl.
  destruct (space x) eqn:Hx; [exact IH|]. by intros [= <-].
Qed.

Lemma rstrip_ends (space : ascii → bool) (s : string) (c : ascii) :
  last_char (ConlluFile.rstrip space s) = Some c → space c = false.
Proof.
  induction s as [|x s IH]; [done|]. cbn [ConlluFile.rstrip].
  destruct (ConlluFile.rstrip space s) as [|y r] eqn:Hr.
  - destruct (space x) eqn:Hx; [done|]. by intros [= <-].
  - cbn [last_char]. exact IH.
Qed.

Lemma last_char_some (s : string) :
  s ≠ EmptyString → is_Some (last_char s).
Proof.
  induction s as [|x s IH]; [done|]. intros _. cbn [last_char].
  destruct s; [done|]. by apply IH.
Qed.

Lemma py_strip_ends (s : string) :
  ConlluFile.py_strip s ≠ EmptyString → ends_clean (ConlluFile.py_strip s).
Proof.
  intros [c Hc]%last_char_some. exists c. split; [done|].
  unfold not_space. unfold ConlluFile.py_strip in Hc.
  by rewrite (rstrip_ends _ _ _ Hc).
Qed.

(** *** [split('\n')] *)

Lemma not_newline_false (c : ascii) :
  not_newline c = true → Ascii.eqb c ConlluFile.newline = false.
Proof. unfold not_newline. by destruct (Ascii.eqb c ConlluFile.newline). Qed.

Lemma cons_first_cons_str (c : ascii) (l : string) (rest : list string) :
  ConlluFile.cons_first c (cons_str l rest) = cons_str (String c l) rest.
Proof. by destruct rest. Qed.

Lemma split_lines_not_nil (t : string) : ConlluFile.split_lines t ≠ [].
Proof.
  destruct t as [|c t]; [done|]. simpl.
  destruct (Ascii.eqb c ConlluFile.newline); [done|].
  by destruct (ConlluFile.split_lines t).
Qed.

Lemma split_lines_app (l t : string) :
  all_chars not_newline l = true →
  ConlluFile.split_lines (l +:+ t) = cons_str l (ConlluFile.split_lines t).
Proof.
  induction l as [|c l IH]; cbn [all_chars].
  - intros _. rewrite app_empty_l. pose proof (split_lines_not_nil t).
    by destruct (ConlluFile.split_lines t).
  - intros [Hc Hl]%andb_prop. rewrite app_cons. cbn [ConlluFile.split_lines].
    rewrite (not_newline_false _ Hc), (IH Hl). apply cons_first_cons_str.
Qed.

Lemma split_lines_join (lines : list string) :
  lines ≠ [] →
  Forall (fun l => all_chars not_newline l = true) lines →
  ConlluFile.split_lines (ConlluFile.py_join nl lines) = lines.
Proof.
  induction lines as [|l lines IH]; [done|]. intros _ Hall.
  apply Forall_cons in Hall as [Hl Hall].
  destruct lines as [|l' lines].
  - cbn [ConlluFile.py_join]. rewrite <- (app_empty_r l) at 1.
    rewrite split_lines_app by done. simpl. by rewrite app_empty_r.
  - change (ConlluFile.py_join nl (l :: l' :: lines))
      with (l +:+ nl +:+ ConlluFile.py_join nl (l' :: lines)).
    rewrite split_lines_app by done.
    change (nl +:+ ?x) with (String ConlluFile.newline x).
    cbn [ConlluFile.split_lines]. rewrite Ascii.eqb_refl.
    rewrite IH by done. simpl. by rewrite app_empty_r.
Qed.

Lemma split_lines_all (s : string) :
  Forall (fun l => all_chars not_newline l = true) (ConlluFile.split_lines s).
Proof.
  induction s as [|c s IH]; simpl.
  - by constructor.
  - destruct (Ascii.eqb c ConlluFile.newline) eqn:Hc.
    + by constructor.
    + destruct (ConlluFile.split_lines s) as [|l ls]; simpl.
      * constructor; [|done]. simpl. unfold not_newline. by rewrite Hc.
      * apply Forall_cons in IH as [Hl Hls]. constructor; [|done].
        simpl. unfold not_newline at 1. by rewrite Hc, Hl.
Qed.

Lemma split_lines_last (s : string) (c : ascii) :
  last_char s = Some c → not_newline c = true →
  ∃ l, last (ConlluFile.split_lines s) = Some l ∧ last_char l = Some c.
Proof.
  intros Hlast Hc. induction s as [|x s IH]; [done|].
  cbn [last_char] in Hlast. cbn [ConlluFile.split_lines].
  destruct s as [|y s].
  - injection Hlast as ->. rewrite (not_newline_false _ Hc). simpl.
    by exists (String c EmptyString).
  - destruct (IH Hlast) as (l & Hl & Hlc).
    destruct (Ascii.eqb x ConlluFile.newline).
    + exists l. split; [|done].
      destruct (ConlluFile.split_lines (String y s)); [done|]. exact Hl.
    + destruct (ConlluFile.split_lines (String y s)) as [|l0 ls] eqn:Hsplit;
        [done|].
      destruct ls as [|l1 ls].
      * injection Hl as <-. exists (String x l0). split; [done|].
        cbn [last_char]. by destruct l0.
      * exists l. split; [|done]. exact Hl.
Qed.

End text_facts.

Section split_facts.

(** *** [split('\n\n')] *)

Lemma cons_first_not_nil (c : ascii) (l : list string) :
  ConlluFile.cons_first c l ≠ [].
Proof. by destruct l. Qed.

Lemma split_blank_unfold (c : ascii) (s : string) :
  ConlluFile.split_blank_lines (String c s)
  = match s with
    | String c' s'' =>
        if Ascii.eqb c ConlluFile.newline && Ascii.eqb c' ConlluFile.newline
        then EmptyString :: ConlluFile.split_blank_lines s''
        else ConlluFile.cons_first c (ConlluFile.split_blank_lines s)
    | EmptyString => ConlluFile.cons_first c (ConlluFile.split_blank_lines s)
    end.
Proof. by destruct s. Qed.

Lemma split_blank_not_nil (t : string) : ConlluFile.split_blank_lines t ≠ [].
Proof.
  destruct t as [|c t]; [done|]. rewrite split_blank_unfold.
  destruct t as [|c' t]; [apply cons_first_not_nil|].
  destruct (_ && _); [done | apply cons_first_not_nil].
Qed.

Lemma split_blank_cons (c : ascii) (s : string) :
  Ascii.eqb c ConlluFile.newline = false →
  ConlluFile.split_blank_lines (String c s)
  = ConlluFile.cons_first c (ConlluFile.split_blank_lines s).
Proof.
  intros Hc. rewrite split_blank_unfold. destruct s as [|c' s]; [done|].
  by rewrite Hc.
Qed.

Lemma split_blank_single (s : string) (d : ascii) :
  first_char s = Some d → Ascii.eqb d ConlluFile.newline = false →
  ConlluFile.split_blank_lines (String ConlluFile.newline s)
  = ConlluFile.cons_first ConlluFile.newline (ConlluFile.split_blank_lines s).
Proof.
  intros Hs Hd. rewrite split_blank_unfold.
  destruct s as [|c' s]; [done|]. injection Hs as ->.
  by rewrite Hd, andb_false_r.
Qed.

Lemma split_blank_double (s : string) :
  ConlluFile.split_blank_lines (nl +:+ nl +:+ s)
  = EmptyString :: ConlluFile.split_blank_lines s.
Proof. reflexivity. Qed.

Lemma split_blank_app (l t : string) :
  all_chars not_newline l = true →
  ConlluFile.split_blank_lines (l +:+ t)
  = cons_str l (ConlluFile.split_blank_lines t).
Proof.
  induction l as [|c l IH]; cbn [all_chars].
  - intros _. rewrite app_empty_l. pose proof (split_blank_not_nil t).
    by destruct (ConlluFile.split_blank_lines t).
  - intros [Hc Hl]%andb_prop. rewrite app_cons.
    rewrite split_blank_cons by by apply not_newline_false.
    rewrite (IH Hl). apply cons_first_cons_str.
Qed.

Lemma first_char_join (sep w : string) (ws : list string) :
  w ≠ EmptyString →
  first_char (ConlluFile.py_join sep (w :: ws)) = first_char w.
Proof.
  intros Hw. destruct ws as [|w' ws]; [done|].
  change (ConlluFile.py_join sep (w :: w' :: ws))
    with (w +:+ sep +:+ ConlluFile.py_join sep (w' :: ws)).
  by apply first_char_app.
Qed.

Lemma last_char_join (sep w : string) (ws : list string) :
  last ws = Some w → w ≠ EmptyString →
  last_char (ConlluFile.py_join sep ws) = last_char w.
Proof.
  intros Hlast Hw. induction ws as [|w0 ws IH]; [done|].
  destruct ws as [|w1 ws].
  - by injection Hlast as ->.
  - change (ConlluFile.py_join sep (w0 :: w1 :: ws))
      with (w0 +:+ sep +:+ ConlluFile.py_join sep (w1 :: ws)).
    specialize (IH Hlast).
    assert (Hne : ConlluFile.py_join sep (w1 :: ws) ≠ EmptyString).
    { intros Heq. rewrite Heq in IH. destruct (last_char_some w Hw) as [? Hc].
      by rewrite Hc in IH. }
    rewrite last_char_app.
    + by rewrite last_char_app.
    + destruct sep; [by rewrite app_empty_l | done].
Qed.

Lemma is_line_first (l : string) :
  is_line l →
  ∃ d, first_char l = Some d ∧ Ascii.eqb d ConlluFile.newline = false.
Proof.
  intros [Hne Hall]. destruct l as [|d l]; [done|]. exists d. split; [done|].
  simpl in Hall. apply andb_prop in Hall as [Hd _].
  by apply not_newline_false.
Qed.

Lemma split_blank_block (lines : list string) (tail : string)
    (rest : list string) :
  lines ≠ [] → Forall is_line lines →
  ConlluFile.split_blank_lines tail = EmptyString :: rest →
  ConlluFile.split_blank_lines (ConlluFile.py_join nl lines +:+ tail)
  = ConlluFile.py_join nl lines :: rest.
Proof.
  intros _ Hall Htail. induction lines as [|l lines IH].
  - cbn [ConlluFile.py_join]. by rewrite app_empty_l.
  - apply Forall_cons in Hall as [[Hne Hl] Hall].
    destruct lines as [|l' lines].
    + cbn [ConlluFile.py_join]. rewrite split_blank_app by done.
      rewrite Htail. simpl. by rewrite app_empty_r.
    + change (ConlluFile.py_join nl (l :: l' :: lines))
        with (l +:+ nl +:+ ConlluFile.py_join nl (l' :: lines)).
      rewrite !app_assoc_str. rewrite split_blank_app by done.
      change (nl +:+ ?x) with (String ConlluFile.newline x).
      pose proof Hall as Hall'. apply Forall_cons in Hall' as [Hl' _].
      destruct (is_line_first _ Hl') as (d & Hd & Hdn).
      assert (Hjoin : first_char (ConlluFile.py_join nl (l' :: lines) +:+ tail)
                      = Some d).
      { rewrite first_char_app.
        - rewrite first_char_join; [done|]. by destruct Hl'.
        - intros Heq.
          pose proof (first_char_join nl l' lines (proj1 Hl')) as Hfirst.
          by rewrite Heq, Hd in Hfirst. }
      rewrite (split_blank_single _ d Hjoin Hdn).
      rewrite (IH Hall). reflexivity.
Qed.

Lemma split_blank_blocks (blocks : list (list string)) :
  blocks ≠ [] →
  Forall (fun b => b ≠ [] ∧ Forall is_line b) blocks →
  ConlluFile.split_blank_lines
    (ConlluFile.py_join (nl +:+ nl) (ConlluFile.py_join nl <$> blocks))
  = ConlluFile.py_join nl <$> blocks.
Proof.
  intros Hne Hall. induction blocks as [|b blocks IH]; [done|]. clear Hne.
  apply Forall_cons in Hall as [[Hb Hlines] Hall].
  destruct blocks as [|b' blocks].
  - cbn [fmap list_fmap ConlluFile.py_join].
    rewrite <- (app_empty_r (ConlluFile.py_join nl b)) at 1.
    by apply split_blank_block.
  - rewrite fmap_cons.
    change (ConlluFile.py_join (nl +:+ nl)
              (ConlluFile.py_join nl b
               :: (ConlluFile.py_join nl <$> b' :: blocks)))
      with (ConlluFile.py_join nl b +:+ (nl +:+ nl)
            +:+ ConlluFile.py_join (nl +:+ nl)
                  (ConlluFile.py_join nl <$> b' :: blocks)).
    rewrite <- (IH ltac:(done) Hall) at 2.
    apply split_blank_block; [done..|].
    rewrite app_assoc_str. apply split_blank_double.
Qed.

Lemma lines_text_join (lines : list string) :
  lines ≠ [] → lines_text lines = ConlluFile.py_join nl lines +:+ nl.
Proof.
  intros Hne. induction lines as [|l lines IH]; [done|]. clear Hne.
  destruct lines as [|l' lines].
  - simpl. by rewrite app_empty_r.
  - change (lines_text (l :: l' :: lines))
      with (l +:+ nl +:+ lines_text (l' :: lines)).
    rewrite IH by done.
    change (ConlluFile.py_join nl (l :: l' :: lines))
      with (l +:+ nl +:+ ConlluFile.py_join nl (l' :: lines)).
    by rewrite !app_assoc_str.
Qed.

Lemma blocks_text_join (blocks : list (list string)) :
  blocks ≠ [] → Forall (fun b => b ≠ []) blocks →
  blocks_text blocks
  = ConlluFile.py_join (nl +:+ nl) (ConlluFile.py_join nl <$> blocks)
    +:+ nl +:+ nl.
Proof.
  intros Hne Hall. induction blocks as [|b blocks IH]; [done|]. clear Hne.
  apply Forall_cons in Hall as [Hb Hall].
  change (blocks_text (b :: blocks))
    with (lines_text b +:+ nl +:+ blocks_text blocks).
  rewrite lines_text_join by done.
  destruct blocks as [|b' blocks].
  - cbn [blocks_text foldr fmap list_fmap ConlluFile.py_join].
    by rewrite app_empty_r, !app_assoc_str.
  - rewrite (IH ltac:(done) Hall). rewrite !fmap_cons.
    change (ConlluFile.py_join (nl +:+ nl)
              (ConlluFile.py_join nl b
               :: ConlluFile.py_join nl b'
               :: (ConlluFile.py_join nl <$> blocks)))
      with (ConlluFile.py_join nl b +:+ (nl +:+ nl)
            +:+ ConlluFile.py_join (nl +:+ nl)
                  (ConlluFile.py_join nl b'
                   :: (ConlluFile.py_join nl <$> blocks))).
    by rewrite !app_assoc_str.
Qed.

(** *** [split()] *)

Lemma py_split_word_then (w rest : string) (sp : ascii) :
  is_word w → ConlluFile.py_isspace sp = true →
  ConlluFile.py_split (w +:+ String sp rest) = w :: ConlluFile.py_split rest.
Proof.
  intros [Hne Hall] Hsp. induction w as [|c w IH]; [done|].
  cbn [all_chars] in Hall. apply andb_prop in Hall as [Hc Hw].
  rewrite app_cons. cbn [ConlluFile.py_split].
  rewrite (not_space_false _ Hc).
  destruct w as [|c' w].
  - rewrite app_empty_l. rewrite Hsp. cbn [ConlluFile.py_split].
    by rewrite Hsp.
  - rewrite app_cons. pose proof Hw as Hw'. cbn [all_chars] in Hw'.
    apply andb_prop in Hw' as [Hc' _]. rewrite (not_space_false _ Hc').
    rewrite <- app_cons. by rewrite IH.
Qed.

Lemma py_split_word (w : string) :
  is_word w → ConlluFile.py_split w = [w].
Proof.
  intros [Hne Hall]. induction w as [|c w IH]; [done|].
  cbn [all_chars] in Hall. apply andb_prop in Hall as [Hc Hw].
  cbn [ConlluFile.py_split]. rewrite (not_space_false _ Hc).
  destruct w as [|c' w]; [done|].
  pose proof Hw as Hw'. cbn [all_chars] in Hw'.
  apply andb_prop in Hw' as [Hc' _]. rewrite (not_space_false _ Hc').
  by rewrite IH.
Qed.

Lemma py_split_join (cols : list string) :
  Forall is_word cols → ConlluFile.py_split (ConlluFile.py_join tb cols) = cols.
Proof.
  induction cols as [|w cols IH]; [done|].
  intros [Hw Hcols]%Forall_cons. destruct cols as [|w' cols].
  - by apply py_split_word.
  - change (ConlluFile.py_join tb (w :: w' :: cols))
      with (w +:+ String ConlluFile.tab (ConlluFile.py_join tb (w' :: cols))).
    rewrite py_split_word_then by done. by rewrite IH.
Qed.

Lemma py_split_words (s : string) : Forall is_word (ConlluFile.py_split s).
Proof.
  induction s as [|c s IH]; [by constructor|].
  cbn [ConlluFile.py_split].
  destruct (ConlluFile.py_isspace c) eqn:Hc; [exact IH|].
  assert (Hword : ∀ w, all_chars not_space w = true → is_word (String c w)).
  { intros w Hw. split; [done|]. simpl. unfold not_space at 1.
    by rewrite Hc, Hw. }
  destruct s as [|c' s].
  - constructor; [by apply Hword | done].
  - destruct (ConlluFile.py_isspace c').
    + constructor; [by apply Hword | done].
    + destruct (ConlluFile.py_split (String c' s)) as [|w ws]; simpl.
      * constructor; [by apply Hword | done].
      * apply Forall_cons in IH as [[_ Hw] Hws].
        constructor; [by apply Hword | done].
Qed.

End split_facts.

Section int_facts.

(** *** [str] and [int] of an int *)

Lemma is_digit_chars (c : ascii) :
  is_digit c = true →
  ConlluFile.int_isspace c = false ∧ ConlluFile.py_isspace c = false
  ∧ Ascii.eqb c "+" = false ∧ Ascii.eqb c "-" = false
  ∧ Ascii.eqb c "#" = false.
Proof.
  destruct c as [[] [] [] [] [] [] [] []]; vm_compute; intros H;
    try discriminate H; by repeat split.
Qed.

Lemma pretty_char_is_digit (d : N) : is_digit (pretty_N_char d) = true.
Proof. unfold pretty_N_char. by repeat case_match. Qed.

Lemma int_digits_digit (d : N) (s : string) (acc : Z) (cnt : nat) (ad : bool) :
  (d < 10)%N →
  ConlluFile.int_digits (String (pretty_N_char d) s) acc cnt ad
  = ConlluFile.int_digits s (10 * acc + Z.of_N d) (S cnt) true.
Proof.
  intros Hd.
  assert (d = 0 ∨ d = 1 ∨ d = 2 ∨ d = 3 ∨ d = 4 ∨ d = 5 ∨ d = 6 ∨ d = 7
          ∨ d = 8 ∨ d = 9)%N as Hcases by lia.
  repeat destruct Hcases as [->|Hcases]; try subst d; reflexivity.
Qed.

Lemma pretty_N_go_all (P : ascii → bool) (x : N) (s : string) :
  (∀ d, P (pretty_N_char d) = true) →
  all_chars P s = true → all_chars P (pretty_N_go x s) = true.
Proof.
  intros HP. revert s. induction (N.lt_wf_0 x) as [x _ IH]. intros s Hs.
  destruct (decide (x = 0)%N) as [->|Hx]; [by rewrite pretty_N_go_0|].
  rewrite pretty_N_go_step by lia. apply IH.
  - apply N.div_lt; lia.
  - simpl. by rewrite HP, Hs.
Qed.

Lemma int_digits_pretty (x : N) :
  ∃ (k : nat) (m : Z), ∀ s acc cnt ad,
    ConlluFile.int_digits (pretty_N_go x s) acc cnt ad
    = ConlluFile.int_digits s (acc * m + Z.of_N x) (cnt + k)%nat
        (ad || negb (x =? 0)%N)
    ∧ String.length (pretty_N_go x s) = (k + String.length s)%nat.
Proof.
  induction (N.lt_wf_0 x) as [x _ IH].
  destruct (decide (x = 0)%N) as [->|Hx].
  - exists 0%nat, 1. intros s acc cnt ad. rewrite pretty_N_go_0.
    split; [|done]. simpl. rewrite orb_false_r.
    f_equal; lia.
  - destruct (IH (x `div` 10)%N) as (k & m & Hk); [apply N.div_lt; lia|].
    exists (S k), (10 * m). intros s acc cnt ad.
    rewrite pretty_N_go_step by lia.
    destruct (Hk (String (pretty_N_char (x `mod` 10)) s) acc cnt ad)
      as [-> ->].
    rewrite int_digits_digit by (apply N.mod_lt; lia).
    split; [|simpl; lia].
    assert (Hnz : (x =? 0)%N = false) by by apply N.eqb_neq.
    rewrite Hnz, orb_true_r.
    f_equal; [|lia].
    pose proof (N.div_mod x 10 ltac:(lia)) as Hdm. lia.
Qed.

Lemma lstrip_all (space : ascii → bool) (s : string) :
  all_chars (fun c => negb (space c)) s = true →
  ConlluFile.lstrip space s = s.
Proof.
  destruct s as [|c s]; [done|]. simpl. intros [Hc _]%andb_prop.
  by destruct (space c).
Qed.

Lemma rstrip_all (space : ascii → bool) (s : string) :
  all_chars (fun c => negb (space c)) s = true →
  ConlluFile.rstrip space s = s.
Proof.
  induction s as [|c s IH]; [done|]. cbn [all_chars ConlluFile.rstrip].
  intros [Hc Hs]%andb_prop. rewrite (IH Hs).
  destruct s; [|done]. by destruct (space c).
Qed.

Lemma pretty_pos_eq (p : positive) :
  pretty (Z.pos p) = pretty_N_go (N.pos p) EmptyString.
Proof. reflexivity. Qed.

Lemma pretty_neg_eq (p : positive) :
  pretty (Z.neg p) = String "-" (pretty_N_go (N.pos p) EmptyString).
Proof. reflexivity. Qed.

Lemma pretty_pos_digits (p : positive) :
  all_chars is_digit (pretty_N_go (N.pos p) EmptyString) = true.
Proof. apply pretty_N_go_all; [apply pretty_char_is_digit | done]. Qed.

Lemma pretty_pos_int (p : positive) :
  ConlluFile.int_digits (pretty_N_go (N.pos p) EmptyString) 0 0 false
  = Some (Z.pos p, String.length (pretty_N_go (N.pos p) EmptyString)).
Proof.
  destruct (int_digits_pretty (N.pos p)) as (k & m & Hk).
  destruct (Hk EmptyString 0 0%nat false) as [-> ->]. simpl.
  by rewrite Nat.add_0_r.
Qed.

Lemma pretty_pos_not_empty (p : positive) :
  pretty_N_go (N.pos p) EmptyString ≠ EmptyString.
Proof.
  intros Heq. pose proof (pretty_pos_int p) as Hint.
  by rewrite Heq in Hint.
Qed.

(** [int(str(n)) == n] *)
Lemma py_int_pretty (n : Z) (t : string) :
  ConlluFile.py_str (Conllu.PyInt n) = Ok t → ConlluFile.py_int t = Ok n.
Proof.
  unfold ConlluFile.py_str.
  destruct (4300 <? String.length (pretty (Z.abs n)))%nat eqn:Hlen; [done|].
  intros [= <-]. destruct n as [|p|p].
  - reflexivity.
  - rewrite pretty_pos_eq.
    change (pretty (Z.abs (Z.pos p)))
      with (pretty_N_go (N.pos p) EmptyString) in Hlen.
    pose proof (pretty_pos_digits p) as Hdigits.
    pose proof (pretty_pos_not_empty p) as Hne.
    pose proof (pretty_pos_int p) as Hint.
    unfold ConlluFile.py_int.
    rewrite lstrip_all, rstrip_all;
      [|eapply all_chars_impl; [|exact Hdigits]; intros c Hc;
        by rewrite (proj1 (is_digit_chars c Hc))..].
    destruct (pretty_N_go (N.pos p) EmptyString) as [|c r] eqn:Hgo; [done|].
    simpl in Hdigits. apply andb_prop in Hdigits as [Hc _].
    destruct (is_digit_chars c Hc) as (_ & _ & -> & -> & _).
    rewrite Hint, Hlen. by destruct p.
  - rewrite pretty_neg_eq.
    change (pretty (Z.abs (Z.neg p)))
      with (pretty_N_go (N.pos p) EmptyString) in Hlen.
    pose proof (pretty_pos_digits p) as Hdigits.
    pose proof (pretty_pos_int p) as Hint.
    unfold ConlluFile.py_int.
    rewrite lstrip_all, rstrip_all;
      [|simpl; eapply all_chars_impl; [|exact Hdigits]; intros c Hc;
        by rewrite (proj1 (is_digit_chars c Hc))..].
    change (Ascii.eqb "-" "+") with false.
    change (Ascii.eqb "-" "-") with true. cbv iota beta.
    rewrite Hint, Hlen. by destruct p.
Qed.

Lemma pretty_nonneg_digits (n : Z) :
  0 ≤ n → pretty n ≠ EmptyString ∧ all_chars is_digit (pretty n) = true.
Proof.
  intros Hn. destruct n as [|p|p]; [done| |lia].
  rewrite pretty_pos_eq. split;
    [apply pretty_pos_not_empty | apply pretty_pos_digits].
Qed.

Lemma pretty_is_word (n : Z) : is_word (pretty n).
Proof.
  destruct n as [|p|p]; [done| |].
  - rewrite pretty_pos_eq. split; [apply pretty_pos_not_empty|].
    eapply all_chars_impl; [|apply pretty_pos_digits]. intros c Hc.
    unfold not_space. by rewrite (proj1 (proj2 (is_digit_chars c Hc))).
  - rewrite pretty_neg_eq. split; [done|]. simpl.
    eapply all_chars_impl; [|apply pretty_pos_digits]. intros c Hc.
    unfold not_space. by rewrite (proj1 (proj2 (is_digit_chars c Hc))).
Qed.

Lemma contains_none (P : ascii → bool) (c : ascii) (s : string) :
  all_chars P s = true → P c = false → ConlluFile.contains c s = false.
Proof.
  intros Hs Hc. induction s as [|x s IH]; [done|]. simpl in *.
  apply andb_prop in Hs as [Hx Hs]. rewrite (IH Hs), orb_false_r.
  destruct (Ascii.eqb_spec c x) as [->|]; [congruence | done].
Qed.

End int_facts.

Section odict_order.
Context {K V : Type} `{EqDecision K}.

Lemma od_set_new (k : K) (v : V) (d : odict K V) :
  k ∉ od_keys d → od_set k v d = d ++ [(k, v)].
Proof.
  unfold od_keys. induction d as [|[k0 v0] d IH]; [done|].
  rewrite fmap_cons, not_elem_of_cons. intros [Hne Hnot]. simpl.
  rewrite decide_False by done. by rewrite IH.
Qed.

Lemma od_keys_set_cases (k : K) (v : V) (d : odict K V) :
  od_keys (od_set k v d)
  = if decide (k ∈ od_keys d) then od_keys d else od_keys d ++ [k].
Proof.
  destruct (decide (k ∈ od_keys d)) as [Hin|Hnot].
  - apply od_keys_set. destruct (od_get k d) eqn:Hget; [done|].
    by apply od_get_keys in Hget.
  - rewrite od_set_new by done. unfold od_keys. by rewrite fmap_app.
Qed.

Lemma od_set_NoDup (k : K) (v : V) (d : odict K V) :
  NoDup (od_keys d) → NoDup (od_keys (od_set k v d)).
Proof.
  intros Hd. rewrite od_keys_set_cases.
  destruct (decide (k ∈ od_keys d)) as [Hin|Hnot]; [done|].
  apply NoDup_app. split; [done|]. split; [|apply NoDup_singleton].
  intros x Hx Hk. apply list_elem_of_singleton in Hk. by subst.
Qed.

Lemma od_set_Forall (P : K * V → Prop) (k : K) (v : V) (d : odict K V) :
  P (k, v) → Forall P d → Forall P (od_set k v d).
Proof.
  intros Hkv. induction d as [|[k0 v0] d IH]; simpl.
  - by constructor.
  - intros [H0 Hd]%Forall_cons.
    destruct (decide (k = k0)); constructor; auto.
Qed.

Lemma od_set_not_nil (k : K) (v : V) (d : odict K V) : od_set k v d ≠ [].
Proof. destruct d as [|[k0 v0] d]; simpl; [done|]. by destruct (decide _). Qed.

(** Storing the items of a dict one by one, in their order, builds the
    dict again. *)
Lemma od_rebuild (st items : odict K V) :
  NoDup (od_keys (st ++ items)) →
  foldl (fun st item => od_set item.1 item.2 st) st items = st ++ items.
Proof.
  revert st. induction items as [|[k v] items IH]; intros st Hnd; simpl.
  - by rewrite app_nil_r.
  - rewrite od_set_new.
    + rewrite IH; rewrite <- app_assoc; done.
    + unfold od_keys in *. rewrite fmap_app, fmap_cons in Hnd.
      apply NoDup_app in Hnd as (_ & Hnot & _). intros Hin.
      apply (Hnot k Hin). by left.
Qed.

End odict_order.

Section parse_facts.

Lemma int_space_is_space (c : ascii) :
  ConlluFile.py_isspace c = false → ConlluFile.int_isspace c = false.
Proof.
  destruct c as [[] [] [] [] [] [] [] []]; vm_compute; intros H;
    try discriminate H; reflexivity.
Qed.

Lemma not_space_not_newline (c : ascii) :
  not_space c = true → not_newline c = true.
Proof.
  unfold not_space, not_newline.
  destruct (Ascii.eqb_spec c ConlluFile.newline) as [->|]; [|done].
  by vm_compute.
Qed.

Lemma int_digits_nonneg (s : string) (acc : Z) (cnt : nat) (ad : bool)
    (n : Z) (k : nat) :
  0 ≤ acc → ConlluFile.int_digits s acc cnt ad = Some (n, k) → 0 ≤ n.
Proof.
  revert acc cnt ad. induction s as [|c s IH]; intros acc cnt ad Hacc; simpl.
  - destruct ad; [|done]. by intros [= <- _].
  - destruct (Ascii.eqb c "_").
    + destruct ad; [|done]. by apply IH.
    + destruct (ConlluFile.digit_of c) as [d|] eqn:Hd; [|done].
      apply IH. unfold ConlluFile.digit_of in Hd.
      destruct (_ && _)%nat eqn:Hrange; [|done]. injection Hd as <-.
      apply andb_prop in Hrange as [Hlo%Nat.leb_le _]. lia.
Qed.

Lemma word_no_int_space (s : string) :
  all_chars not_space s = true →
  all_chars (fun c => negb (ConlluFile.int_isspace c)) s = true.
Proof.
  apply all_chars_impl. intros c Hc.
  by rewrite (int_space_is_space c (not_space_false c Hc)).
Qed.

Lemma py_int_nonneg (s : string) (n : Z) :
  is_word s → ConlluFile.contains "-" s = false →
  ConlluFile.py_int s = Ok n → 0 ≤ n.
Proof.
  intros [Hne Hw] Hdash. unfold ConlluFile.py_int.
  rewrite lstrip_all, rstrip_all by by apply word_no_int_space.
  destruct s as [|c r]; [done|]. simpl in Hdash.
  apply orb_false_elim in Hdash as [Hc _].
  assert (Hminus : Ascii.eqb c "-" = false).
  { destruct (Ascii.eqb_spec c "-") as [->|]; [done|done]. }
  rewrite Hminus.
  destruct (Ascii.eqb c "+").
  - destruct (ConlluFile.int_digits r 0 0 false) as [[m cnt]|] eqn:Hd; [|done].
    destruct (4300 <? cnt)%nat; [done|]. intros [= <-].
    apply int_digits_nonneg in Hd; lia.
  - destruct (ConlluFile.int_digits (String c r) 0 0 false)
      as [[m cnt]|] eqn:Hd; [|done].
    destruct (4300 <? cnt)%nat; [done|]. intros [= <-].
    apply int_digits_nonneg in Hd; lia.
Qed.

Lemma parse_token_fresh (line : string)
    (sentence sentence' : odict Z Conllu.Node) :
  ConlluFile.parse_token line sentence = Ok sentence' →
  fresh_sentence sentence →
  fresh_sentence sentence' ∧ sentence' ≠ [].
Proof.
  unfold ConlluFile.parse_token. intros Hparse [Hnd Hall].
  assert (Hwords : Forall is_word (take 10 (ConlluFile.py_split line)))
    by apply Forall_take, py_split_words.
  destruct (take 10 (ConlluFile.py_split line))
    as [|c1 [|c2 [|c3 [|c4 [|c5 [|c6 [|c7 [|c8 [|c9 [|c10 [|c11 more]]]]]]]]]]];
    try done.
  destruct (ConlluFile.contains "-" c1) eqn:Hdash; [done|].
  destruct (String.eqb_spec c9 "_") as [->|Hdeps]; [|done].
  cbn [negb orb] in Hparse.
  destruct (ConlluFile.contains "." c1); [done|].
  destruct (ConlluFile.py_int c1) as [n|e] eqn:Hn; [|done].
  cbn [rbind] in Hparse.
  destruct (ConlluFile.py_int c7) as [h|e]; [|done]. cbn [rbind] in Hparse.
  injection Hparse as <-. split; [|apply od_set_not_nil].
  split; [by apply od_set_NoDup|]. apply od_set_Forall; [|done].
  apply Forall_cons in Hwords as [Hc1 Hwords].
  apply Forall_cons in Hwords as [Hc2 Hwords].
  apply Forall_cons in Hwords as [Hc3 Hwords].
  apply Forall_cons in Hwords as [Hc4 Hwords].
  apply Forall_cons in Hwords as [Hc5 Hwords].
  apply Forall_cons in Hwords as [Hc6 Hwords].
  apply Forall_cons in Hwords as [Hc7 Hwords].
  apply Forall_cons in Hwords as [Hc8 Hwords].
  apply Forall_cons in Hwords as [Hc9 Hwords].
  apply Forall_cons in Hwords as [Hc10 Hwords].
  exists c2, c3, c4, (if String.eqb c5 "_" then c4 else c5), c6, h, c8, c10.
  cbn [fst snd]. split; [done|]. split; [|split].
  - destruct (String.eqb_spec c5 "_") as [->|Hx]; [|done]. by intros ->.
  - exact (py_int_nonneg c1 n Hc1 Hdash Hn).
  - destruct (String.eqb c5 "_");
      repeat first [apply Forall_nil_2 | apply Forall_cons_2; [done|]].
Qed.

Lemma parse_token_not_nil (line : string)
    (sentence sentence' : odict Z Conllu.Node) :
  ConlluFile.parse_token line sentence = Ok sentence' → sentence' ≠ [].
Proof.
  unfold ConlluFile.parse_token. intros Hparse.
  destruct (take 10 (ConlluFile.py_split line))
    as [|c1 [|c2 [|c3 [|c4 [|c5 [|c6 [|c7 [|c8 [|c9 [|c10 [|c11 more]]]]]]]]]]];
    try done.
  destruct (ConlluFile.contains "-" c1); [done|].
  destruct (negb (String.eqb c9 "_") || ConlluFile.contains "." c1); [done|].
  destruct (ConlluFile.py_int c1) as [n|e]; [|done].
  cbn [rbind] in Hparse.
  destruct (ConlluFile.py_int c7) as [h|e]; [|done]. cbn [rbind] in Hparse.
  injection Hparse as <-. apply od_set_not_nil.
Qed.

Lemma parse_lines_not_nil (lines comments comments' : list string)
    (sentence sentence' : odict Z Conllu.Node) :
  ConlluFile.parse_lines lines comments sentence = Ok (comments', sentence') →
  sentence ≠ [] → sentence' ≠ [].
Proof.
  revert comments sentence. induction lines as [|line rest IH];
    intros comments sentence Hparse Hne.
  - by injection Hparse as _ <-.
  - cbn [ConlluFile.parse_lines] in Hparse.
    destruct (ConlluFile.starts_with_hash line); [by eapply IH|].
    destruct (ConlluFile.parse_token line sentence) as [sentence1|e] eqn:Htoken;
      [|done].
    cbn [rbind] in Hparse. eapply IH; [exact Hparse|].
    by eapply parse_token_not_nil.
Qed.

Lemma parse_lines_fresh (lines comments comments' : list string)
    (sentence sentence' : odict Z Conllu.Node) :
  ConlluFile.parse_lines lines comments sentence = Ok (comments', sentence') →
  fresh_sentence sentence →
  fresh_sentence sentence'
  ∧ comments'
    = comments
      ++ filter (fun line => ConlluFile.starts_with_hash line = true) lines
  ∧ (sentence' = [] →
     Forall (fun line => ConlluFile.starts_with_hash line = true) lines).
Proof.
  revert comments sentence. induction lines as [|line rest IH];
    intros comments sentence Hparse Hsentence.
  - injection Hparse as <- <-. by rewrite app_nil_r.
  - cbn [ConlluFile.parse_lines] in Hparse.
    destruct (ConlluFile.starts_with_hash line) eqn:Hhash.
    + destruct (IH _ _ Hparse Hsentence) as (Hfresh & -> & Hnil).
      split; [done|]. split.
      * rewrite filter_cons_True by done. by rewrite <- app_assoc.
      * intros Hs. constructor; [done | by apply Hnil].
    + destruct (ConlluFile.parse_token line sentence) as [sentence1|e] eqn:Htoken;
        [|done].
      cbn [rbind] in Hparse.
      destruct (parse_token_fresh _ _ _ Htoken Hsentence) as [Hfresh1 Hne].
      destruct (IH _ _ Hparse Hfresh1) as (Hfresh & -> & Hnil).
      split; [done|]. split.
      * rewrite filter_cons_False; [done|]. by rewrite Hhash.
      * intros Hs. by destruct (parse_lines_not_nil _ _ _ _ _ Hparse Hne).
Qed.

Lemma filter_all {A : Type} (P : A → Prop) `{∀ x, Decision (P x)}
    (l : list A) :
  Forall P l → filter P l = l.
Proof.
  induction 1 as [|x l Hx Hl IH]; [done|].
  by rewrite filter_cons_True, IH by done.
Qed.

Lemma parse_sentence_block (sent : string)
    (sentence : odict Z Conllu.Node) (comments : list string) :
  ConlluFile.parse_sentence sent = Ok (Some (sentence, comments)) →
  parsed_block sentence comments.
Proof.
  unfold ConlluFile.parse_sentence. intros Hparse.
  pose proof (split_lines_all (ConlluFile.py_strip sent)) as Hlines.
  destruct (ConlluFile.split_lines (ConlluFile.py_strip sent)) as [|l ls]
    eqn:Hsplit; [done|].
  destruct (ConlluFile.parse_lines (l :: ls) [] []) as [[cs fresh]|e] eqn:Hpl;
    [|done].
  cbn [rbind snd fst] in Hparse.
  destruct (ConlluFile.exchange_pointers fresh) as [[e|] linked] eqn:Hexchange;
    [done|].
  injection Hparse as <- <-.
  destruct (parse_lines_fresh _ _ _ _ _ Hpl) as (Hfresh & -> & Hnil).
  { split; [apply NoDup_nil_2 | done]. }
  exists fresh. split; [done|]. split; [done|]. cbn [app]. split.
  - apply Forall_forall. intros c [Hc Hin]%list_elem_of_filter.
    split; [done|]. rewrite Forall_forall in Hlines. by apply Hlines.
  - intros ->. specialize (Hnil eq_refl). rewrite (filter_all _ _ Hnil).
    assert (Hne : ConlluFile.py_strip sent ≠ EmptyString).
    { intros Heq. rewrite Heq in Hsplit. injection Hsplit as <- <-.
      by apply Forall_cons in Hnil as [? _]. }
    destruct (py_strip_ends _ Hne) as (c & Hc & Hclean).
    destruct (split_lines_last _ c Hc (not_space_not_newline _ Hclean))
      as (l' & Hlast & Hlc).
    rewrite Hsplit in Hlast. exists l'. split; [done|]. by exists c.
Qed.

Lemma parse_sentence_not_skipped (sent : string) :
  ConlluFile.parse_sentence sent ≠ Ok None.
Proof.
  unfold ConlluFile.parse_sentence. intros Hsent.
  pose proof (split_lines_not_nil (ConlluFile.py_strip sent)) as Hnn.
  destruct (ConlluFile.split_lines (ConlluFile.py_strip sent)); [done|].
  destruct (ConlluFile.parse_lines _ [] []) as [parsed|e]; [|done].
  cbn [rbind] in Hsent.
  by destruct (ConlluFile.exchange_pointers parsed.2) as [[e|] linked].
Qed.

Lemma parse_sentences_blocks (sents : list string)
    (sentences sentences' : list (odict Z Conllu.Node))
    (all_comments all_comments' : list (list string)) :
  ConlluFile.parse_sentences sents sentences all_comments
  = Ok (sentences', all_comments') →
  Forall2 parsed_block sentences all_comments →
  Forall2 parsed_block sentences' all_comments'
  ∧ length sentences' = (length sentences + length sents)%nat.
Proof.
  revert sentences all_comments. induction sents as [|sent rest IH];
    intros sentences all_comments Hparse Hblocks.
  - injection Hparse as <- <-. split; [done|]. simpl. lia.
  - cbn [ConlluFile.parse_sentences] in Hparse.
    destruct (ConlluFile.parse_sentence sent) as [[[s cs]|]|e] eqn:Hsent;
      cbn [rbind] in Hparse; [| |done].
    + apply parse_sentence_block in Hsent.
      destruct (IH _ _ Hparse) as [Hall Hlen].
      { apply Forall2_app; [done|]. by constructor. }
      split; [done|]. rewrite Hlen, length_app. simpl. lia.
    + by destruct (parse_sentence_not_skipped sent).
Qed.

End parse_facts.

Section serialize_facts.

Lemma same_text_refl (a : odict Z Conllu.Node) : same_text a a.
Proof. unfold same_text. induction a; constructor; auto. Qed.

Lemma same_text_trans (a b c : odict Z Conllu.Node) :
  same_text a b → same_text b c → same_text a c.
Proof.
  unfold same_text. intros Hab. revert c.
  induction Hab as [|x y a b (Hk & Hi & Hd) Hab IH]; intros c Hbc.
  - by inversion Hbc.
  - inversion Hbc as [|y' z b' c' (Hk' & Hi' & Hd') Hbc']; subst.
    constructor; [|by apply IH]. split_and!; congruence.
Qed.

Lemma same_text_set (k : Z) (v old : Conllu.Node) (d : odict Z Conllu.Node) :
  od_get k d = Some old →
  Conllu.conllu_info v = Conllu.conllu_info old →
  Conllu.new_deps v = Conllu.new_deps old →
  same_text d (od_set k v d).
Proof.
  intros Hget Hi Hd. induction d as [|[k0 v0] d IH]; [done|].
  simpl in *. destruct (decide (k = k0)) as [->|Hne].
  - injection Hget as ->. constructor; [done | apply same_text_refl].
  - constructor; [done | by apply IH].
Qed.

Lemma exchange_loop_same_text (ids : list Z) (sentence : odict Z Conllu.Node) :
  same_text sentence (ConlluFile.exchange_loop ids sentence).2.
Proof.
  revert sentence. induction ids as [|cur rest IH]; intros sentence;
    [apply same_text_refl|].
  cbn [ConlluFile.exchange_loop].
  destruct (od_get cur sentence) as [token|] eqn:Hcur; [|apply same_text_refl].
  destruct (ConlluFile.differs_from_zero _); [|apply IH].
  destruct (ConlluFile.sentence_getitem sentence _) as [[h hn]|e];
    [|apply same_text_refl].
  assert (H1 : same_text sentence
                 (od_set cur (ConlluFile.with_head_pointer token h) sentence))
    by by eapply same_text_set.
  destruct (od_get h (od_set cur _ sentence)) as [head_node|] eqn:Hh; [|done].
  eapply same_text_trans; [exact H1|].
  eapply same_text_trans; [|apply IH]. by eapply same_text_set.
Qed.

Lemma fields_text_info (n n' : Conllu.Node) (names : list Conllu.Column)
    (t : string) :
  Conllu.conllu_info n = Conllu.conllu_info n' →
  ConlluFile.fields_text false n names t
  = ConlluFile.fields_text false n' names t.
Proof.
  intros Hi. revert t. induction names as [|name rest IH]; intros t; [done|].
  cbn [ConlluFile.fields_text].
  assert (ConlluFile.field_text false n name
          = ConlluFile.field_text false n' name) as ->.
  { unfold ConlluFile.field_text. rewrite Hi. by destruct name. }
  destruct (ConlluFile.field_text false n' name); [|done].
  cbn [rbind]. apply IH.
Qed.

Lemma tokens_text_same (a b : odict Z Conllu.Node) (t : string) :
  same_text a b →
  ConlluFile.tokens_text false a t = ConlluFile.tokens_text false b t.
Proof.
  intros Hab. revert t.
  induction Hab as [|[k n] [k' n'] a b (Hk & Hi & Hd) Hab IH]; intros t;
    [done|].
  cbn [ConlluFile.tokens_text]. simpl in Hi.
  rewrite (fields_text_info n n' _ t Hi).
  destruct (ConlluFile.fields_text false n' ConlluFile.fields t); [|done].
  cbn [rbind]. apply IH.
Qed.

Lemma fresh_unchanged (fresh sentence : odict Z Conllu.Node) :
  same_text fresh sentence →
  Forall (fun item => fresh_token item.1 item.2) fresh →
  existsb (fun item => (Conllu.new_deps item.2).1) sentence = false.
Proof.
  induction 1 as [|[k n] [k' n'] a b (Hk & Hi & Hd) Hab IH]; [done|].
  intros [Hf Hall]%Forall_cons. simpl in *. rewrite <- Hd.
  destruct Hf as (f & l & u & x & fe & h & d & m & -> & _). simpl.
  by apply IH.
Qed.

Lemma fields_text_app (flag : bool) (n : Conllu.Node)
    (names : list Conllu.Column) (t : string) :
  ConlluFile.fields_text flag n names t
  = (added ←? ConlluFile.fields_text flag n names EmptyString;
     Ok (t +:+ added)).
Proof.
  revert t. induction names as [|name rest IH]; intros t.
  - simpl. by rewrite app_empty_r.
  - cbn [ConlluFile.fields_text].
    destruct (ConlluFile.field_text flag n name) as [a|e]; [|done].
    cbn [rbind]. rewrite (IH (t +:+ a)), (IH (EmptyString +:+ a)).
    rewrite app_empty_l.
    destruct (ConlluFile.fields_text flag n rest EmptyString) as [x|e];
      [|done].
    cbn [rbind]. by rewrite app_assoc_str.
Qed.

Lemma comments_text_lines (comments : list string) (t : string) :
  ConlluFile.comments_text comments t = t +:+ lines_text comments.
Proof.
  unfold ConlluFile.comments_text. revert t.
  induction comments as [|c cs IH]; intros t.
  - simpl. by rewrite app_empty_r.
  - cbn [foldl]. rewrite IH.
    change (lines_text (c :: cs)) with (c +:+ nl +:+ lines_text cs).
    by rewrite !app_assoc_str.
Qed.

Lemma lines_text_app (a b : list string) :
  lines_text (a ++ b) = lines_text a +:+ lines_text b.
Proof.
  induction a as [|l a IH]; [done|].
  change (lines_text ((l :: a) ++ b)) with (l +:+ nl +:+ lines_text (a ++ b)).
  change (lines_text (l :: a)) with (l +:+ nl +:+ lines_text a).
  by rewrite IH, !app_assoc_str.
Qed.

Lemma all_chars_last (P : ascii → bool) (s : string) (c : ascii) :
  all_chars P s = true → last_char s = Some c → P c = true.
Proof.
  induction s as [|x s IH]; [done|]. cbn [all_chars last_char].
  intros [Hx Hs]%andb_prop. destruct s as [|y s].
  - by intros [= <-].
  - by apply IH.
Qed.

Lemma word_trimmed (w : string) : is_word w → trimmed w.
Proof.
  intros [Hne Hall]. split.
  - destruct w as [|c w]; [done|]. exists c. split; [done|].
    simpl in Hall. by apply andb_prop in Hall as [? _].
  - destruct (last_char_some w Hne) as [c Hc]. exists c. split; [done|].
    by eapply all_chars_last.
Qed.

Lemma join_words_line (cols : list string) :
  cols ≠ [] → Forall is_word cols → is_line (ConlluFile.py_join tb cols).
Proof.
  intros Hne Hall. induction cols as [|w cols IH]; [done|]. clear Hne.
  apply Forall_cons in Hall as [[Hw Hwall] Hall].
  assert (Hline : all_chars not_newline w = true).
  { eapply all_chars_impl; [|exact Hwall]. apply not_space_not_newline. }
  destruct cols as [|w' cols]; [done|].
  change (ConlluFile.py_join tb (w :: w' :: cols))
    with (w +:+ tb +:+ ConlluFile.py_join tb (w' :: cols)).
  destruct (IH ltac:(done) Hall) as [_ IHall]. split.
  - by destruct w.
  - rewrite !all_chars_app, Hline, IHall. reflexivity.
Qed.

End serialize_facts.

Section roundtrip_facts.

Lemma py_str_int (n : Z) (t : string) :
  ConlluFile.py_str (Conllu.PyInt n) = Ok t → t = pretty n.
Proof.
  unfold ConlluFile.py_str. destruct (_ <? _)%nat; [done|]. by intros [= <-].
Qed.

Lemma starts_with_hash_first (s : string) (c : ascii) :
  first_char s = Some c → ConlluFile.starts_with_hash s = Ascii.eqb c "#".
Proof. destruct s; [done|]. by intros [= ->]. Qed.

Lemma Forall_last {A : Type} (P : A → Prop) (l : list A) (x : A) :
  Forall P l → last l = Some x → P x.
Proof.
  induction 1 as [|y l Hy Hl IH]; [done|]. destruct l as [|z l].
  - by intros [= <-].
  - exact IH.
Qed.

Lemma join_trimmed (sep : string) (ws : list string) :
  ws ≠ [] → Forall starts_clean ws →
  (∃ w, last ws = Some w ∧ ends_clean w) →
  trimmed (ConlluFile.py_join sep ws).
Proof.
  intros Hne Hstart (w & Hlast & c & Hc & Hclean). split.
  - destruct ws as [|w0 ws]; [done|].
    apply Forall_cons in Hstart as [(d & Hd & Hdc) _]. exists d.
    rewrite first_char_join; [done|]. by destruct w0.
  - exists c. rewrite (last_char_join sep w ws Hlast); [done|]. by destruct w.
Qed.

(** The line of a token, column by column. *)
Lemma token_line_eq (id h : Z) (form lemma upos xpos feats deprel misc : string)
    (hp : option Z) (children : list Z) (nd : bool * list (Z * string)) :
  token_line
    (Conllu.mkNode
       (Conllu.mkConlluInfo (Conllu.PyInt id) (Conllu.PyStr form)
          (Conllu.PyStr lemma) (Conllu.PyStr upos) (Conllu.PyStr xpos)
          (Conllu.PyStr feats) (Conllu.PyInt h) (Conllu.PyStr deprel)
          (Conllu.PyStr "_") (Conllu.PyStr misc))
       hp children nd)
  = (idt ←? ConlluFile.py_str (Conllu.PyInt id);
     ht ←? ConlluFile.py_str (Conllu.PyInt h);
     Ok (ConlluFile.py_join tb
           [idt; form; lemma; upos; xpos; feats; ht; deprel; "_"%string; misc]
         +:+ nl)).
Proof.
  unfold token_line, ConlluFile.fields.
  cbn -[ConlluFile.py_str String.append].
  remember (ConlluFile.py_str (Conllu.PyInt id)) as rid eqn:Hrid.
  remember (ConlluFile.py_str (Conllu.PyInt h)) as rh eqn:Hrh.
  destruct rid as [idt|e]; [|done]. cbn [rbind ConlluFile.py_str].
  destruct rh as [ht|e]; [|done]. cbn [rbind ConlluFile.py_str].
  f_equal. unfold tb, nl. by rewrite !app_assoc_str, app_empty_l.
Qed.

Lemma token_line_row (id : Z) (node : Conllu.Node) (l : string) :
  fresh_token id node → token_line node = Ok l →
  ∃ row, l = row +:+ nl ∧ row_of id node row.
Proof.
  intros (form & lemma & upos & xpos & feats & h & deprel & misc
          & -> & Hx & Hid & Hwords) Hline.
  rewrite token_line_eq in Hline.
  destruct (ConlluFile.py_str (Conllu.PyInt id)) as [idt|e] eqn:Hidt; [|done].
  destruct (ConlluFile.py_str (Conllu.PyInt h)) as [ht|e] eqn:Hht; [|done].
  cbn [rbind] in Hline. injection Hline as <-.
  apply Forall_cons in Hwords as [Hform Hwords].
  apply Forall_cons in Hwords as [Hlemma Hwords].
  apply Forall_cons in Hwords as [Hupos Hwords].
  apply Forall_cons in Hwords as [Hxpos Hwords].
  apply Forall_cons in Hwords as [Hfeats Hwords].
  apply Forall_cons in Hwords as [Hdeprel Hwords].
  apply Forall_cons in Hwords as [Hmisc _].
  assert (Hidw : is_word idt)
    by (rewrite (py_str_int _ _ Hidt); apply pretty_is_word).
  assert (Hhw : is_word ht)
    by (rewrite (py_str_int _ _ Hht); apply pretty_is_word).
  assert (Hunder : is_word "_") by (by split).
  set (cols := [idt; form; lemma; upos; xpos; feats; ht; deprel;
                "_"%string; misc]).
  assert (Hcols : Forall is_word cols)
    by (repeat first [apply Forall_nil_2 | apply Forall_cons_2; [done|]]).
  destruct (pretty_nonneg_digits id Hid) as [Hne Hdigits].
  rewrite <- (py_str_int _ _ Hidt) in Hne, Hdigits.
  assert (Hfirst : first_char (ConlluFile.py_join tb cols) = first_char idt)
    by (by apply first_char_join).
  exists (ConlluFile.py_join tb cols). split; [done|].
  split; [exact (join_words_line cols ltac:(done) Hcols)|].
  split; [split|split].
  - destruct (word_trimmed idt Hidw) as [(c & Hc & Hcs) _]. exists c.
    by rewrite Hfirst.
  - destruct (word_trimmed misc Hmisc) as [_ (c & Hc & Hcs)]. exists c.
    rewrite (last_char_join tb misc cols); [done|done|apply Hmisc].
  - destruct idt as [|c r]; [done|].
    rewrite (starts_with_hash_first _ c Hfirst).
    simpl in Hdigits. apply andb_prop in Hdigits as [Hc _].
    by destruct (is_digit_chars c Hc) as (_ & _ & _ & _ & ->).
  - intros sentence. unfold ConlluFile.parse_token.
    rewrite py_split_join by done. unfold cols. cbn [take].
    rewrite (contains_none is_digit "-" idt Hdigits eq_refl).
    change (String.eqb "_" "_") with true. cbn [negb orb].
    rewrite (contains_none is_digit "." idt Hdigits eq_refl).
    rewrite (py_int_pretty _ _ Hidt), (py_int_pretty _ _ Hht).
    cbn [rbind].
    destruct (String.eqb_spec xpos "_") as [->|]; [|done].
    by rewrite (Hx eq_refl).
Qed.

Lemma tokens_text_rows (fresh : odict Z Conllu.Node) (t t' : string) :
  Forall (fun item => fresh_token item.1 item.2) fresh →
  ConlluFile.tokens_text false fresh t = Ok t' →
  ∃ rows,
    Forall2 (fun item row => row_of item.1 item.2 row) fresh rows
    ∧ t' = t +:+ lines_text rows.
Proof.
  intros Hall. revert t.
  induction Hall as [|[k node] rest Hf Hall IH]; intros t Htext.
  - injection Htext as <-. exists []. split; [constructor|].
    by rewrite app_empty_r.
  - cbn [ConlluFile.tokens_text] in Htext.
    rewrite fields_text_app in Htext. fold (token_line node) in Htext.
    destruct (token_line node) as [l|e] eqn:Hl; [|done].
    cbn [rbind] in Htext.
    destruct (token_line_row k node l Hf Hl) as (row & -> & Hrow).
    destruct (IH _ Htext) as (rows & Hrows & ->).
    exists (row :: rows). split; [by constructor|].
    change (lines_text (row :: rows)) with (row +:+ nl +:+ lines_text rows).
    by rewrite !app_assoc_str.
Qed.

Lemma parse_lines_comments (cs rest c0 : list string)
    (sentence : odict Z Conllu.Node) :
  Forall (fun c => ConlluFile.starts_with_hash c = true) cs →
  ConlluFile.parse_lines (cs ++ rest) c0 sentence
  = ConlluFile.parse_lines rest (c0 ++ cs) sentence.
Proof.
  intros Hcs. revert c0. induction Hcs as [|c cs Hc Hcs IH]; intros c0.
  - by rewrite app_nil_r.
  - cbn [app ConlluFile.parse_lines]. rewrite Hc, IH.
    by rewrite <- app_assoc.
Qed.

Lemma parse_lines_rows (items : odict Z Conllu.Node)
    (rows comments : list string) (sentence : odict Z Conllu.Node) :
  Forall2 (fun item row => row_of item.1 item.2 row) items rows →
  ConlluFile.parse_lines rows comments sentence
  = Ok (comments,
        foldl (fun st item => od_set item.1 item.2 st) sentence items).
Proof.
  intros Hrows. revert sentence.
  induction Hrows as [|item row items rows (_ & _ & Hhash & Hparse) Hrows IH];
    intros sentence; [done|].
  cbn [ConlluFile.parse_lines]. rewrite Hhash, Hparse.
  cbn [rbind foldl]. apply IH.
Qed.

Lemma hash_starts_clean (c : string) :
  ConlluFile.starts_with_hash c = true → starts_clean c.
Proof.
  destruct c as [|x c]; [done|]. simpl.
  destruct (Ascii.eqb_spec x "#") as [->|]; [|done]. intros _.
  by exists "#"%char.
Qed.

Lemma exchange_same_text (fresh sentence : odict Z Conllu.Node) :
  ConlluFile.exchange_pointers fresh = (None, sentence) →
  same_text fresh sentence.
Proof.
  unfold ConlluFile.exchange_pointers. intros Hex.
  pose proof (exchange_loop_same_text (od_keys fresh) fresh) as Hsame.
  by rewrite Hex in Hsame.
Qed.

(** What [serialize_conllu] adds to the text for a sentence and its
    comments, without the empty line. *)
Lemma serialized_block (sentence : odict Z Conllu.Node)
    (comments : list string) (t t' : string) :
  parsed_block sentence comments →
  ConlluFile.tokens_text false sentence
    (ConlluFile.comments_text comments t) = Ok t' →
  ∃ lines, block_of sentence comments lines ∧ t' = t +:+ lines_text lines.
Proof.
  intros (fresh & Hex & [Hnd Hfresh] & [Hcs Hlast]) Htext.
  pose proof (exchange_same_text _ _ Hex) as Hsame.
  rewrite <- (tokens_text_same _ _ _ Hsame) in Htext.
  rewrite comments_text_lines in Htext.
  destruct (tokens_text_rows _ _ _ Hfresh Htext) as (rows & Hrows & ->).
  exists (comments ++ rows).
  split; [|by rewrite lines_text_app, app_assoc_str].
  assert (Hrow_line : Forall is_line rows).
  { clear -Hrows. induction Hrows as [|???? [? _]]; by constructor. }
  assert (Hrow_trim : Forall trimmed rows).
  { clear -Hrows. induction Hrows as [|???? (_ & ? & _)]; by constructor. }
  assert (Hhash : Forall (fun c => ConlluFile.starts_with_hash c = true)
                    comments).
  { eapply Forall_impl; [exact Hcs|]. by intros c [? _]. }
  assert (Hlines : Forall is_line (comments ++ rows)).
  { apply Forall_app. split; [|done].
    eapply Forall_impl; [exact Hcs|]. intros c [Hh Hn].
    split; [by destruct c | done]. }
  assert (Hstart : Forall starts_clean (comments ++ rows)).
  { apply Forall_app. split.
    - eapply Forall_impl; [exact Hhash|]. apply hash_starts_clean.
    - eapply Forall_impl; [exact Hrow_trim|]. by intros r [? _]. }
  assert (Hend : ∃ l, last (comments ++ rows) = Some l ∧ ends_clean l).
  { rewrite last_app. destruct (last rows) as [r|] eqn:Hr.
    - exists r. split; [done|].
      by destruct (Forall_last _ _ _ Hrow_trim Hr).
    - apply last_None in Hr. subst rows.
      apply Forall2_nil_inv_r in Hrows. by apply Hlast. }
  assert (Hne : comments ++ rows ≠ []).
  { destruct Hend as (l & Hl & _). intros Heq. by rewrite Heq in Hl. }
  pose proof (join_trimmed nl _ Hne Hstart Hend) as Htrim.
  split; [done|]. split; [done|]. split; [done|].
  unfold ConlluFile.parse_sentence.
  rewrite (py_strip_trimmed _ Htrim).
  rewrite split_lines_join;
    [|done|eapply Forall_impl; [exact Hlines|]; by intros l [_ ?]].
  destruct (comments ++ rows) as [|l0 ls] eqn:Heq; [done|]. rewrite <- Heq.
  rewrite parse_lines_comments by done.
  rewrite (parse_lines_rows _ _ _ _ Hrows).
  rewrite od_rebuild by done.
  cbn [rbind fst snd app]. by rewrite Hex.
Qed.

Lemma serialize_loop_blocks
    (pairs : list (odict Z Conllu.Node * list string)) (t t' : string) :
  Forall (fun p => parsed_block p.1 p.2) pairs →
  ConlluFile.serialize_loop (ConlluFile.mkConf true false) pairs t = Ok t' →
  ∃ blocks,
    Forall2 (fun p lines => block_of p.1 p.2 lines) pairs blocks
    ∧ t' = t +:+ blocks_text blocks.
Proof.
  intros Hall. revert t.
  induction Hall as [|[s cs] pairs Hp Hall IH]; intros t Hser.
  - injection Hser as <-. exists []. split; [constructor|].
    by rewrite app_empty_r.
  - cbn [ConlluFile.serialize_loop ConlluFile.preserve_comments
         ConlluFile.output_unchanged_deps orb] in Hser.
    cbn [fst snd] in Hp.
    assert (Hflag : existsb (fun item => (Conllu.new_deps item.2).1) s = false).
    { destruct Hp as (fresh & Hex & [_ Hfresh] & _).
      eapply fresh_unchanged; [|exact Hfresh]. by apply exchange_same_text. }
    rewrite Hflag in Hser.
    destruct (ConlluFile.tokens_text false s (ConlluFile.comments_text cs t))
      as [t1|e] eqn:Htext; [|done].
    cbn [rbind] in Hser.
    destruct (serialized_block _ _ _ _ Hp Htext) as (lines & Hblock & ->).
    destruct (IH _ Hser) as (blocks & Hblocks & ->).
    exists (lines :: blocks). split; [by constructor|].
    change (blocks_text (lines :: blocks))
      with (lines_text lines +:+ nl +:+ blocks_text blocks).
    by rewrite !app_assoc_str.
Qed.

Lemma parse_sentences_of_blocks
    (pairs : list (odict Z Conllu.Node * list string))
    (blocks : list (list string))
    (sentences : list (odict Z Conllu.Node))
    (all_comments : list (list string)) :
  Forall2 (fun p lines => block_of p.1 p.2 lines) pairs blocks →
  ConlluFile.parse_sentences (ConlluFile.py_join nl <$> blocks)
    sentences all_comments
  = Ok (sentences ++ pairs.*1, all_comments ++ pairs.*2).
Proof.
  intros Hblocks. revert sentences all_comments.
  induction Hblocks as [|[s cs] lines pairs blocks (_ & _ & _ & Hparse) _ IH];
    intros sentences all_comments.
  - by rewrite !app_nil_r.
  - rewrite fmap_cons. cbn [ConlluFile.parse_sentences].
    cbn [fst snd] in Hparse. rewrite Hparse. cbn [rbind].
    rewrite IH. rewrite !fmap_cons. cbn [fst snd].
    by rewrite <- !app_assoc.
Qed.

End roundtrip_facts.

Section roundtrip.

(** X21: what [serialize_conllu] writes for the result of [parse_conllu]
    is read back by [parse_conllu] as that same result. With
    [preserve_comments] on and [output_unchanged_deps] off, a text that
    [parse_conllu] accepts and whose result [serialize_conllu] can write
    gives, written and parsed again, the same sentences (ids, columns,
    head pointers, children lists, [new_deps]) and the same comments. *)
Theorem parse_serialize_parse (text text' : string)
    (sentences : list (odict Z Conllu.Node))
    (all_comments : list (list string)) :
  ConlluFile.parse_conllu text = Ok (sentences, all_comments) →
  ConlluFile.serialize_conllu (ConlluFile.mkConf true false)
    sentences all_comments = Ok text' →
  ConlluFile.parse_conllu text' = Ok (sentences, all_comments).
Proof.
  unfold ConlluFile.parse_conllu at 1. intros Hparse Hser.
  destruct (parse_sentences_blocks _ _ _ _ _ Hparse) as [Hblocks Hlen];
    [constructor|].
  pose proof (split_blank_not_nil (ConlluFile.py_strip text)) as Hsents.
  pose proof (Forall2_length _ _ _ Hblocks) as Hlen2.
  assert (Hpairs : Forall (fun p => parsed_block p.1 p.2)
                     (zip sentences all_comments)).
  { clear -Hblocks. induction Hblocks; simpl; by constructor. }
  unfold ConlluFile.serialize_conllu in Hser.
  destruct (serialize_loop_blocks _ _ _ Hpairs Hser) as (blocks & Hb & ->).
  rewrite app_empty_l.
  assert (Hne : blocks ≠ []).
  { intros ->. apply Forall2_nil_inv_r in Hb.
    destruct sentences as [|s ss], all_comments as [|c cs];
      simpl in *; try done.
    destruct (ConlluFile.split_blank_lines (ConlluFile.py_strip text));
      simpl in *; [done | lia]. }
  assert (Hshape : Forall (fun b => b ≠ [] ∧ Forall is_line b) blocks).
  { clear -Hb. induction Hb as [|???? (? & ? & _)]; by constructor. }
  assert (Htrims : Forall trimmed (ConlluFile.py_join nl <$> blocks)).
  { clear -Hb. induction Hb as [|???? (_ & _ & ? & _)];
      [constructor | rewrite fmap_cons; by constructor]. }
  unfold ConlluFile.parse_conllu.
  rewrite blocks_text_join;
    [|done|eapply Forall_impl; [exact Hshape|]; by intros b [? _]].
  rewrite py_strip_app_spaces; [| |reflexivity].
  - rewrite split_blank_blocks by done.
    rewrite (parse_sentences_of_blocks _ _ [] [] Hb). cbn [app].
    by rewrite fst_zip, snd_zip by lia.
  - apply join_trimmed.
    + by destruct blocks.
    + eapply Forall_impl; [exact Htrims|]. by intros b [? _].
    + destruct (last (ConlluFile.py_join nl <$> blocks)) as [w|] eqn:Hw.
      * exists w. split; [done|].
        by destruct (Forall_last _ _ _ Htrims Hw).
      * apply last_None in Hw. by destruct blocks.
Qed.

End roundtrip.

(** X21 at work: a sentence of two tokens with a comment, its columns
    separated by blanks, and a second sentence. *)
Lemma parse_serialize_parse_witness :
  let text :=
    ("# text = New York" +:+ nl
     +:+ "1 New new PROPN _ _ 2 compound _ _" +:+ nl
     +:+ "2 York york PROPN NNP _ 0 root _ _" +:+ nl
     +:+ nl
     +:+ "1 Go go VERB VB _ 0 root _ _" +:+ nl)%string in
  ∃ sentences all_comments text',
    ConlluFile.parse_conllu text = Ok (sentences, all_comments)
    ∧ ConlluFile.serialize_conllu (ConlluFile.mkConf true false)
        sentences all_comments = Ok text'
    ∧ ConlluFile.parse_conllu text' = Ok (sentences, all_comments).
Proof.
  intros text.
  destruct (ConlluFile.parse_conllu text) as [[sentences all_comments]|e]
    eqn:Hparse.
  - destruct (ConlluFile.serialize_conllu (ConlluFile.mkConf true false)
                sentences all_comments) as [text'|e] eqn:Hser.
    + exists sentences, all_comments, text'. split; [done|]. split; [done|].
      exact (parse_serialize_parse text text' sentences all_comments
               Hparse Hser).
    + exfalso. vm_compute in Hparse. injection Hparse as <- <-.
      vm_compute in Hser. discriminate Hser.
  - exfalso. vm_compute in Hparse. discriminate Hparse.
Defined.
